(** * SAI (Leela Zero fork): network evaluator and search node

    A shallow embedding of the parts of [Network.cpp] and [UCTNode.cpp]
    that the specification talks about: the weights-file version word, the
    batch-norm fusion of [Network::initialize], [sigmoid], the evaluation
    cache protocol of [Network::probe_cache] / [Network::get_output], and
    the expansion and quantile code of [UCTNode].  A second part follows the
    code further: the symmetry table, the policy and value heads of
    [get_output_internal] ([innerproduct], [batchnorm], [softmax],
    [reduce_mean]), [add_zero_channels] and [identify_layer] of the loader,
    and the backup statistics of [UCTNode].

    Conventions of the embedding.
    - C++ [float] and [double] values are idealised as real numbers [R]:
      rounding, infinities and NaN are not modelled ([sigmoid_rounded] is
      the one function given with its roundings as well).  A comparison of
      the source is the corresponding decision on [R].
    - [int] and [size_t] values are integers [Z]; [&] is [Z.land].
    - [std::vector] and [std::array] are lists, read and written by index
      with stdpp's lookup and insert.  The C++ is undefined outside the
      bounds; every statement below keeps its indices inside them.
    - Objects that the source mutates are threaded explicitly; calls that can
      raise [NetworkHaltException] live in a small state-and-exception monad.
    - Declarations that the two source files use but do not contain
      (configuration globals, [GameState], [NNCache], [Random], the head of
      [UCTNode], [SearchResult]) appear as fields of records that the
      definitions take as arguments. *)

From Stdlib Require Import ZArith List Bool Lia Reals Lra Sorted.
From stdpp Require Import base option list gmap.
Import ListNotations.

#[local] Open Scope Z_scope.
#[local] Open Scope R_scope.

(** ** Numeric helpers *)

(** [a < b] on floats, as a boolean. *)
Definition Rltb (a b : R) : bool := if Rlt_dec a b then true else false.

(** [a <= b] on floats, as a boolean. *)
Definition Rleb (a b : R) : bool := if Rle_dec a b then true else false.

(** [a == b] on floats, as a boolean. *)
Definition Reqb (a b : R) : bool := if Req_dec_T a b then true else false.

(** Read cell [i] of a float vector. *)
Definition at_idx (l : list R) (i : nat) : R := default 0 (l !! i).

(** A counted loop [for (i = 0; i < n; i++) body], threading the state. *)
Definition for_loop {S : Type} (n : nat) (body : nat -> S -> S) (s : S) : S :=
  foldl (fun acc i => body i acc) s (seq 0 n).

(** ** [sigmoid] (Network.cpp) *)

(** [std::pair<float,float> sigmoid(alpha, beta, bonus, beta2)]. *)
Definition sigmoid (alpha beta bonus beta2 : R) : R * R :=
  let beta2 := if Rltb beta2 0 then beta else beta2 in
  let arg := (if Rltb 0 (alpha + bonus) then beta2 else beta) * (alpha + bonus) in
  let absarg := Rabs arg in
  let ret := if Rltb 30 absarg then exp (- absarg) else 1 / (1 + exp absarg) in
  if Rltb arg 0 then (ret, 1 - ret) else (1 - ret, ret).

(** The declaration in Network.h gives [beta2] the default value [-1.0f]. *)
Definition sigmoid3 (alpha beta bonus : R) : R * R := sigmoid alpha beta bonus (-1).

(** The same function with its roundings written out, to see what survives
    of a property of [sigmoid] in machine arithmetic: [to_float] and
    [to_double] round a real result to the nearest [float] and [double],
    [exp_d] is the library's [std::exp] on doubles.  The sum and the product
    are [float] operations, [ret] is computed in [double], the pair holds
    [float(ret)] and [float(1.0 - ret)]. *)
Record Rounding := mkRounding {
  to_float : R -> R;
  to_double : R -> R;
  exp_d : R -> R
}.

Definition sigmoid_rounded (fp : Rounding) (alpha beta bonus beta2 : R) : R * R :=
  let beta2 := if Rltb beta2 0 then beta else beta2 in
  let sum := to_float fp (alpha + bonus) in
  let arg := to_float fp ((if Rltb 0 sum then beta2 else beta) * sum) in
  let absarg := Rabs arg in
  let ret := if Rltb 30 absarg then exp_d fp (- absarg)
             else to_double fp (1 / to_double fp (1 + exp_d fp absarg)) in
  if Rltb arg 0
  then (to_float fp ret, to_float fp (to_double fp (1 - ret)))
  else (to_float fp (to_double fp (1 - ret)), to_float fp ret).

(** Arithmetic without rounding: the idealisation used everywhere else. *)
Definition exact_arithmetic : Rounding := mkRounding (fun x => x) (fun x => x) exp.

(** What the statements below need of round-to-nearest and of [std::exp]:
    rounding to [float] is symmetric and within [2^-24] on the unit
    interval, rounding to [double] is monotone and within [2^-53] there,
    both leave 1/2 exact, [double] leaves 0, 1 and 2 exact; [exp] is never
    negative, is 1 at 0 and at most 1 on the non-positive numbers. *)
Record ieee_like (fp : Rounding) : Prop := mk_ieee_like {
  to_float_odd : forall x, to_float fp (- x) = - to_float fp x;
  to_float_error : forall x, 0 <= x <= 1 -> Rabs (to_float fp x - x) <= / 2 ^ 24;
  to_float_half : to_float fp (1 / 2) = 1 / 2;
  to_double_error : forall x, 0 <= x <= 1 -> Rabs (to_double fp x - x) <= / 2 ^ 53;
  to_double_mono : forall x y, x <= y -> to_double fp x <= to_double fp y;
  to_double_0 : to_double fp 0 = 0;
  to_double_half : to_double fp (1 / 2) = 1 / 2;
  to_double_1 : to_double fp 1 = 1;
  to_double_2 : to_double fp 2 = 2;
  exp_d_0 : exp_d fp 0 = 1;
  exp_d_nonneg : forall x, 0 <= exp_d fp x;
  exp_d_le_1 : forall x, x <= 0 -> exp_d fp x <= 1
}.

(** ** The format version word ([Network::load_network_file]) *)

(** The five members that the version word decides. *)
Record VersionFlags := mkVersionFlags {
  m_adv_features : bool;
  m_chainlibs_features : bool;
  m_chainsize_features : bool;
  m_quartile_encoding : bool;
  m_value_head_not_stm : bool
}.

(** What [iss >> format_version] leaves behind: the integer stored and the
    stream's fail bit. *)
Record VersionParse := mkVersionParse {
  format_version : Z;
  iss_fail : bool
}.

(** How [load_network_file] ends once the file is in the memory buffer. *)
Inductive LoadOutcome :=
| NoVersionLine                       (* [std::getline] failed: [return 1] *)
| WrongVersion                        (* "Weights file is the wrong version." *)
| Proceeds (version : Z) (code : Z).  (* [return load_v1_network(buffer, version)] *)

(** The value that [load_network_file] returns. *)
Definition return_code (o : LoadOutcome) : Z :=
  match o with
  | NoVersionLine => 1
  | WrongVersion => 1
  | Proceeds _ code => code
  end.

(** [Network::load_network_file] from "Read format version" on.  [line] is
    the first line of the buffer, if any; [load_v1_network] stands for the
    body loader, which reads the remaining lines and does not write the five
    flags. *)
Definition load_network_file (load_v1_network : Z -> Z)
    (flags : VersionFlags) (line : option VersionParse)
  : LoadOutcome * VersionFlags :=
  match line with
  | Some p =>
      let v := format_version p in
      let flags := mkVersionFlags
                     (negb (Z.land v 16 =? 0)%Z)
                     (negb (Z.land v 64 =? 0)%Z)
                     (negb (Z.land v 128 =? 0)%Z)
                     (negb (Z.land v 256 =? 0)%Z)
                     (m_value_head_not_stm flags) in
      let extra_bits := (v - Z.land v 511)%Z in
      let lz_or_elf := Z.land v 3 in
      if iss_fail p
         || (negb (lz_or_elf =? 1)%Z && negb (lz_or_elf =? 2)%Z)
         || negb (extra_bits =? 0)%Z
      then (WrongVersion, flags)
      else
        let flags := mkVersionFlags
                       (m_adv_features flags)
                       (m_chainlibs_features flags)
                       (m_chainsize_features flags)
                       (m_quartile_encoding flags)
                       (lz_or_elf =? 2)%Z in
        (Proceeds v (load_v1_network v), flags)
  | None => (NoVersionLine, flags)
  end.

(** ** Batch-norm fusion ([Network::initialize], [process_bn_var]) *)

(** [constexpr auto epsilon = 1e-5f] of [process_bn_var]. *)
Definition epsilon : R := 1 / 100000.

(** [process_bn_var]: every cell [w] becomes [1.0f / std::sqrt(w + epsilon)]. *)
Definition process_bn_var (weights : list R) : list R :=
  map (fun w => 1 / sqrt (w + epsilon)) weights.

(** Row [i] of a vector of vectors. *)
Definition at_row (l : list (list R)) (i : nat) : list R := default [] (l !! i).

(** The inner loop shared by the five fusion blocks:
    [for (j = 0; j < count; j++) { means[j] -= biases[j]; biases[j] = 0.0f; }] *)
Definition fuse_bias (count : nat) (means biases : list R) : list R * list R :=
  for_loop count
    (fun j '(means, biases) =>
       (<[j := at_idx means j - at_idx biases j]> means, <[j := 0]> biases))
    (means, biases).

(** One iteration [i] of an outer fusion loop over three parallel vectors of
    vectors; [count] is the bound that the source takes for the inner loop. *)
Definition fuse_row (count : list R -> list R -> nat) (i : nat)
    (s : list (list R) * list (list R) * list (list R))
  : list (list R) * list (list R) * list (list R) :=
  let '(means, biases, vars) := s in
  let '(means_i, biases_i) :=
    fuse_bias (count (at_row means i) (at_row biases i))
              (at_row means i) (at_row biases i) in
  (<[i := means_i]> means, <[i := biases_i]> biases,
   <[i := process_bn_var (at_row vars i)]> vars).

(** The weights bundle [ForwardPipe::ForwardPipeWeights], with the members
    that [Network.cpp] reads and writes. *)
Record ForwardPipeWeights := mkForwardPipeWeights {
  m_conv_weights : list (list R);
  m_conv_biases : list (list R);
  m_batchnorm_means : list (list R);
  m_batchnorm_stddevs : list (list R);
  m_conv_pol_w : list (list R);
  m_conv_pol_b : list (list R);
  m_bn_pol_w1 : list (list R);
  m_bn_pol_w2 : list (list R);
  m_conv_val_w : list R;
  m_conv_val_b : list R;
  m_bn_val_w1 : list R;
  m_bn_val_w2 : list R;
  m_conv_val_pool_w : list R;
  m_conv_val_pool_b : list R;
  m_bn_val_pool_w1 : list R;
  m_bn_val_pool_w2 : list R
}.

(** The value-head dense tower, kept by [Network] itself. *)
Record DenseTower := mkDenseTower {
  m_vh_dense_weights : list (list R);
  m_vh_dense_biases : list (list R);
  m_vh_dense_bn_means : list (list R);
  m_vh_dense_bn_vars : list (list R)
}.

(** The block of [Network::initialize] from "Move biases to batchnorm means"
    to the last [process_bn_var], on the bundle [*m_fwd_weights]. *)
Definition fuse_forward_weights (w : ForwardPipeWeights) : ForwardPipeWeights :=
  (* residual tower: inner bound is [m_batchnorm_means[i].size()] *)
  let '(means, biases, stddevs) :=
    for_loop (length (m_conv_biases w))
      (fuse_row (fun means_i _ => length means_i))
      (m_batchnorm_means w, m_conv_biases w, m_batchnorm_stddevs w) in
  (* value convolution: bound is [m_bn_val_w1.size()] *)
  let '(val_w1, val_b) :=
    fuse_bias (length (m_bn_val_w1 w)) (m_bn_val_w1 w) (m_conv_val_b w) in
  let val_w2 := process_bn_var (m_bn_val_w2 w) in
  (* value pooling convolution: bound is [m_bn_val_pool_w1.size()] *)
  let '(pool_w1, pool_b) :=
    fuse_bias (length (m_bn_val_pool_w1 w)) (m_bn_val_pool_w1 w)
              (m_conv_val_pool_b w) in
  let pool_w2 := process_bn_var (m_bn_val_pool_w2 w) in
  (* policy tower: inner bound is [m_conv_pol_b[i].size()] *)
  let '(pol_w1, pol_b, pol_w2) :=
    for_loop (length (m_conv_pol_b w))
      (fuse_row (fun _ biases_i => length biases_i))
      (m_bn_pol_w1 w, m_conv_pol_b w, m_bn_pol_w2 w) in
  mkForwardPipeWeights
    (m_conv_weights w) biases means stddevs
    (m_conv_pol_w w) pol_b pol_w1 pol_w2
    (m_conv_val_w w) val_b val_w1 val_w2
    (m_conv_val_pool_w w) pool_b pool_w1 pool_w2.

(** The last fusion block of [Network::initialize], on the dense tower:
    inner bound is [m_vh_dense_biases[i].size()]. *)
Definition fuse_dense_tower (t : DenseTower) : DenseTower :=
  let '(means, biases, vars) :=
    for_loop (length (m_vh_dense_biases t))
      (fuse_row (fun _ biases_i => length biases_i))
      (m_vh_dense_bn_means t, m_vh_dense_biases t, m_vh_dense_bn_vars t) in
  mkDenseTower (m_vh_dense_weights t) biases means vars.

(** The shape that [Network::store_layer] asserts for a convolution with its
    batch norm: bias, mean and variance lines of one length. *)
Definition quartet_ok (biases means vars : list R) : Prop :=
  length biases = length means /\ length vars = length means.

(** The same for a tower: as many bias, mean and variance rows, each row a
    well-shaped quartet. *)
Definition tower_ok (biases means vars : list (list R)) : Prop :=
  length biases = length means /\ length vars = length means /\
  forall i b m v,
    biases !! i = Some b -> means !! i = Some m -> vars !! i = Some v ->
    quartet_ok b m v.

(** What the specification says of one fused pair: the bias is zero in every
    channel, the mean is the old mean minus the old bias, the variance cell is
    [1/sqrt(old + 1e-5)]. *)
Definition fused (b m v b' m' v' : list R) : Prop :=
  length b' = length b /\ length m' = length m /\ length v' = length v /\
  (forall j, (j < length b)%nat -> b' !! j = Some 0) /\
  (forall j x y, m !! j = Some x -> b !! j = Some y -> m' !! j = Some (x - y)) /\
  (forall j x, v !! j = Some x -> v' !! j = Some (1 / sqrt (x + 1 / 100000))).

(** Every row of a tower is fused. *)
Definition tower_fused (biases means vars biases' means' vars' : list (list R)) : Prop :=
  length biases' = length biases /\
  forall i b m v,
    biases !! i = Some b -> means !! i = Some m -> vars !! i = Some v ->
    exists b' m' v',
      biases' !! i = Some b' /\ means' !! i = Some m' /\ vars' !! i = Some v' /\
      fused b m v b' m' v'.

(** ** Evaluation results, game states, configuration *)

(** [FastBoard::BLACK] and [FastBoard::WHITE], the two values that
    [get_to_move] returns. *)
Inductive Color := BLACK | WHITE.

(** [a == b] on colours. *)
Definition Color_eqb (a b : Color) : bool :=
  match a, b with
  | BLACK, BLACK | WHITE, WHITE => true
  | _, _ => false
  end.

(** [NNCache::Netresult]. *)
Record Netresult := mkNetresult {
  policy : list R;        (* [std::array<float, NUM_INTERSECTIONS>] *)
  policy_pass : R;
  value : R;
  alpha : R;
  beta : R;
  beta2 : R;
  is_sai : bool
}.

(** A [SearchResult] ([UCTSearch.h]) as [UCTNode::update] sees it: the
    answers of [is_sai_head()], [eval()] and [eval_with_bonus(xbar, xbase)]. *)
Record SearchResult := mkSearchResult {
  is_sai_head : bool;
  eval : R;
  eval_with_bonus : R -> R -> R
}.

(** What [Network.cpp] and [UCTNode.cpp] take from outside themselves:
    compile-time constants, configuration globals ([GTP.h]), the value of a
    default-constructed [Netresult] ([NNCache.h]), the constructor
    [SearchResult::from_eval] ([UCTSearch.h]), and the draws of the random
    generator ([Random.h]) in the order in which they are made. *)
Record Env := mkEnv {
  BOARD_SIZE : Z;
  PASS : Z;                          (* [FastBoard::PASS] *)
  Netresult_default : Netresult;     (* [Netresult result;] *)
  cfg_noise : bool;
  cfg_random_cnt : Z;
  cfg_use_nncache : bool;
  cfg_dumbpass : bool;
  cfg_exploit_symmetries : bool;
  cfg_symm_nonrandom : bool;
  cfg_policy_temp : R;
  cfg_lambda : Z -> R;
  cfg_mu : Z -> R;
  from_eval : R -> R -> R -> R -> bool -> SearchResult;
  randfix_draws : nat -> Z;          (* [Random::get_Rng().randfix<8>()] *)
  unif_law_draws : nat -> R          (* [unif_law(Random::get_Rng())] *)
}.

(** [NUM_INTERSECTIONS], as a loop bound. *)
Definition NUM_INTERSECTIONS (E : Env) : nat := Z.to_nat (BOARD_SIZE E * BOARD_SIZE E).

(** [Network::NUM_SYMMETRIES] and [Network::IDENTITY_SYMMETRY]. *)
Definition NUM_SYMMETRIES : nat := 8.
Definition IDENTITY_SYMMETRY : Z := 0.

(** The queries that the two files make on a [GameState] (and on its board
    and time control), as a record of their answers. *)
Record GameState := mkGameState {
  get_boardsize : Z;                  (* [state->board.get_boardsize()] *)
  get_hash : Z;                       (* [state->board.get_hash()] *)
  get_symmetry_hash : Z -> Z;
  get_movenum : Z;
  opening_moves : Z -> Z;             (* [get_timecontrol().opening_moves(n)] *)
  get_to_move : Color;
  get_komi_adj : R;
  get_passes : Z;
  get_alpkt : R -> R;
  is_symmetry_invariant : Z -> bool;
  get_vertex : Z -> Z;                (* [board.get_vertex(i)] *)
  is_move_legal : Color -> Z -> bool;
  get_sym_move : Z -> Z -> Z;
  get_index : Z -> Z;
  get_xy : Z -> Z * Z;
  final_score : R;
  is_cpu_color : bool
}.

(** [Network::Ensemble]. *)
Inductive Ensemble := DIRECT | RANDOM_SYMMETRY | AVERAGE.

(** [e == AVERAGE]. *)
Definition is_average (e : Ensemble) : bool :=
  match e with AVERAGE => true | _ => false end.

(** The members of [Network] that evaluation reads.  [forward_result state
    symmetry] is the [Netresult] that [get_output_internal] computes
    (features, forward pass, heads, softmax, rotation) when the backend
    answers. *)
Record Network := mkNetwork {
  version_flags : VersionFlags;       (* set by [load_network_file] *)
  m_value_head_sai : bool;
  forward_result : GameState -> Z -> Netresult
}.

(** ** The evaluation cache *)

Module NNCache.

(** Modelled from the spec: [NNCache] ([NNCache.h], [NNCache.cpp]) is not
    among the sources.  Section 4.2 describes "a bounded mapping from 64-bit
    board hash to [Netresult], with LRU eviction", kept as "an ordered list
    + hash index", whose inserts "overwrite any prior single-symmetry
    entry".  [m_cache] is the index and [m_order] the list, from the entry
    that leaves next to the one written last.  A lookup is a read here: that
    it also renews the place of the entry found in the list is not
    modelled, and no statement depends on which other entry leaves.  (The
    comment at the call of [insert] in [Network::get_output] speaks of the
    cache being updated "unless of course it already contained that board
    state"; the model follows Section 4.2.) *)
Record t := mk {
  m_size : nat;
  m_cache : gmap Z Netresult;
  m_order : list Z
}.

(** [lookup(hash, result)]: the entry, if there is one. *)
Definition lookup (hash : Z) (c : t) : option Netresult := m_cache c !! hash.

(** [insert(hash, result)]: the entry is written over whatever the hash held
    and becomes the last to leave; when the list is longer than the bound
    afterwards, its first entry leaves. *)
Definition insert (hash : Z) (r : Netresult) (c : t) : t :=
  let cache := <[hash := r]> (m_cache c) in
  let order :=
    List.filter (fun h => negb (h =? hash)%Z) (m_order c) ++ [hash] in
  if (m_size c <? length order)%nat
  then match order with
       | oldest :: order' => mk (m_size c) (delete oldest cache) order'
       | [] => mk (m_size c) cache order
       end
  else mk (m_size c) cache order.

End NNCache.

(** ** Calls that can be halted *)

(** The calls that leave [Network]: cache probes, cache insertions and
    requests to the forward backend.  They are logged so that "is not
    called" can be stated. *)
Inductive Event :=
| EvLookup (hash : Z)
| EvInsert (hash : Z) (r : Netresult)
| EvForward (symmetry : Z).

(** The mutable surroundings of an evaluation: the cache [m_nncache], whether
    the backend is drained ([drain_evals] / [resume_evals]), how many random
    draws have been made, and the log. *)
Record World := mkWorld {
  m_nncache : NNCache.t;
  draining : bool;
  rng : nat;
  trace : list Event
}.

(** A call returns normally or raises [NetworkHaltException]. *)
Inductive Result (A : Type) :=
| Ok (a : A)
| Halt.
Arguments Ok {A} a.
Arguments Halt {A}.

(** Computations over the world that may raise the halt exception. *)
Definition M (A : Type) : Type := World -> Result A * World.

(** [return a]. *)
Definition ret {A : Type} (a : A) : M A := fun w => (Ok a, w).

(** Sequencing: an exception raised by [c] skips [f]. *)
Definition bind {A B : Type} (c : M A) (f : A -> M B) : M B :=
  fun w =>
    match c w with
    | (Ok a, w') => f a w'
    | (Halt, w') => (Halt, w')
    end.

Notation "x <- c ;; k" := (bind c (fun x => k))
  (at level 100, c at next level, right associativity).

(** Append an event to the log. *)
Definition log (e : Event) : M unit :=
  fun w => (Ok tt, mkWorld (m_nncache w) (draining w) (rng w) (trace w ++ [e])).

(** [m_nncache.lookup(hash, result)]. *)
Definition cache_lookup (hash : Z) : M (option Netresult) :=
  _ <- log (EvLookup hash) ;;
  fun w => (Ok (NNCache.lookup hash (m_nncache w)), w).

(** [m_nncache.insert(hash, result)]. *)
Definition cache_insert (hash : Z) (r : Netresult) : M unit :=
  _ <- log (EvInsert hash r) ;;
  fun w => (Ok tt, mkWorld (NNCache.insert hash r (m_nncache w))
                           (draining w) (rng w) (trace w)).

(** [Random::get_Rng().randfix<NUM_SYMMETRIES>()]. *)
Definition randfix (E : Env) : M Z :=
  fun w => (Ok (randfix_draws E (rng w)),
            mkWorld (m_nncache w) (draining w) (S (rng w)) (trace w)).

(** [unif_law(Random::get_Rng())]. *)
Definition unif_law (E : Env) : M R :=
  fun w => (Ok (unif_law_draws E (rng w)),
            mkWorld (m_nncache w) (draining w) (S (rng w)) (trace w)).

(** [Network::drain_evals] and [Network::resume_evals]. *)
Definition drain_evals (w : World) : World :=
  mkWorld (m_nncache w) true (rng w) (trace w).
Definition resume_evals (w : World) : World :=
  mkWorld (m_nncache w) false (rng w) (trace w).

(** [Network::get_output_internal]: a request to the backend, which raises
    [NetworkHaltException] while it is drained (comment at [drain_evals] in
    Network.h) and otherwise yields the evaluation. *)
Definition get_output_internal (net : Network) (state : GameState)
    (symmetry : Z) : M Netresult :=
  _ <- log (EvForward symmetry) ;;
  fun w => if draining w then (Halt, w)
           else (Ok (forward_result net state symmetry), w).

(** ** Symmetries ([Network::get_symmetry], the table of [initialize]) *)

(** [Network::get_symmetry(vertex, symmetry, board_size)]. *)
Definition get_symmetry (vertex : Z * Z) (symmetry board_size : Z) : Z * Z :=
  let '(x, y) := vertex in
  let '(x, y) := if negb (Z.land symmetry 4 =? 0)%Z then (y, x) else (x, y) in
  let x := if negb (Z.land symmetry 2 =? 0)%Z then (board_size - x - 1)%Z else x in
  let y := if negb (Z.land symmetry 1 =? 0)%Z then (board_size - y - 1)%Z else y in
  (x, y).

(** [symmetry_nn_idx_table[s][v]] as [Network::initialize] fills it. *)
Definition symmetry_nn_idx_table (E : Env) (s v : Z) : Z :=
  let newvtx :=
    get_symmetry (Z.rem v (BOARD_SIZE E), Z.quot v (BOARD_SIZE E)) s (BOARD_SIZE E) in
  (snd newvtx * BOARD_SIZE E + fst newvtx)%Z.

(** ** [Network::get_sai_winrate], [probe_cache], [get_output] *)

(** Overwrite the [value] member. *)
Definition set_value (r : Netresult) (v : R) : Netresult :=
  mkNetresult (policy r) (policy_pass r) v (alpha r) (beta r) (beta2 r) (is_sai r).

(** Overwrite the [policy] member. *)
Definition set_policy (r : Netresult) (p : list R) : Netresult :=
  mkNetresult p (policy_pass r) (value r) (alpha r) (beta r) (beta2 r) (is_sai r).

(** [Network::get_sai_winrate(result, state)], as the updated [result]. *)
Definition get_sai_winrate (result : Netresult) (state : GameState) : Netresult :=
  let komi := get_komi_adj state in
  let white := Color_eqb WHITE (get_to_move state) in
  set_value result
    (fst (sigmoid (alpha result) (beta result)
                  (if white then komi else - komi) (beta2 result))).

(** The policy that [probe_cache] builds on a hit under symmetry [sym]:
    [corrected_policy[idx] = result.policy[symmetry_nn_idx_table[sym][idx]]]. *)
Definition corrected_policy (E : Env) (sym : Z) (cached : list R) : list R :=
  for_loop (NUM_INTERSECTIONS E)
    (fun idx corrected =>
       let sym_idx := symmetry_nn_idx_table E sym (Z.of_nat idx) in
       <[idx := at_idx cached (Z.to_nat sym_idx)]> corrected)
    (replicate (NUM_INTERSECTIONS E) 0).

(** The loop of [probe_cache] over the symmetries still to try: the identity
    is skipped ([continue]), the first hit ends the loop ([break]) with the
    entry found, its policy corrected. *)
Fixpoint probe_symmetries (E : Env) (state : GameState) (syms : list Z)
    (result : Netresult) : M (bool * Netresult) :=
  match syms with
  | [] => ret (false, result)
  | sym :: rest =>
      if (sym =? IDENTITY_SYMMETRY)%Z then probe_symmetries E state rest result
      else
        found <- cache_lookup (get_symmetry_hash state sym) ;;
        match found with
        | Some entry =>
            ret (true, set_policy entry (corrected_policy E sym (policy entry)))
        | None => probe_symmetries E state rest result
        end
  end.

(** The symmetries [0 .. NUM_SYMMETRIES-1] in loop order. *)
Definition all_symmetries : list Z := map Z.of_nat (seq 0 NUM_SYMMETRIES).

(** The guard of the symmetry loop in [probe_cache], without the
    [!cache_success] conjunct. *)
Definition early_opening (E : Env) (state : GameState) : bool :=
  negb (cfg_noise E) && (cfg_random_cnt E =? 0)%Z
  && (get_movenum state <? Z.quot (opening_moves state (BOARD_SIZE E)) 2)%Z.

(** [Network::probe_cache(state, result)]: the boolean returned and the
    [result] left behind. *)
Definition probe_cache (E : Env) (state : GameState) (result : Netresult)
  : M (bool * Netresult) :=
  own <- cache_lookup (get_hash state) ;;
  let cache_success := bool_decide (is_Some own) in
  let result := default result own in
  probed <-
    (if negb cache_success && early_opening E state
     then probe_symmetries E state all_symmetries result
     else ret (cache_success, result)) ;;
  let '(cache_success, result) := probed in
  let result := if cache_success && is_sai result
                then get_sai_winrate result state else result in
  ret (cache_success, result).

(** One round of the [AVERAGE] loop of [get_output]: an eighth of every
    number of [tmpresult] is added to [result]. *)
Definition accumulate (E : Env) (result tmpresult : Netresult) : Netresult :=
  let n := INR NUM_SYMMETRIES in
  mkNetresult
    (for_loop (NUM_INTERSECTIONS E)
       (fun idx p => <[idx := at_idx p idx + at_idx (policy tmpresult) idx / n]> p)
       (policy result))
    (policy_pass result + policy_pass tmpresult / n)
    (value result + value tmpresult / n)
    (alpha result + alpha tmpresult / n)
    (beta result + beta tmpresult / n)
    (beta2 result + beta2 tmpresult / n)
    (is_sai tmpresult).

(** The [AVERAGE] loop over the symmetries still to run. *)
Fixpoint average_loop (E : Env) (net : Network) (state : GameState)
    (syms : list Z) (result : Netresult) : M Netresult :=
  match syms with
  | [] => ret result
  | sym :: rest =>
      tmpresult <- get_output_internal net state sym ;;
      average_loop E net state rest (accumulate E result tmpresult)
  end.

(** [Network::get_output] from [if (ensemble == DIRECT)] to its end: the
    evaluation by the network, the flip of an ELF value, the insertion into
    the cache.  [result] is the [Netresult] that the averaging starts from.
    This is a build without the OpenCL self-check. *)
Definition evaluate (E : Env) (net : Network) (state : GameState)
    (ensemble : Ensemble) (symmetry : Z) (write_cache : bool)
    (result : Netresult) : M Netresult :=
  result <-
    match ensemble with
    | DIRECT => get_output_internal net state symmetry
    | AVERAGE => average_loop E net state all_symmetries result
    | RANDOM_SYMMETRY =>
        rand_sym <- randfix E ;;
        get_output_internal net state rand_sym
    end ;;
  (* v2 format (ELF Open Go) returns black value, not stm *)
  let result :=
    if m_value_head_not_stm (version_flags net)
       && Color_eqb (get_to_move state) WHITE
    then set_value result (1 - value result) else result in
  _ <- (if write_cache then cache_insert (get_hash state) result
        else ret tt) ;;
  ret result.

(** [Network::get_output(state, ensemble, symmetry, read_cache, write_cache)]. *)
Definition get_output (E : Env) (net : Network) (state : GameState)
    (ensemble : Ensemble) (symmetry : Z) (read_cache write_cache : bool)
  : M Netresult :=
  let result := Netresult_default E in
  if negb (get_boardsize state =? BOARD_SIZE E)%Z then ret result
  else
    probed <-
      (if read_cache && negb (is_average ensemble)
       then probe_cache E state result
       else ret (false, result)) ;;
    let '(hit, result) := probed in
    if hit then ret result
    else evaluate E net state ensemble symmetry write_cache result.

(** ** The search node ([UCTNode]) *)

(** [UCTNode::ExpandState]. *)
Inductive ExpandState := INITIAL | EXPANDING | EXPANDED.

(** [a == b] on expansion states. *)
Definition ExpandState_eqb (a b : ExpandState) : bool :=
  match a, b with
  | INITIAL, INITIAL | EXPANDING, EXPANDING | EXPANDED, EXPANDED => true
  | _, _ => false
  end.

(** One quantile tracker: [m_quantile_x], [m_gxgp_sum_x], [m_gp_sum_x] for
    [x] among [lambda], [mu], [one]. *)
Record Tracker := mkTracker {
  m_quantile : R;
  m_gxgp_sum : R;
  m_gp_sum : R
}.

(** The data members of [UCTNode] that [UCTNode.cpp] reads and writes in
    expansion, backup and quantile updates, plus the answers of the two
    getters [get_father_quantile_lambda] / [get_father_quantile_mu] of the
    header.  A child in [m_children] is the pair (move, policy) that
    [emplace_back] is given. *)
Record UCTNode := mkUCTNode {
  m_move : Z;
  m_policy : R;
  m_visits : Z;
  m_virtual_loss : Z;
  m_forced : Z;
  m_blackevals : R;
  m_squared_eval_diff : R;
  m_pi_sum : R;
  m_net_pi : R;
  m_net_alpkt : R;
  m_net_beta : R;
  m_net_beta2 : R;
  tracker_lambda : Tracker;
  tracker_mu : Tracker;
  tracker_one : Tracker;
  m_quantile_updates : Z;
  m_lambda : R;
  m_mu : R;
  m_expand_state : ExpandState;
  m_min_psa_ratio_children : R;
  m_children : list (Z * R);
  get_father_quantile_lambda : R;
  get_father_quantile_mu : R
}.

(** [Network::PolicyVertexPair]. *)
Definition PolicyVertexPair : Type := R * Z.

(** The out-parameters [value], [alpkt], [beta], [beta2] of
    [create_children]. *)
Record Evals := mkEvals {
  out_value : R;
  out_alpkt : R;
  out_beta : R;
  out_beta2 : R
}.

(** Replace the expansion state. *)
Definition set_expand_state (n : UCTNode) (s : ExpandState) : UCTNode :=
  mkUCTNode (m_move n) (m_policy n) (m_visits n) (m_virtual_loss n) (m_forced n)
    (m_blackevals n) (m_squared_eval_diff n) (m_pi_sum n)
    (m_net_pi n) (m_net_alpkt n) (m_net_beta n) (m_net_beta2 n)
    (tracker_lambda n) (tracker_mu n) (tracker_one n) (m_quantile_updates n)
    (m_lambda n) (m_mu n) s (m_min_psa_ratio_children n) (m_children n)
    (get_father_quantile_lambda n) (get_father_quantile_mu n).

(** Replace the stored network evaluation. *)
Definition set_net_eval (n : UCTNode) (pi alpkt beta beta2 : R) : UCTNode :=
  mkUCTNode (m_move n) (m_policy n) (m_visits n) (m_virtual_loss n) (m_forced n)
    (m_blackevals n) (m_squared_eval_diff n) (m_pi_sum n)
    pi alpkt beta beta2
    (tracker_lambda n) (tracker_mu n) (tracker_one n) (m_quantile_updates n)
    (m_lambda n) (m_mu n) (m_expand_state n) (m_min_psa_ratio_children n)
    (m_children n) (get_father_quantile_lambda n) (get_father_quantile_mu n).

(** Replace the children and the ratio they were cut at. *)
Definition set_children (n : UCTNode) (children : list (Z * R)) (ratio : R) : UCTNode :=
  mkUCTNode (m_move n) (m_policy n) (m_visits n) (m_virtual_loss n) (m_forced n)
    (m_blackevals n) (m_squared_eval_diff n) (m_pi_sum n)
    (m_net_pi n) (m_net_alpkt n) (m_net_beta n) (m_net_beta2 n)
    (tracker_lambda n) (tracker_mu n) (tracker_one n) (m_quantile_updates n)
    (m_lambda n) (m_mu n) (m_expand_state n) ratio children
    (get_father_quantile_lambda n) (get_father_quantile_mu n).

(** Replace the backup statistics. *)
Definition set_stats (n : UCTNode) (visits forced : Z)
    (blackevals squared_eval_diff pi_sum : R) : UCTNode :=
  mkUCTNode (m_move n) (m_policy n) visits (m_virtual_loss n) forced
    blackevals squared_eval_diff pi_sum
    (m_net_pi n) (m_net_alpkt n) (m_net_beta n) (m_net_beta2 n)
    (tracker_lambda n) (tracker_mu n) (tracker_one n) (m_quantile_updates n)
    (m_lambda n) (m_mu n) (m_expand_state n) (m_min_psa_ratio_children n)
    (m_children n) (get_father_quantile_lambda n) (get_father_quantile_mu n).

(** Replace the mixing weights. *)
Definition set_mixing (n : UCTNode) (lambda mu : R) : UCTNode :=
  mkUCTNode (m_move n) (m_policy n) (m_visits n) (m_virtual_loss n) (m_forced n)
    (m_blackevals n) (m_squared_eval_diff n) (m_pi_sum n)
    (m_net_pi n) (m_net_alpkt n) (m_net_beta n) (m_net_beta2 n)
    (tracker_lambda n) (tracker_mu n) (tracker_one n) (m_quantile_updates n)
    lambda mu (m_expand_state n) (m_min_psa_ratio_children n)
    (m_children n) (get_father_quantile_lambda n) (get_father_quantile_mu n).

(** Replace the three trackers and their update count. *)
Definition set_trackers (n : UCTNode) (tl tm t1 : Tracker) (updates : Z) : UCTNode :=
  mkUCTNode (m_move n) (m_policy n) (m_visits n) (m_virtual_loss n) (m_forced n)
    (m_blackevals n) (m_squared_eval_diff n) (m_pi_sum n)
    (m_net_pi n) (m_net_alpkt n) (m_net_beta n) (m_net_beta2 n)
    tl tm t1 updates
    (m_lambda n) (m_mu n) (m_expand_state n) (m_min_psa_ratio_children n)
    (m_children n) (get_father_quantile_lambda n) (get_father_quantile_mu n).

(** [UCTNode::acquire_expanding]: the compare-and-exchange from [INITIAL] to
    [EXPANDING], as seen by the one thread that runs it. *)
Definition acquire_expanding (n : UCTNode) : bool * UCTNode :=
  if ExpandState_eqb (m_expand_state n) INITIAL
  then (true, set_expand_state n EXPANDING)
  else (false, n).

(** [UCTNode::expand_done] and [UCTNode::expand_cancel]. *)
Definition expand_done (n : UCTNode) : UCTNode := set_expand_state n EXPANDED.
Definition expand_cancel (n : UCTNode) : UCTNode := set_expand_state n INITIAL.

(** [UCTNode::expandable(min_psa_ratio)]. *)
Definition expandable (n : UCTNode) (min_psa_ratio : R) : bool :=
  Rltb min_psa_ratio (m_min_psa_ratio_children n).

(** ** Backup and quantile trackers *)

(** [UCTNode::update(result, forced)]: the evaluation returned and the node
    after the backup. *)
Definition update (n : UCTNode) (result : SearchResult) (forced : bool) : R * UCTNode :=
  let ev := if is_sai_head result
            then eval_with_bonus result (get_father_quantile_lambda n)
                                        (get_father_quantile_mu n)
            else eval result in
  let old_eval := m_blackevals n in
  let old_visits := m_visits n in
  let old_delta := if (0 <? old_visits)%Z then ev - old_eval / IZR old_visits else 0 in
  let new_delta := ev - (old_eval + ev) / IZR (old_visits + 1) in
  let delta := old_delta * new_delta in
  (ev, set_stats n (m_visits n + 1)%Z
                   (if forced then (m_forced n + 1)%Z else m_forced n)
                   (m_blackevals n + ev)
                   (m_squared_eval_diff n + delta)
                   (m_pi_sum n + eval result)).

(** [UCTNode::update_gxx_sums] on one tracker. *)
Definition update_gxx_sums (t : Tracker) (old_quantile new_alpkt new_beta new_beta2 : R)
  : Tracker :=
  let g_func := sigmoid new_alpkt new_beta old_quantile new_beta2 in
  let right_beta := if Rltb 0 new_beta2 && Rltb 0 (new_alpkt + old_quantile)
                    then new_beta2 else new_beta in
  let gp_term := right_beta * fst g_func * snd g_func in
  let gxgp_term := fst g_func - old_quantile * gp_term in
  mkTracker (m_quantile t) (m_gxgp_sum t + gxgp_term) (m_gp_sum t + gp_term).

(** [UCTNode::update_quantile]: the value of [old_quantile] when the call
    returns. *)
Definition update_quantile (old_quantile old_gxgp_sum old_gp_sum parameter : R)
    (new_visits : Z) (avg_pi new_alpkt new_beta new_beta2 : R) : R :=
  if Rltb (Rabs parameter) (1 / 100000) then 0
  else if (new_visits <=? 0)%Z then old_quantile   (* should never happen *)
  else
    let avg_p := 1 / 2 * parameter + (1 - parameter) * avg_pi in
    if (new_visits <=? 8)%Z && Reqb old_quantile 0 then
      let right_beta := if Rltb 0 new_beta2 && Rltb (1 / 2) avg_p
                        then new_beta2 else new_beta in
      (ln avg_p - ln (1 + - avg_p)) / Rmax (1 / 100) right_beta - new_alpkt
    else
      let avg_f_prime := old_gp_sum / IZR new_visits in
      let avg_f := old_gxgp_sum / IZR new_visits + old_quantile * avg_f_prime in
      let delta := (avg_p - avg_f) / Rmax (1 / 10) avg_f_prime in
      old_quantile + delta.

(** [UCTNode::get_avg_pi(tomove)]. *)
Definition get_avg_pi (n : UCTNode) (tomove : Color) : R :=
  let visits := IZR (m_visits n) in
  let avg_pi := if Rltb (1 / 2) visits then m_pi_sum n / visits else 1 / 2 in
  if Color_eqb tomove WHITE then 1 - avg_pi else avg_pi.

(** [UCTNode::get_raw_eval(tomove, virtual_loss)]. *)
Definition get_raw_eval (n : UCTNode) (tomove : Color) (virtual_loss : Z) : R :=
  let visits := (m_visits n + virtual_loss)%Z in
  let blackeval := if Color_eqb tomove WHITE
                   then m_blackevals n + IZR virtual_loss else m_blackevals n in
  let ev := blackeval / IZR visits in
  if Color_eqb tomove WHITE then 1 - ev else ev.

(** One tracker's step in [update_all_quantiles]: its sums first, then its
    quantile with the sums just written. *)
Definition update_tracker (t : Tracker) (parameter : R) (new_visits : Z)
    (avg_pi new_alpkt new_beta new_beta2 : R) : Tracker :=
  let old_q := m_quantile t in
  let t := update_gxx_sums t old_q new_alpkt new_beta new_beta2 in
  mkTracker
    (update_quantile (m_quantile t) (m_gxgp_sum t) (m_gp_sum t) parameter
                     new_visits avg_pi new_alpkt new_beta new_beta2)
    (m_gxgp_sum t) (m_gp_sum t).

(** [UCTNode::update_all_quantiles]; [get_avg_pi()] is called with the
    header's default colour, black, and [get_lambda()] / [get_mu()] read
    [m_lambda] / [m_mu]. *)
Definition update_all_quantiles (n : UCTNode) (new_alpkt new_beta new_beta2 : R) : UCTNode :=
  let avg_pi := get_avg_pi n BLACK in
  let new_visits := (m_quantile_updates n + 1)%Z in
  set_trackers n
    (update_tracker (tracker_lambda n) (m_lambda n) new_visits avg_pi
                    new_alpkt new_beta new_beta2)
    (update_tracker (tracker_mu n) (m_mu n) new_visits avg_pi
                    new_alpkt new_beta new_beta2)
    (update_tracker (tracker_one n) 1 new_visits avg_pi
                    new_alpkt new_beta new_beta2)
    new_visits.

(** [UCTNode::set_lambda_mu(state)]; [get_raw_eval] is called with the
    header's default virtual loss, 0. *)
Definition set_lambda_mu (E : Env) (n : UCTNode) (state : GameState) : UCTNode :=
  let i := if negb (is_cpu_color state) then 2%Z else 0%Z in
  let i := if Rltb (get_raw_eval n (get_to_move state) 0) (1 / 2)
           then (i + 1)%Z else i in
  set_mixing n (cfg_lambda E i) (cfg_mu E i).

(** ** Expansion ([UCTNode::create_children], [link_nodelist]) *)

(** [std::pow] on a non-negative base (policy mass) with a positive
    exponent. *)
Definition powf (x y : R) : R := if Rltb 0 x then Rpower x y else 0.

(** [std::numeric_limits<float>::min()], the least positive normal float. *)
Definition FLT_MIN : R := / (2 ^ 126).

(** [operator<] of [std::pair<float, int>]. *)
Definition pair_lt (a b : PolicyVertexPair) : bool :=
  Rltb (fst a) (fst b) || (negb (Rltb (fst b) (fst a)) && (snd a <? snd b)%Z).

(** Stable insertion into an ascending list. *)
Fixpoint insert_sorted (x : PolicyVertexPair) (l : list PolicyVertexPair)
  : list PolicyVertexPair :=
  match l with
  | [] => [x]
  | y :: l' => if pair_lt y x then y :: insert_sorted x l' else x :: y :: l'
  end.

(** [std::stable_sort(begin, end)]. *)
Definition stable_sort (l : list PolicyVertexPair) : list PolicyVertexPair :=
  foldr insert_sorted [] l.

(** [std::stable_sort(rbegin(nodelist), rend(nodelist))]: best first. *)
Definition sort_best_first (nodelist : list PolicyVertexPair) : list PolicyVertexPair :=
  rev (stable_sort (rev nodelist)).

(** [UCTNode::link_nodelist(nodecount, nodelist, min_psa_ratio)]. *)
Definition link_nodelist (n : UCTNode) (nodecount : Z)
    (nodelist : list PolicyVertexPair) (min_psa_ratio : R) : UCTNode * Z :=
  match sort_best_first nodelist with
  | [] => (n, nodecount)
  | (best :: _) as sorted =>
      let max_psa := fst best in
      let old_min_psa := max_psa * m_min_psa_ratio_children n in
      let new_min_psa := max_psa * min_psa_ratio in
      let '(children, nodecount, skipped_children) :=
        foldl (fun '(children, nodecount, skipped) node =>
                 if Rltb (fst node) new_min_psa then (children, nodecount, true)
                 else if Rltb (fst node) old_min_psa
                      then (children ++ [(snd node, fst node)], (nodecount + 1)%Z, skipped)
                      else (children, nodecount, skipped))
              (m_children n, nodecount, false) sorted in
      (set_children n children (if skipped_children then min_psa_ratio else 0),
       nodecount)
  end.

(** [stabilizer_subgroup] as [create_children] collects it. *)
Definition stabilizer_subgroup (E : Env) (state : GameState) : list Z :=
  List.filter (fun i => (i =? 0)%Z
                   || (cfg_exploit_symmetries E && is_symmetry_invariant state i))
         all_symmetries.

(** Read cell [i] of [taken_already]. *)
Definition taken (taken_already : list bool) (i : nat) : bool :=
  default false (taken_already !! i).

(** The loop [for (auto sym : stabilizer_subgroup)] for one vertex, on
    ([taken_already], [taken_policy], [max_u], [chosen_vertex]). *)
Fixpoint fold_stabilizer (E : Env) (state : GameState) (raw_netlist : Netresult)
    (vertex : Z) (syms : list Z) (acc : list bool * R * R * Z)
  : M (list bool * R * R * Z) :=
  match syms with
  | [] => ret acc
  | sym :: rest =>
      let '(taken_already, taken_policy, max_u, chosen_vertex) := acc in
      let j_vertex := get_sym_move state vertex sym in
      let j := Z.to_nat (get_index state j_vertex) in
      if negb (taken taken_already j) then
        let taken_already := <[j := true]> taken_already in
        let taken_policy := taken_policy + at_idx (policy raw_netlist) j in
        u <- (if cfg_symm_nonrandom E
              then let p := get_xy state j_vertex in
                   ret (IZR (fst p) + 2001 / 1000 * IZR (snd p))
              else unif_law E) ;;
        (* if (u > max_u) { max_u = u; chosen_vertex = j_vertex; } *)
        fold_stabilizer E state raw_netlist vertex rest
          (taken_already, taken_policy,
           (if Rltb max_u u then u else max_u),
           (if Rltb max_u u then j_vertex else chosen_vertex))
      else fold_stabilizer E state raw_netlist vertex rest acc
  end.

(** The loop [for (i = 0; i < NUM_INTERSECTIONS; i++)] of [create_children]
    over the intersections still to visit, on ([taken_already], [nodelist],
    [legal_sum]). *)
Fixpoint board_moves (E : Env) (state : GameState) (raw_netlist : Netresult)
    (intersections : list nat)
    (acc : list bool * list PolicyVertexPair * R)
  : M (list bool * list PolicyVertexPair * R) :=
  match intersections with
  | [] => ret acc
  | i :: rest =>
      let '(taken_already, nodelist, legal_sum) := acc in
      let vertex := get_vertex state (Z.of_nat i) in
      if is_move_legal state (get_to_move state) vertex
         && negb (taken taken_already i)
      then
        folded <- fold_stabilizer E state raw_netlist vertex
                    (stabilizer_subgroup E state)
                    (taken_already, 0, 0, vertex) ;;
        let '(taken_already, taken_policy, _, chosen_vertex) := folded in
        let warm_policy := powf taken_policy (1 / cfg_policy_temp E) in
        board_moves E state raw_netlist rest
          (taken_already, nodelist ++ [(warm_policy, chosen_vertex)],
           legal_sum + warm_policy)
      else board_moves E state raw_netlist rest acc
  end.

(** The literal [0.8f]: the [float] nearest to 0.8, which is
    [13421773 / 2^24], a little above 0.8. *)
Definition float_0_8 : R := 13421773 / 16777216.

(** The value of [allow_pass] when [create_children] reaches
    [if (allow_pass)], given the board moves in [nodelist]. *)
Definition allow_pass (E : Env) (state : GameState) (stm_eval : R)
    (nodelist : list PolicyVertexPair) : bool :=
  (* Always try passes if we're not trying to be clever. *)
  let allow_pass := cfg_dumbpass E in
  (* Less than 20 available intersections in a 19x19 game. *)
  let allow_pass :=
    if (Z.of_nat (length nodelist) <=? Z.max 5 (BOARD_SIZE E))%Z
    then true else allow_pass in
  (* only try passing if we're winning on the net score and on the board *)
  if negb allow_pass && Rltb float_0_8 stm_eval then
    let relative_score :=
      (if Color_eqb (get_to_move state) BLACK then 1 else -1) * final_score state in
    if Rleb 0 relative_score then true else allow_pass
  else allow_pass.

(** [create_children] from [std::vector<int> stabilizer_subgroup] to the end
    of [if (allow_pass)]: the move list and [legal_sum]. *)
Definition collect_moves (E : Env) (state : GameState) (raw_netlist : Netresult)
  : M (list PolicyVertexPair * R) :=
  collected <- board_moves E state raw_netlist (seq 0 (NUM_INTERSECTIONS E))
                 (replicate (NUM_INTERSECTIONS E) false, [], 0) ;;
  let '(_, nodelist, legal_sum) := collected in
  if allow_pass E state (value raw_netlist) nodelist then
    let warm_pass_policy := powf (policy_pass raw_netlist) (1 / cfg_policy_temp E) in
    ret (nodelist ++ [(warm_pass_policy, PASS E)], legal_sum + warm_pass_policy)
  else ret (nodelist, legal_sum).

(** Renormalisation of the move list at the end of [create_children]. *)
Definition normalise (nodelist : list PolicyVertexPair) (legal_sum : R)
  : list PolicyVertexPair :=
  if Rltb FLT_MIN legal_sum
  then map (fun node => (fst node / legal_sum, snd node)) nodelist
  else
    (* This can happen with new randomized nets. *)
    let uniform_prob := 1 / INR (length nodelist) in
    map (fun node => (uniform_prob, snd node)) nodelist.

(** [create_children] after the move list is complete: link the children,
    back up one visit, update the quantiles of a SAI network, finish the
    expansion. *)
Definition finish_expansion (E : Env) (net : Network) (state : GameState)
    (min_psa_ratio : R) (n : UCTNode) (nodecount : Z) (outs : Evals)
    (nodelist : list PolicyVertexPair) (legal_sum : R) : UCTNode * Z :=
  let '(n, nodecount) :=
    link_nodelist n nodecount (normalise nodelist legal_sum) min_psa_ratio in
  let result := from_eval E (out_value outs) (out_alpkt outs) (out_beta outs)
                          (out_beta2 outs) (m_value_head_sai net) in
  let n := snd (update n result false) in
  let n := if m_value_head_sai net
           then update_all_quantiles (set_lambda_mu E n state)
                  (out_alpkt outs) (out_beta outs) (out_beta2 outs)
           else n in
  (expand_done n, nodecount).

(** The evaluation that [create_children] stores in the node and in its
    out-parameters, from the network's answer. *)
Definition store_evaluation (net : Network) (state : GameState)
    (raw_netlist : Netresult) (n : UCTNode) : UCTNode * Evals :=
  (* DCNN returns value as side to move *)
  let stm_eval := value raw_netlist in
  let to_move := get_to_move state in
  (* our search functions evaluate from black's point of view *)
  let v := if Color_eqb to_move BLACK then stm_eval else 1 - stm_eval in
  if m_value_head_sai net then
    let alpkt := get_alpkt state (alpha raw_netlist) in
    (set_net_eval n v alpkt (beta raw_netlist) (beta2 raw_netlist),
     mkEvals v alpkt (beta raw_netlist) (beta2 raw_netlist))
  else
    let a := alpha raw_netlist in   (* logits of winrate *)
    let alpkt := if Color_eqb to_move BLACK then a else - a in
    (set_net_eval n v alpkt 1 1, mkEvals v alpkt 1 1).

(** [UCTNode::create_children(network, nodecount, state, value, alpkt, beta,
    beta2, min_psa_ratio)].  The result is the boolean returned or the
    exception raised, then the node, [nodecount] and the out-parameters as
    the call leaves them, then the world. *)
Definition create_children (E : Env) (net : Network) (state : GameState)
    (min_psa_ratio : R) (n : UCTNode) (nodecount : Z) (outs : Evals) (w : World)
  : Result bool * (UCTNode * Z * Evals) * World :=
  (* no successors in final state *)
  if (2 <=? get_passes state)%Z then (Ok false, (n, nodecount, outs), w)
  else
    (* acquire the lock *)
    let '(acquired, n) := acquire_expanding n in
    if negb acquired then (Ok false, (n, nodecount, outs), w)
    else
      (* can we actually expand? *)
      if negb (expandable n min_psa_ratio)
      then (Ok false, (expand_done n, nodecount, outs), w)
      else
        match get_output E net state RANDOM_SYMMETRY (-1)
                         (cfg_use_nncache E) (cfg_use_nncache E) w with
        | (Halt, w) =>
            (* catch (NetworkHaltException&) { expand_cancel(); throw; } *)
            (Halt, (expand_cancel n, nodecount, outs), w)
        | (Ok raw_netlist, w) =>
            let '(n, outs) := store_evaluation net state raw_netlist n in
            match collect_moves E state raw_netlist w with
            | (Halt, w) => (Halt, (n, nodecount, outs), w)
            | (Ok (nodelist, legal_sum), w) =>
                let '(n, nodecount) :=
                  finish_expansion E net state min_psa_ratio n nodecount outs
                                   nodelist legal_sum in
                (Ok true, (n, nodecount, outs), w)
            end
        end.

(** ** Vocabulary of the statements *)

(** A computation that returns from every world and leaves the backend as
    drained or as ready as it found it. *)
Definition returns {A : Type} (c : M A) : Prop :=
  forall w, exists a w', c w = (Ok a, w') /\ draining w' = draining w.

(** The world with more events in its log. *)
Definition add_trace (w : World) (events : list Event) : World :=
  mkWorld (m_nncache w) (draining w) (rng w) (trace w ++ events).

(** An event other than a cache probe. *)
Definition not_a_lookup (e : Event) : Prop :=
  match e with EvLookup _ => False | _ => True end.

(** A computation that only appends to the log, and only events that
    satisfy [P], whether it returns or raises. *)
Definition appends {A : Type} (P : Event -> Prop) (c : M A) : Prop :=
  forall w r w', c w = (r, w') ->
    exists events, trace w' = trace w ++ events /\ Forall P events.

(** The probes that the symmetry loop logs: one per non-identity symmetry. *)
Definition symmetry_probes (state : GameState) (syms : list Z) : list Event :=
  map (fun s => EvLookup (get_symmetry_hash state s))
      (List.filter (fun s => negb (s =? IDENTITY_SYMMETRY)%Z) syms).

(** The symmetries [1 .. s]. *)
Definition symmetries_upto (s : Z) : list Z := map Z.of_nat (seq 1 (Z.to_nat s)).

(** The log entries of probing the symmetries [1 .. s] of a state. *)
Definition probes_upto (state : GameState) (s : Z) : list Event :=
  map (fun s => EvLookup (get_symmetry_hash state s)) (symmetries_upto s).

(** What [probe_cache] does to an entry it has found. *)
Definition refresh_winrate (state : GameState) (r : Netresult) : Netresult :=
  if is_sai r then get_sai_winrate r state else r.

(** Sum and arithmetic mean of a list of numbers. *)
Definition Rsum (l : list R) : R := foldr Rplus 0 l.
Definition mean (l : list R) : R := Rsum l / INR (length l).

(** The flip that [get_output] applies to the value of an ELF network when
    white is to move. *)
Definition elf_flip (net : Network) (state : GameState) (r : Netresult) : Netresult :=
  if m_value_head_not_stm (version_flags net) && Color_eqb (get_to_move state) WHITE
  then set_value r (1 - value r) else r.

(** The world after an [AVERAGE] evaluation that returned [r]. *)
Definition world_after_average (state : GameState) (write_cache : bool)
    (r : Netresult) (w : World) : World :=
  mkWorld
    (if write_cache then NNCache.insert (get_hash state) r (m_nncache w)
     else m_nncache w)
    (draining w) (rng w)
    (trace w ++ map EvForward all_symmetries
             ++ (if write_cache then [EvInsert (get_hash state) r] else [])).

(** The cache keeps the hashes of its order list in its index. *)
Definition cache_wf (c : NNCache.t) : Prop :=
  forall h, In h (NNCache.m_order c) -> is_Some (NNCache.m_cache c !! h).

(** The intersections on which the side to move may play. *)
Definition legal_intersections (E : Env) (state : GameState) : list nat :=
  List.filter
    (fun i => is_move_legal state (get_to_move state) (get_vertex state (Z.of_nat i)))
    (seq 0 (NUM_INTERSECTIONS E)).


(** The score on the board as the side to move sees it,
    [(to_move == FastBoard::BLACK ? 1 : -1) * state.final_score()]. *)
Definition relative_score (state : GameState) : R :=
  (if Color_eqb (get_to_move state) BLACK then 1 else -1) * final_score state.

(** The policy that the network puts on the images of [vertex] under the
    symmetries [syms], added up. *)
Definition folded_policy (state : GameState) (raw_netlist : Netresult)
    (vertex : Z) (syms : list Z) : R :=
  Rsum (map (fun sym =>
               at_idx (policy raw_netlist)
                      (Z.to_nat (get_index state (get_sym_move state vertex sym))))
            syms).

(** A board move of the move list: it stands for a legal intersection [i],
    carries the network's policy on the images of that intersection under
    some of the symmetries of the stabilizer (those whose image was still
    free), raised to [1/cfg_policy_temp], and is played on the intersection
    or on one of these images. *)
Definition board_move (E : Env) (state : GameState) (raw_netlist : Netresult)
    (entry : PolicyVertexPair) : Prop :=
  exists i syms,
    In i (legal_intersections E state)
    /\ sublist syms (stabilizer_subgroup E state)
    /\ fst entry
       = powf (folded_policy state raw_netlist (get_vertex state (Z.of_nat i)) syms)
              (1 / cfg_policy_temp E)
    /\ In (snd entry)
          (get_vertex state (Z.of_nat i)
           :: map (get_sym_move state (get_vertex state (Z.of_nat i))) syms).

(** ** The loader, continued ([add_zero_channels], [identify_layer]) *)

(** A counted loop that runs downwards, [i = n-1, ..., 0]. *)
Definition for_down {S : Type} (n : nat) (body : nat -> S -> S) (s : S) : S :=
  foldl (fun acc i => body i acc) s (rev (seq 0 n)).

(** [v.resize(n, 0.0f)]. *)
Definition resize (v : list R) (n : nat) : list R :=
  take n v ++ replicate (n - length v) 0.

(** [Network::add_zero_channels]: the new [m_val_outputs] and the weights
    bundle.  The outer loop [for (auto i = m_val_pool_outputs - 1; ; i--)]
    runs [i] from [m_val_pool_outputs - 1] down to 0; the two inner loops
    run [j] down to [old_channels + 1] and down to 1.  With no pooling
    output at all the C++ starts from an unsigned -1 and writes out of
    bounds; here no round is run then, and the statements ask for a positive
    count. *)
Definition add_zero_channels (m_channels m_val_outputs m_val_pool_outputs : nat)
    (w : ForwardPipeWeights) : nat * ForwardPipeWeights :=
  let old_channels := m_val_outputs in
  let m_val_outputs := 8%nat in
  let conv_val_w := resize (m_conv_val_w w) (m_channels * m_val_outputs) in
  let conv_val_b := resize (m_conv_val_b w) m_val_outputs in
  let bn_val_w1 := resize (m_bn_val_w1 w) m_val_outputs in
  let bn_val_w2 := resize (m_bn_val_w2 w) m_val_outputs in
  let conv_val_pool_w :=
    resize (m_conv_val_pool_w w) (m_val_outputs * m_val_pool_outputs) in
  let conv_val_pool_w :=
    for_down m_val_pool_outputs
      (fun i pool_w =>
         let pool_w :=
           for_down (m_val_outputs - old_channels)
             (fun d pool_w =>
                let j := (old_channels + d + 1)%nat in
                <[(i * m_val_outputs + j - 1)%nat := 0]> pool_w)
             pool_w in
         for_down old_channels
           (fun d pool_w =>
              let j := (d + 1)%nat in
              <[(i * m_val_outputs + j - 1)%nat :=
                  at_idx pool_w (i * old_channels + j - 1)]> pool_w)
           pool_w)
      conv_val_pool_w in
  (m_val_outputs,
   mkForwardPipeWeights
     (m_conv_weights w) (m_conv_biases w) (m_batchnorm_means w)
     (m_batchnorm_stddevs w)
     (m_conv_pol_w w) (m_conv_pol_b w) (m_bn_pol_w1 w) (m_bn_pol_w2 w)
     conv_val_w conv_val_b bn_val_w1 bn_val_w2
     conv_val_pool_w (m_conv_val_pool_b w) (m_bn_val_pool_w1 w)
     (m_bn_val_pool_w2 w)).

(** [Network::WeightsSection], in the order of the declaration. *)
Inductive WeightsSection :=
| NONE | INPUT_CONV | RESCONV_TOWER | POL_CONV_TOWER | POL_DENSE | VALUE_CONV
| VALUE_AVGPOOL | VALUE_DENSE_TOWER | VAL_DENSE_HIDDEN | VAL_DENSE_OUT
| VBE_DENSE_HIDDEN | VBE_DENSE_OUT.

(** [Network::WeightsFileIndex]. *)
Record WeightsFileIndex := mkWeightsFileIndex {
  section : WeightsSection;
  previous : WeightsSection;
  line : nat;
  excess : nat;               (* excess lines previously read *)
  complete : bool
}.

(** [layer[k].size()] for the block of four lines. *)
Definition line_size (layer : list (list R)) (k : nat) : nat :=
  length (at_row layer k).

(** [Network::identify_layer(layer, id)]: the index on return. *)
Definition identify_layer (E : Env) (m_channels : nat) (layer : list (list R))
    (id : WeightsFileIndex) : WeightsFileIndex :=
  let tower_or_hidden :=
    if (line_size layer 1 =? line_size layer 3)%nat
    then VALUE_DENSE_TOWER else VAL_DENSE_HIDDEN in
  let next :=
    match section id with
    | NONE => INPUT_CONV
    | INPUT_CONV => RESCONV_TOWER
    | RESCONV_TOWER =>
        if (line_size layer 0 =? m_channels * 9 * m_channels)%nat
        then RESCONV_TOWER else POL_CONV_TOWER
    | POL_CONV_TOWER =>
        if (line_size layer 1 =? line_size layer 3)%nat
        then POL_CONV_TOWER else POL_DENSE
    | POL_DENSE => VALUE_CONV
    | VALUE_CONV =>
        if negb (line_size layer 0 mod NUM_INTERSECTIONS E =? 0)%nat
        then VALUE_AVGPOOL
        else tower_or_hidden   (* fall through *)
    | VALUE_AVGPOOL | VALUE_DENSE_TOWER => tower_or_hidden
    | VAL_DENSE_HIDDEN => VAL_DENSE_OUT
    | VAL_DENSE_OUT =>
        if (0 <? line_size layer 2)%nat then VBE_DENSE_HIDDEN else VBE_DENSE_OUT
    | VBE_DENSE_HIDDEN => VBE_DENSE_OUT
    | VBE_DENSE_OUT => VBE_DENSE_OUT   (* default: break *)
    end in
  mkWeightsFileIndex next (section id) (line id) (excess id) (complete id).

(** ** The heads of [get_output_internal] *)

(** [lambda_ReLU] of [innerproduct] and [batchnorm]. *)
Definition lambda_ReLU (val : R) : R := if Rltb 0 val then val else 0.

(** What [cblas_sgemv(CblasRowMajor, CblasNoTrans, outputs, inputs, 1.0f,
    weights, inputs, input, 1, 0.0f, output, 1)] leaves in [output]: the
    product of the row-major [outputs x inputs] matrix [weights] with
    [input].  (The Eigen branch computes the same product.) *)
Definition sgemv (outputs inputs : nat) (weights input : list R) : list R :=
  map (fun o =>
         Rsum (map (fun i => at_idx weights (o * inputs + i) * at_idx input i)
                   (seq 0 inputs)))
      (seq 0 outputs).

(** [innerproduct<ReLU>(input, weights, biases)] (Network.cpp). *)
Definition innerproduct (ReLU : bool) (input weights biases : list R) : list R :=
  let inputs := length input in
  let outputs := length biases in
  let output := sgemv outputs inputs weights input in
  for_loop outputs
    (fun o output =>
       let val := at_idx biases o + at_idx output o in
       let val := if ReLU then lambda_ReLU val else val in
       <[o := val]> output)
    output.

(** [batchnorm<spatial_size>(channels, data, means, stddivs, eltwise)]
    (Network.cpp): the value of [data] on return; [eltwise] is [None] for the
    null pointer. *)
Definition batchnorm (spatial_size channels : nat) (data means stddivs : list R)
    (eltwise : option (list R)) : list R :=
  for_loop channels
    (fun c data =>
       let mean := at_idx means c in
       let scale_stddiv := at_idx stddivs c in
       match eltwise with
       | None =>
           (* Classical BN *)
           for_loop spatial_size
             (fun b data =>
                let arr_b := (c * spatial_size + b)%nat in
                <[arr_b := lambda_ReLU (scale_stddiv * (at_idx data arr_b - mean))]>
                  data)
             data
       | Some res =>
           (* BN + residual add *)
           for_loop spatial_size
             (fun b data =>
                let arr_b := (c * spatial_size + b)%nat in
                <[arr_b := lambda_ReLU (scale_stddiv * (at_idx data arr_b - mean)
                                        + at_idx res arr_b)]> data)
             data
       end)
    data.

(** One layer of the value-head dense tower in [get_output_internal]:
    [innerproduct<false>] with the layer's weights and biases, then
    [batchnorm<1>] over as many channels as there are biases. *)
Definition dense_layer (weights biases means vars : list R)
    (eltwise : option (list R)) (val_data : list R) : list R :=
  batchnorm 1 (length biases) (innerproduct false val_data weights biases)
            means vars eltwise.

(** [*std::max_element(cbegin(input), cend(input))]: the first largest cell.
    The C++ is undefined on an empty vector; the statements keep the input
    non-empty. *)
Definition max_element (input : list R) : R :=
  match input with
  | [] => 0
  | first :: rest =>
      foldl (fun largest x => if Rltb largest x then x else largest) first rest
  end.

(** [softmax(input, temperature)] (Network.cpp) up to the end of its first
    loop: [output], which holds the exponentials [val] in the order in which
    they are pushed, and [denom]. *)
Definition softmax_exponentials (input : list R) (temperature : R) : list R * R :=
  let alpha := max_element input in
  foldl (fun '(output, denom) in_val =>
           let val := exp ((in_val - alpha) / temperature) in
           (output ++ [val], denom + val))
        ([], 0) input.

(** [softmax(input, temperature)]: the first loop, then [out /= denom] on
    every cell. *)
Definition softmax (input : list R) (temperature : R) : list R :=
  let '(output, denom) := softmax_exponentials input temperature in
  map (fun out => out / denom) output.

(** [Network::reduce_mean(layer, area)]: the value of [layer] on return. *)
Definition reduce_mean (layer : list R) (area : nat) : list R :=
  let channels := (length layer / area)%nat in
  for_loop channels
    (fun c output =>
       let output := <[c := 0]> output in
       let output :=
         for_loop area
           (fun i output =>
              <[c := at_idx output c + at_idx layer (area * c + i)]> output)
           output in
       <[c := at_idx output c / INR area]> output)
    (replicate channels 0).

(** The value-head types of Network.h ([SINGLE], [DOUBLE_V], ...). *)
Inductive ValueHeadType := SINGLE | DOUBLE_V | DOUBLE_Y | DOUBLE_T | DOUBLE_I.

(** The members of [Network] that the value heads of [get_output_internal]
    read besides the version flags. *)
Record ValueHeads := mkValueHeads {
  m_value_head_type : ValueHeadType;
  m_vbe_head_rets : Z;
  m_ip1_vbe_w : list R;
  m_ip1_vbe_b : list R;
  m_ip2_vbe_w : list R;
  m_ip2_vbe_b : list R
}.

(** [get_output_internal] from [Netresult result;] to the call of
    [get_sai_winrate]: alpha, beta, beta2 and the winrate from the outputs
    of the value head ([val_output]) and, for the types Y and T, of the beta
    head, which is computed here from [val_data] or [val_channels].
    [cfg_betatune] is a configuration global; [result] is the
    default-constructed [Netresult]. *)
Definition value_heads (E : Env) (net : Network) (h : ValueHeads)
    (cfg_betatune : R) (state : GameState)
    (val_data val_channels val_output : list R) (result : Netresult)
  : Netresult :=
  match m_value_head_type h with
  | SINGLE =>
      (* logits of the winrate for LZ networks; beta is a conventional value *)
      let alpha := 2 * at_idx val_output 0 in
      mkNetresult (policy result) (policy_pass result)
                  (fst (sigmoid3 alpha 1 0)) alpha 1 (beta2 result) false
  | head_type =>
      let two_rets := (m_vbe_head_rets h =? 2)%Z in
      let vbe_output :=
        match head_type with
        | DOUBLE_Y =>
            let vbe_channels :=
              innerproduct true val_data (m_ip1_vbe_w h) (m_ip1_vbe_b h) in
            innerproduct false vbe_channels (m_ip2_vbe_w h) (m_ip2_vbe_b h)
        | _ => innerproduct false val_channels (m_ip2_vbe_w h) (m_ip2_vbe_b h)
        end in
      let beta :=
        match head_type with
        | DOUBLE_Y | DOUBLE_T => at_idx vbe_output 0
        | DOUBLE_I => at_idx val_output 1
        | _ => beta result
        end in
      let beta2 :=
        match head_type with
        | DOUBLE_Y | DOUBLE_T =>
            if two_rets then at_idx vbe_output 1 else beta2 result
        | DOUBLE_I => if two_rets then at_idx val_output 2 else beta2 result
        | _ => beta2 result
        end in
      let quartile := m_quartile_encoding (version_flags net) in
      (* ln(x) = log2(x) * ln(2) *)
      let beta_nat_tune := cfg_betatune * 0.69314718055994530941723212145818 in
      let q1 := at_idx val_output 0 in
      let q2 := beta in
      let eps := 0.05 in
      let log3 := 1.0986122886681096913952452369225 in
      let alpha := if quartile then 0.5 * (q1 + q2) else at_idx val_output 0 in
      let beta :=
        if quartile then 2.0 * log3 / (eps + Rmax 0 (q2 - q1))
        else exp (beta + beta_nat_tune) * 10.0 / INR (NUM_INTERSECTIONS E) in
      let beta2 :=
        if negb quartile && two_rets
        then exp (beta2 + beta_nat_tune) * 10.0 / INR (NUM_INTERSECTIONS E)
        else beta2 in
      get_sai_winrate
        (mkNetresult (policy result) (policy_pass result) (value result)
                     alpha beta beta2 true)
        state
  end.

(** The last loop of [Network::get_output_internal]:
    [result.policy[symmetry_nn_idx_table[symmetry][idx]] = outputs[idx]]. *)
Definition rotate_outputs (E : Env) (symmetry : Z) (outputs : list R)
    (result_policy : list R) : list R :=
  for_loop (NUM_INTERSECTIONS E)
    (fun idx p =>
       let sym_idx := symmetry_nn_idx_table E symmetry (Z.of_nat idx) in
       <[Z.to_nat sym_idx := at_idx outputs idx]> p)
    result_policy.

(** ** The search node, continued *)

(** [UCTNode::get_eval_variance(default_var)]. *)
Definition get_eval_variance (n : UCTNode) (default_var : R) : R :=
  if (1 <? m_visits n)%Z
  then m_squared_eval_diff n / IZR (m_visits n - 1)
  else default_var.

(** Replace the virtual-loss counter. *)
Definition set_virtual_loss (n : UCTNode) (virtual_loss : Z) : UCTNode :=
  mkUCTNode (m_move n) (m_policy n) (m_visits n) virtual_loss (m_forced n)
    (m_blackevals n) (m_squared_eval_diff n) (m_pi_sum n)
    (m_net_pi n) (m_net_alpkt n) (m_net_beta n) (m_net_beta2 n)
    (tracker_lambda n) (tracker_mu n) (tracker_one n) (m_quantile_updates n)
    (m_lambda n) (m_mu n) (m_expand_state n) (m_min_psa_ratio_children n)
    (m_children n) (get_father_quantile_lambda n) (get_father_quantile_mu n).

(** [UCTNode::virtual_loss] and [UCTNode::virtual_loss_undo];
    [VIRTUAL_LOSS_COUNT] is a constant of [UCTNode.h]. *)
Definition virtual_loss (VIRTUAL_LOSS_COUNT : Z) (n : UCTNode) : UCTNode :=
  set_virtual_loss n (m_virtual_loss n + VIRTUAL_LOSS_COUNT)%Z.
Definition virtual_loss_undo (VIRTUAL_LOSS_COUNT : Z) (n : UCTNode) : UCTNode :=
  set_virtual_loss n (m_virtual_loss n - VIRTUAL_LOSS_COUNT)%Z.

(** [UCTNode::get_eval(tomove)]. *)
Definition get_eval (n : UCTNode) (tomove : Color) : R :=
  get_raw_eval n tomove (m_virtual_loss n).

(** [UCTNode::low_visits_child(child)]; [get_visits()] reads [m_visits]. *)
Definition low_visits_child (n child : UCTNode) : bool :=
  let father_visits := m_visits n in
  let child_visits := m_visits child in
  (child_visits * (child_visits - 3) <? father_visits - 2)%Z.

(** ** Vocabulary of the further statements *)

(** The symmetry that undoes [s]: the quarter turns 5 and 6 undo each other,
    every other symmetry undoes itself. *)
Definition inverse_symmetry (s : Z) : Z :=
  if (s =? 5)%Z then 6%Z else if (s =? 6)%Z then 5%Z else s.

(** The table as a function on loop counters. *)
Definition table_nat (E : Env) (s : Z) (idx : nat) : nat :=
  Z.to_nat (symmetry_nn_idx_table E s (Z.of_nat idx)).

(** The argument of the logistic in [sigmoid]. *)
Definition sigmoid_arg (alpha beta bonus beta2 : R) : R :=
  let beta2 := if Rltb beta2 0 then beta else beta2 in
  (if Rltb 0 (alpha + bonus) then beta2 else beta) * (alpha + bonus).

(** The argument of the logistic with its two roundings to [float], as
    [sigmoid_rounded] computes it. *)
Definition sigmoid_arg_rounded (fp : Rounding) (alpha beta bonus beta2 : R) : R :=
  let beta2 := if Rltb beta2 0 then beta else beta2 in
  let sum := to_float fp (alpha + bonus) in
  to_float fp ((if Rltb 0 sum then beta2 else beta) * sum).

(** What the range of [sigmoid_rounded] needs of the arithmetic besides
    [ieee_like]: rounding to [float] is monotone and leaves 1 exact;
    [std::exp] is at least 1 on the non-negative numbers and at most 1/2
    below -30 (where the exponential is less than 1e-13). *)
Record monotone_rounding (fp : Rounding) : Prop := mk_monotone_rounding {
  to_float_mono : forall x y, x <= y -> to_float fp x <= to_float fp y;
  to_float_1 : to_float fp 1 = 1;
  exp_d_ge_1 : forall x, 0 <= x -> 1 <= exp_d fp x;
  exp_d_small : forall x, x < -30 -> exp_d fp x <= 1 / 2
}.

(** The position of a section in the weights file. *)
Definition section_rank (s : WeightsSection) : nat :=
  match s with
  | NONE => 0 | INPUT_CONV => 1 | RESCONV_TOWER => 2 | POL_CONV_TOWER => 3
  | POL_DENSE => 4 | VALUE_CONV => 5 | VALUE_AVGPOOL => 6
  | VALUE_DENSE_TOWER => 7 | VAL_DENSE_HIDDEN => 8 | VAL_DENSE_OUT => 9
  | VBE_DENSE_HIDDEN => 10 | VBE_DENSE_OUT => 11
  end.

(** The sections that may span more than one block of lines. *)
Definition repeatable (s : WeightsSection) : Prop :=
  s = RESCONV_TOWER \/ s = POL_CONV_TOWER \/ s = VALUE_DENSE_TOWER
  \/ s = VBE_DENSE_OUT.

(** The node after a sequence of backups, first to last; each comes with
    its [forced] flag. *)
Definition backups (n : UCTNode) (results : list (SearchResult * bool)) : UCTNode :=
  foldl (fun n r => snd (update n (fst r) (snd r))) n results.

(** The evaluation that [update] takes from a result at node [n]. *)
Definition backed_eval (n : UCTNode) (r : SearchResult * bool) : R :=
  fst (update n (fst r) (snd r)).

(** The sum of the squared deviations from the mean. *)
Definition squared_deviations (l : list R) : R :=
  Rsum (map (fun e => (e - mean l) * (e - mean l)) l).

(** [a <= b] for [operator<] of [std::pair<float, int>]. *)
Definition pair_le (a b : PolicyVertexPair) : Prop := pair_lt b a = false.

(** A computation that leaves the cache and the backend as it found them,
    and raises the halt exception only when the backend is drained. *)
Definition keeps_cache {A : Type} (c : M A) : Prop :=
  forall w r w', c w = (r, w') ->
    m_nncache w' = m_nncache w /\ draining w' = draining w
    /\ (r = Halt -> draining w = true).

(** ** Example inputs *)

(** A 7x7 build with the cache in use, no self-play noise, no dumb pass, no
    symmetry folding, deterministic representatives and policy temperature
    1.  The default [Netresult] is all zero but for [beta2 = -1], the value
    that the specification reads as "same as beta". *)
Definition env7 (dumbpass : bool) : Env :=
  mkEnv 7 (-1)
        (mkNetresult (replicate 49 0) 0 0 0 0 (-1) false)
        false 0 true dumbpass false true 1
        (fun _ => 1 / 2) (fun _ => 1 / 2)
        (fun v _ _ _ sai => mkSearchResult sai v (fun _ _ => v))
        (fun _ => 0%Z) (fun _ => 1 / 2).

(** A 7x7 position: board hash 100, hash [100 + s] under symmetry [s], eight
    opening moves ([49 / 6]), vertices numbered like the intersections. *)
Definition position (boardsize movenum passes : Z) (to_move : Color)
    (legal : Z -> bool) (score : R) : GameState :=
  mkGameState boardsize 100 (fun s => (100 + s)%Z) movenum
              (fun n => Z.quot (n * n) 6) to_move 0 passes (fun a => a)
              (fun _ => false) (fun i => i) (fun _ v => legal v)
              (fun v _ => v) (fun v => v)
              (fun v => (Z.rem v 7, Z.quot v 7)) score true.

(** The empty board with black to move, and the same position a hundred
    moves into the game. *)
Definition opening_position : GameState :=
  position 7 0 0 BLACK (fun _ => true) 0.
Definition late_position : GameState :=
  position 7 100 0 BLACK (fun _ => true) 0.

(** White to move on the empty board. *)
Definition white_position : GameState :=
  position 7 0 0 WHITE (fun _ => true) 0.



(** Two passes have been played. *)
Definition finished_position : GameState :=
  position 7 60 2 BLACK (fun _ => true) 0.

(** A 9x9 position, handed to the 7x7 build. *)
Definition position9 : GameState :=
  position 9 0 0 BLACK (fun _ => true) 0.

(** An evaluation with a uniform policy and the given winrate. *)
Definition flat_result (winrate : R) : Netresult :=
  mkNetresult (replicate 49 (1 / 50)) (1 / 50) winrate 0 1 (-1) false.

(** A Leela Zero network and an ELF network (value from black's point of
    view) that answer every request with the same evaluation. *)
Definition lz_network (winrate : R) : Network :=
  mkNetwork (mkVersionFlags false false false false false) false
            (fun _ _ => flat_result winrate).
Definition elf_network (winrate : R) : Network :=
  mkNetwork (mkVersionFlags false false false false true) false
            (fun _ _ => flat_result winrate).

(** Caches of ten entries: empty, holding an entry for the own hash of the
    positions above, holding an entry for their hash under symmetry 2. *)
Definition empty_cache : NNCache.t := NNCache.mk 10 ∅ [].
Definition own_cache : NNCache.t :=
  NNCache.mk 10 {[ 100%Z := flat_result (1 / 3) ]} [100%Z].
Definition symmetric_cache : NNCache.t :=
  NNCache.mk 10 {[ 102%Z := flat_result (1 / 3) ]} [102%Z].

(** Worlds with an empty log: the backend ready or drained. *)
Definition ready_world (c : NNCache.t) : World := mkWorld c false 0 [].
Definition drained_world (c : NNCache.t) : World := mkWorld c true 0 [].

(** A node that has never been expanded. *)
Definition fresh_node : UCTNode :=
  mkUCTNode 0 (1 / 50) 0 0 0 0 0 0 0 0 0 0
            (mkTracker 0 0 0) (mkTracker 0 0 0) (mkTracker 0 0 0) 0
            0 0 INITIAL 2 [] 0 0.

(** A small weights bundle: one residual-tower convolution of two channels,
    one policy convolution, value and pooling convolutions, one dense layer. *)
Definition small_weights : ForwardPipeWeights :=
  mkForwardPipeWeights
    [[1; 2]] [[1 / 2; 3]] [[4; 5]] [[1; 1]]
    [[1]] [[2]] [[3]] [[4]]
    [1; 2] [1; 1] [2; 2] [3; 3]
    [1] [5] [6] [7].
Definition small_tower : DenseTower :=
  mkDenseTower [[1; 1]] [[2; 3]] [[4; 5]] [[6; 7]].

(** The world in which a drained backend has refused the evaluation of the
    opening position: the own hash and the seven symmetric hashes were
    probed, one random symmetry drawn, one request made. *)
Definition refused_world : World :=
  mkWorld empty_cache true 1
          [EvLookup 100; EvLookup 101; EvLookup 102; EvLookup 103;
           EvLookup 104; EvLookup 105; EvLookup 106; EvLookup 107;
           EvForward 0].

(** A node with two visits, one of them a win for black. *)
Definition visited_node : UCTNode := set_stats fresh_node 2 0 1 0 1.

(** The value-convolution part of a bundle with 2 filters over 1 channel and
    2 pooling outputs. *)
Definition pooled_weights : ForwardPipeWeights :=
  mkForwardPipeWeights
    [] [] [] [] [] [] [] []
    [1; 2] [1; 1] [2; 2] [3; 3]
    [1; 2; 3; 4] [5; 5] [6; 6] [7; 7].

(** A Leela Zero head and a SAI head of type I with one beta output. *)
Definition lz_heads : ValueHeads := mkValueHeads SINGLE 0 [] [] [] [].
Definition sai_heads : ValueHeads := mkValueHeads DOUBLE_I 1 [] [] [] [].

(** Rounding to the nearest multiple of [2^-k], ties away from zero. *)
Definition round_to_grid (k : nat) (x : R) : R :=
  if Rltb x 0 then - (IZR (Int_part (- x * 2 ^ k + 1 / 2)) / 2 ^ k)
  else IZR (Int_part (x * 2 ^ k + 1 / 2)) / 2 ^ k.

(** An arithmetic that does round, to try the requirements on: [float]
    results to 24 binary places, [double] results to 53, [std::exp] as the
    rounded exponential.  It is a fixed-point arithmetic, coarser than the
    machine's near zero. *)
Definition grid_arithmetic : Rounding :=
  mkRounding (round_to_grid 24) (round_to_grid 53)
             (fun x => round_to_grid 53 (exp x)).

(** * Properties *)

(** ** Decisions on reals *)

Lemma Rltb_true (a b : R) : Rltb a b = true <-> a < b.
Proof. unfold Rltb. destruct (Rlt_dec a b); split; intros; try done. Qed.

Lemma Rltb_false (a b : R) : Rltb a b = false <-> b <= a.
Proof.
  unfold Rltb. destruct (Rlt_dec a b); split; intros; try done; lra.
Qed.

Lemma Rleb_true (a b : R) : Rleb a b = true <-> a <= b.
Proof. unfold Rleb. destruct (Rle_dec a b); split; intros; try done. Qed.

Lemma Rleb_false (a b : R) : Rleb a b = false <-> b < a.
Proof.
  unfold Rleb. destruct (Rle_dec a b); split; intros; try done; lra.
Qed.

Lemma Reqb_true (a b : R) : Reqb a b = true <-> a = b.
Proof. unfold Reqb. destruct (Req_dec_T a b); split; intros; try done. Qed.

Lemma Reqb_false (a b : R) : Reqb a b = false <-> a <> b.
Proof. unfold Reqb. destruct (Req_dec_T a b); split; intros; try done. Qed.

(** Decide one comparison in the goal, keeping the fact in the context. *)
Ltac decide_R a b :=
  let H := fresh "Hcmp" in
  destruct (Rltb a b) eqn:H;
  [apply Rltb_true in H | apply Rltb_false in H].

(** ** [sigmoid] *)

(** With the default [beta2] the argument of the logistic is [beta * alpha]
    on either side of zero. *)
Lemma sigmoid3_unfold (alpha beta bonus : R) :
  sigmoid3 alpha beta bonus =
  let arg := beta * (alpha + bonus) in
  let ret := if Rltb 30 (Rabs arg) then exp (- Rabs arg)
             else 1 / (1 + exp (Rabs arg)) in
  if Rltb arg 0 then (ret, 1 - ret) else (1 - ret, ret).
Proof.
  unfold sigmoid3, sigmoid.
  assert (Hneg : Rltb (-1) 0 = true) by (apply Rltb_true; lra).
  rewrite Hneg. by destruct (Rltb 0 (alpha + bonus)).
Qed.

(** The two members of the pair that [sigmoid] returns add up to one. *)
Lemma sigmoid_pair_sum (alpha beta bonus beta2 : R) :
  fst (sigmoid alpha beta bonus beta2) + snd (sigmoid alpha beta bonus beta2) = 1.
Proof.
  unfold sigmoid. cbv zeta.
  match goal with |- context [if Rltb ?a 0 then _ else _] => destruct (Rltb a 0) end;
    cbn [fst snd]; lra.
Qed.

(** Exact form of the symmetry: in real arithmetic the two winrates add up
    to one, not just up to a tolerance. *)
Lemma sigmoid_symmetry_exact (alpha beta : R) :
  fst (sigmoid3 alpha beta 0) + fst (sigmoid3 (- alpha) beta 0) = 1.
Proof.
  rewrite !sigmoid3_unfold. cbv zeta.
  replace (beta * (- alpha + 0)) with (- (beta * (alpha + 0))) by lra.
  set (arg := beta * (alpha + 0)).
  rewrite Rabs_Ropp.
  set (ret := if Rltb 30 (Rabs arg) then exp (- Rabs arg)
              else 1 / (1 + exp (Rabs arg))).
  decide_R arg 0; decide_R (- arg) 0; cbn [fst]; try lra.
  (* arg = 0: both calls take the branch [arg >= 0] and [ret] is a half *)
  assert (Harg : arg = 0) by lra.
  subst ret. rewrite Harg, Rabs_R0.
  assert (H30 : Rltb 30 0 = false) by (apply Rltb_false; lra).
  rewrite H30, exp_0. lra.
Qed.

(** *** [sigmoid] in machine arithmetic *)

Lemma Rabs_bound (x e : R) : Rabs x <= e -> - e <= x <= e.
Proof. unfold Rabs. destruct (Rcase_abs x); lra. Qed.

(** Without rounding the function with roundings is [sigmoid]. *)
Lemma sigmoid_rounded_exact (alpha beta bonus beta2 : R) :
  sigmoid_rounded exact_arithmetic alpha beta bonus beta2
  = sigmoid alpha beta bonus beta2.
Proof. reflexivity. Qed.

(** Exact arithmetic meets the requirements on rounding. *)
Lemma exact_arithmetic_ieee_like : ieee_like exact_arithmetic.
Proof.
  assert (Hpos : 0 < / 2 ^ 24 /\ 0 < / 2 ^ 53).
  { split; apply Rinv_0_lt_compat, pow_lt; lra. }
  constructor; cbn; intros; try done.
  - replace (x - x) with 0 by lra. rewrite Rabs_R0. lra.
  - replace (x - x) with 0 by lra. rewrite Rabs_R0. lra.
  - apply exp_0.
  - left. apply exp_pos.
  - rewrite <- exp_0. destruct H as [Hlt | ->]; [left; by apply exp_increasing|lra].
Qed.

(** [ret] is a number between 0 and 1, however good [std::exp] is. *)
Lemma ret_range (fp : Rounding) (H : ieee_like fp) (a : R) :
  0 <= a ->
  0 <= (if Rltb 30 a then exp_d fp (- a)
        else to_double fp (1 / to_double fp (1 + exp_d fp a))) <= 1.
Proof.
  intros Ha. destruct (Rltb 30 a).
  - split; [apply (exp_d_nonneg fp H)|apply (exp_d_le_1 fp H); lra].
  - pose proof (exp_d_nonneg fp H a) as He.
    assert (H1 : 1 <= to_double fp (1 + exp_d fp a)).
    { pose proof (to_double_mono fp H 1 (1 + exp_d fp a)) as Hm.
      rewrite (to_double_1 fp H) in Hm. apply Hm. lra. }
    assert (H2 : 0 < 1 / to_double fp (1 + exp_d fp a) <= 1).
    { pose proof (Rinv_le_contravar 1 (to_double fp (1 + exp_d fp a))
                    Rlt_0_1 H1) as Hinv.
      pose proof (Rinv_0_lt_compat (to_double fp (1 + exp_d fp a))) as Hpos.
      rewrite Rinv_1 in Hinv. unfold Rdiv. lra. }
    pose proof (to_double_mono fp H 0 (1 / to_double fp (1 + exp_d fp a))) as Hlo.
    pose proof (to_double_mono fp H (1 / to_double fp (1 + exp_d fp a)) 1) as Hhi.
    rewrite (to_double_0 fp H) in Hlo. rewrite (to_double_1 fp H) in Hhi.
    split; [apply Hlo | apply Hhi]; lra.
Qed.

(** With rounding the two winrates still add up to one within 1e-6: both
    calls compute the same [ret], and the conversions of [ret] and
    [1.0 - ret] to [float] lose at most [2^-24 + 2^-24 + 2^-53]. *)
Lemma sigmoid_rounded_symmetry (fp : Rounding) (H : ieee_like fp)
    (alpha beta : R) :
  Rabs (fst (sigmoid_rounded fp alpha beta 0 (-1))
        + fst (sigmoid_rounded fp (- alpha) beta 0 (-1)) - 1) < 1 / 1000000.
Proof.
  unfold sigmoid_rounded.
  assert (Hneg : Rltb (-1) 0 = true) by (apply Rltb_true; lra).
  rewrite Hneg.
  replace (- alpha + 0) with (- (alpha + 0)) by lra.
  rewrite (to_float_odd fp H).
  set (s := to_float fp (alpha + 0)).
  replace (if Rltb 0 s then beta else beta) with beta by (by destruct (Rltb 0 s)).
  replace (if Rltb 0 (- s) then beta else beta) with beta
    by (by destruct (Rltb 0 (- s))).
  replace (beta * - s) with (- (beta * s)) by lra.
  rewrite (to_float_odd fp H).
  set (arg := to_float fp (beta * s)).
  rewrite Rabs_Ropp.
  pose proof (ret_range fp H (Rabs arg) (Rabs_pos arg)) as Hret.
  set (ret := if Rltb 30 (Rabs arg) then _ else _) in *.
  assert (Hone : 0 <= 1 - ret <= 1) by lra.
  pose proof (to_double_error fp H (1 - ret) Hone) as Hd.
  assert (Hdr : 0 <= to_double fp (1 - ret) <= 1).
  { pose proof (to_double_mono fp H 0 (1 - ret)) as Hlo.
    pose proof (to_double_mono fp H (1 - ret) 1) as Hhi.
    rewrite (to_double_0 fp H) in Hlo. rewrite (to_double_1 fp H) in Hhi.
    split; [apply Hlo | apply Hhi]; lra. }
  pose proof (to_float_error fp H _ Hdr) as Hf1.
  pose proof (to_float_error fp H ret Hret) as Hf2.
  assert (Hsmall : / 2 ^ 24 + / 2 ^ 24 + / 2 ^ 53 < 1 / 1000000).
  { assert (/ 2 ^ 53 <= / 2 ^ 24).
    { apply Rinv_le_contravar; [lra|]. apply Rle_pow; [lra|lia]. }
    assert (/ 2 ^ 24 < 1 / 3000000).
    { unfold Rdiv. rewrite Rmult_1_l. apply Rinv_lt_contravar; lra. }
    lra. }
  assert (Hmixed : Rabs (to_float fp (to_double fp (1 - ret)) + to_float fp ret - 1)
                   < 1 / 1000000).
  { apply Rabs_bound in Hd, Hf1, Hf2. apply Rabs_def1; lra. }
  decide_R arg 0; decide_R (- arg) 0; cbn [fst]; try lra.
  - replace (to_float fp ret + to_float fp (to_double fp (1 - ret)))
      with (to_float fp (to_double fp (1 - ret)) + to_float fp ret) by lra.
    exact Hmixed.
  - (* arg = 0: both calls return [float(1.0 - 0.5)] *)
    assert (Harg : arg = 0) by lra.
    subst ret. rewrite Harg, Rabs_R0.
    assert (H30 : Rltb 30 0 = false) by (apply Rltb_false; lra).
    rewrite H30, (exp_d_0 fp H).
    replace (1 + 1) with 2 by lra.
    rewrite (to_double_2 fp H), (to_double_half fp H).
    replace (1 - 1 / 2) with (1 / 2) by lra.
    rewrite (to_double_half fp H), (to_float_half fp H).
    replace (1 / 2 + 1 / 2 - 1) with 0 by lra. rewrite Rabs_R0. lra.
Qed.

(** C8. For every [alpha] and [beta], with bonus 0 and [beta2] left at its
    default -1, [sigmoid(alpha, beta, 0).first + sigmoid(-alpha, beta, 0).first]
    is within 1e-6 of 1. *)
Theorem sigmoid_symmetry (alpha beta : R) :
  Rabs (fst (sigmoid alpha beta 0 (-1)) + fst (sigmoid (- alpha) beta 0 (-1)) - 1)
  < 1 / 1000000.
Proof.
  pose proof (sigmoid_symmetry_exact alpha beta) as Hsum.
  unfold sigmoid3 in Hsum. rewrite Hsum.
  replace (1 - 1) with 0 by lra. rewrite Rabs_R0. lra.
Qed.

(** ** The format version word *)

(** Masking with a single bit tests that bit. *)
Lemma land_pow2_testbit (v k : Z) :
  (0 <= k)%Z -> negb (Z.land v (2 ^ k) =? 0)%Z = Z.testbit v k.
Proof.
  intros Hk. destruct (Z.testbit v k) eqn:Hbit.
  - apply negb_true_iff, Z.eqb_neq. intros Hzero.
    assert (Hb : Z.testbit (Z.land v (2 ^ k)) k = true).
    { rewrite Z.land_spec, Hbit, Z.pow2_bits_true; done. }
    rewrite Hzero, Z.bits_0 in Hb. done.
  - apply negb_false_iff, Z.eqb_eq, Z.bits_inj'. intros n Hn.
    rewrite Z.land_spec, Z.bits_0, Z.pow2_bits_eqb by done.
    destruct (Z.eqb_spec k n) as [->|]; [by rewrite Hbit|apply andb_false_r].
Qed.

(** [extra_bits] is what remains of the word above its nine low bits. *)
Lemma extra_bits_shiftr (v : Z) : (v - Z.land v 511 = 2 ^ 9 * Z.shiftr v 9)%Z.
Proof.
  change 511%Z with (Z.ones 9).
  rewrite Z.land_ones, Z.shiftr_div_pow2 by lia.
  pose proof (Z.div_mod v (2 ^ 9)). lia.
Qed.

(** [extra_bits != 0] says that some bit at position 9 or above is set. *)
Lemma extra_bits_nonzero (v : Z) :
  (v - Z.land v 511 =? 0)%Z = false <->
  exists n, (9 <= n)%Z /\ Z.testbit v n = true.
Proof.
  rewrite Z.eqb_neq, extra_bits_shiftr. split.
  - intros Hne.
    assert (Hq : Z.shiftr v 9 <> 0%Z) by lia.
    destruct (Z.lt_trichotomy (Z.shiftr v 9) 0) as [Hneg | [Hzero | Hpos]]; [|done|].
    + pose proof (Z.log2_nonneg (Z.pred (- Z.shiftr v 9))).
      exists (Z.succ (Z.log2 (Z.pred (- Z.shiftr v 9))) + 9)%Z. split; [lia|].
      rewrite <- Z.shiftr_spec by lia.
      apply Z.bits_above_log2_neg; lia.
    + pose proof (Z.log2_nonneg (Z.shiftr v 9)).
      exists (Z.log2 (Z.shiftr v 9) + 9)%Z. split; [lia|].
      rewrite <- Z.shiftr_spec by lia. by apply Z.bit_log2.
  - intros (n & Hn & Hbit) Hzero.
    assert (Hq : Z.shiftr v 9 = 0%Z) by lia.
    assert (Hb : Z.testbit (Z.shiftr v 9) (n - 9) = true).
    { rewrite Z.shiftr_spec by lia. by replace (n - 9 + 9)%Z with n by lia. }
    rewrite Hq, Z.bits_0 in Hb. done.
Qed.

(** C4. A weights file whose first line is the integer [v] is refused as
    "wrong version" exactly when [v & 3] is neither 1 nor 2 or some bit of
    [v] at position 9 or above is set; otherwise the body loader is run with
    [adv_features] = bit 4, [chainlibs_features] = bit 6,
    [chainsize_features] = bit 7, [quartile_encoding] = bit 8, and the value
    head is marked black-point-of-view exactly when [v & 3 = 2]. *)
Theorem version_word_decides_loading (load_v1_network : Z -> Z)
    (flags : VersionFlags) (v : Z) :
  let r := load_network_file load_v1_network flags
             (Some (mkVersionParse v false)) in
  (fst r = WrongVersion <->
   (Z.land v 3 <> 1%Z /\ Z.land v 3 <> 2%Z)
   \/ exists n, (9 <= n)%Z /\ Z.testbit v n = true)
  /\ (fst r = WrongVersion
      \/ fst r = Proceeds v (load_v1_network v)
         /\ m_adv_features (snd r) = Z.testbit v 4
         /\ m_chainlibs_features (snd r) = Z.testbit v 6
         /\ m_chainsize_features (snd r) = Z.testbit v 7
         /\ m_quartile_encoding (snd r) = Z.testbit v 8
         /\ m_value_head_not_stm (snd r) = (Z.land v 3 =? 2)%Z).
Proof.
  cbv zeta. unfold load_network_file. cbn [format_version iss_fail orb].
  destruct (v - Z.land v 511 =? 0)%Z eqn:Hextra.
  - assert (Hnone : ~ exists n, (9 <= n)%Z /\ Z.testbit v n = true).
    { intros Hex. apply extra_bits_nonzero in Hex. congruence. }
    destruct (Z.eqb_spec (Z.land v 3) 1) as [H1|H1];
      destruct (Z.eqb_spec (Z.land v 3) 2) as [H2|H2];
      cbn [negb andb orb fst snd m_adv_features m_chainlibs_features
           m_chainsize_features m_quartile_encoding m_value_head_not_stm].
    all: try (split;
      [split; [done | intros [[? ?] | ?]; done]
      | right; split; [done|];
        change 16%Z with (2 ^ 4)%Z; change 64%Z with (2 ^ 6)%Z;
        change 128%Z with (2 ^ 7)%Z; change 256%Z with (2 ^ 8)%Z;
        rewrite !land_pow2_testbit by lia; done]).
    split; [split; [intros _; by left | done] | by left].
  - rewrite orb_true_r. cbn [fst].
    split; [split; [intros _; right; by apply extra_bits_nonzero | done] | by left].
Qed.

(** ** Quantile trackers *)

(** The visit count that [update_all_quantiles] passes on is the incremented
    update counter, hence positive on a node whose counter is not negative. *)
Lemma update_all_quantiles_counts (n : UCTNode) (a b b2 : R) :
  m_quantile_updates (update_all_quantiles n a b b2) = (m_quantile_updates n + 1)%Z.
Proof. reflexivity. Qed.

(** The bootstrap example of the specification: alpha 3, beta 1, beta2 -1,
    average pi 0.8, mixing parameter 1, any of the first eight visits. *)
Lemma update_quantile_bootstrap_example (gxgp gp : R) (n : Z) :
  (0 < n <= 8)%Z ->
  update_quantile 0 gxgp gp 1 n (8 / 10) 3 1 (-1) = -3.
Proof.
  intros Hn. unfold update_quantile.
  assert (H1 : Rltb (Rabs 1) (1 / 100000) = false).
  { apply Rltb_false. rewrite Rabs_R1. lra. }
  assert (H2 : (n <=? 0)%Z = false) by lia.
  assert (H3 : (n <=? 8)%Z = true) by lia.
  assert (H4 : Reqb 0 0 = true) by by apply Reqb_true.
  assert (H5 : Rltb 0 (-1) = false) by (apply Rltb_false; lra).
  rewrite H1, H2, H3, H4, H5. cbn [andb]. cbv zeta.
  replace (1 / 2 * 1 + (1 - 1) * (8 / 10)) with (1 / 2) by lra.
  replace (1 + - (1 / 2)) with (1 / 2) by lra.
  rewrite Rmax_right by lra. lra.
Qed.

(** C9. One quantile update with mixing parameter [p] and a positive visit
    count [n]: if [|p| < 1e-5] the quantile becomes 0; otherwise, with
    [avg_p = p/2 + (1-p) avg_pi], if [n <= 8] and the quantile is 0 it
    becomes [(ln avg_p - ln (1 - avg_p)) / max(0.01, beta_right) - alpkt],
    and in every other case it grows by
    [(avg_p - avg_f) / max(0.1, avg_f')] with [avg_f' = gp_sum / n] and
    [avg_f = gxgp_sum / n + quantile * avg_f'].  For alpha 3, beta 1,
    beta2 -1, average pi 0.8 and parameter 1 the bootstrap value is -3. *)
Theorem update_quantile_cases
    (quantile gxgp_sum gp_sum p : R) (n : Z) (avg_pi alpkt beta beta2 : R)
    (Hn : (0 < n)%Z) :
  let q' := update_quantile quantile gxgp_sum gp_sum p n avg_pi alpkt beta beta2 in
  let avg_p := p / 2 + (1 - p) * avg_pi in
  let beta_right := if Rltb 0 beta2 && Rltb (1 / 2) avg_p then beta2 else beta in
  let avg_f' := gp_sum / IZR n in
  let avg_f := gxgp_sum / IZR n + quantile * avg_f' in
  (Rabs p < 1 / 100000 -> q' = 0)
  /\ (1 / 100000 <= Rabs p -> (n <= 8)%Z -> quantile = 0 ->
      q' = (ln avg_p - ln (1 - avg_p)) / Rmax (1 / 100) beta_right - alpkt)
  /\ (1 / 100000 <= Rabs p -> ~ ((n <= 8)%Z /\ quantile = 0) ->
      q' = quantile + (avg_p - avg_f) / Rmax (1 / 10) avg_f')
  /\ update_quantile 0 gxgp_sum gp_sum 1 1 (8 / 10) 3 1 (-1) = -3.
Proof.
  cbv zeta. unfold update_quantile.
  assert (Hpos : (n <=? 0)%Z = false) by lia.
  replace (1 / 2 * p) with (p / 2) by lra.
  split; [|split; [|split]].
  - intros Hp. apply Rltb_true in Hp. by rewrite Hp.
  - intros Hp H8 Hq. apply Rltb_false in Hp. rewrite Hp, Hpos.
    assert (H8' : (n <=? 8)%Z = true) by lia.
    apply Reqb_true in Hq as Hq'. by rewrite H8', Hq'.
  - intros Hp Hother. apply Rltb_false in Hp. rewrite Hp, Hpos.
    destruct (n <=? 8)%Z eqn:H8; [|done].
    destruct (Reqb quantile 0) eqn:Hq; [|done].
    apply Reqb_true in Hq. exfalso. apply Hother. split; [lia|done].
  - apply (update_quantile_bootstrap_example gxgp_sum gp_sum 1). lia.
Qed.

(** The theorem at the bootstrap example of the specification. *)
Lemma update_quantile_cases_witness :
  (0 < 1)%Z /\ update_quantile 0 0 0 1 1 (8 / 10) 3 1 (-1) = -3.
Proof.
  split; [lia|].
  exact (proj2 (proj2 (proj2
    (update_quantile_cases 0 0 0 1 1 (8 / 10) 3 1 (-1) ltac:(lia))))).
Defined.

(** ** Calls that cannot be halted *)

Lemma returns_ret {A : Type} (a : A) : returns (ret a).
Proof. intros w. by exists a, w. Qed.

Lemma returns_bind {A B : Type} (c : M A) (f : A -> M B) :
  returns c -> (forall a, returns (f a)) -> returns (bind c f).
Proof.
  intros Hc Hf w. destruct (Hc w) as (a & w1 & Hrun & Hd).
  destruct (Hf a w1) as (b & w2 & Hrun' & Hd').
  exists b, w2. unfold bind. rewrite Hrun, Hrun'. split; [done|congruence].
Qed.

Lemma returns_log (e : Event) : returns (log e).
Proof. intros w. by eexists _, _. Qed.

Lemma returns_cache_lookup (hash : Z) : returns (cache_lookup hash).
Proof.
  apply returns_bind; [apply returns_log|]. intros _ w. by eexists _, _.
Qed.

Lemma returns_cache_insert (hash : Z) (r : Netresult) :
  returns (cache_insert hash r).
Proof.
  apply returns_bind; [apply returns_log|]. intros _ w. by eexists _, _.
Qed.

Lemma returns_randfix (E : Env) : returns (randfix E).
Proof. intros w. by eexists _, _. Qed.

Lemma returns_unif_law (E : Env) : returns (unif_law E).
Proof. intros w. by eexists _, _. Qed.

Create HintDb returns.
#[local] Hint Resolve returns_ret returns_log returns_cache_lookup
  returns_cache_insert returns_randfix returns_unif_law : returns.

Lemma returns_probe_symmetries (E : Env) (state : GameState) (syms : list Z)
    (result : Netresult) :
  returns (probe_symmetries E state syms result).
Proof.
  induction syms as [|sym rest IH]; cbn [probe_symmetries]; [auto with returns|].
  destruct (sym =? IDENTITY_SYMMETRY)%Z; [done|].
  apply returns_bind; [auto with returns|].
  intros [entry|]; [auto with returns | done].
Qed.

Lemma returns_probe_cache (E : Env) (state : GameState) (result : Netresult) :
  returns (probe_cache E state result).
Proof.
  unfold probe_cache. apply returns_bind; [auto with returns|]. intros own.
  apply returns_bind.
  - destruct (_ && _); [apply returns_probe_symmetries | auto with returns].
  - intros [hit r]. auto with returns.
Qed.

Lemma returns_fold_stabilizer (E : Env) (state : GameState) (raw : Netresult)
    (vertex : Z) (syms : list Z) (acc : list bool * R * R * Z) :
  returns (fold_stabilizer E state raw vertex syms acc).
Proof.
  revert acc. induction syms as [|sym rest IH]; intros acc;
    cbn [fold_stabilizer]; [auto with returns|].
  destruct acc as [[[taken_already taken_policy] max_u] chosen].
  destruct (negb _); [|done].
  apply returns_bind; [destruct (cfg_symm_nonrandom E); auto with returns|].
  intros u. apply IH.
Qed.

Lemma returns_board_moves (E : Env) (state : GameState) (raw : Netresult)
    (intersections : list nat) (acc : list bool * list PolicyVertexPair * R) :
  returns (board_moves E state raw intersections acc).
Proof.
  revert acc. induction intersections as [|i rest IH]; intros acc;
    cbn [board_moves]; [auto with returns|].
  destruct acc as [[taken_already nodelist] legal_sum].
  destruct (_ && _); [|done].
  apply returns_bind; [apply returns_fold_stabilizer|].
  intros [[[t p] u] c]. apply IH.
Qed.

Lemma returns_collect_moves (E : Env) (state : GameState) (raw : Netresult) :
  returns (collect_moves E state raw).
Proof.
  unfold collect_moves. apply returns_bind; [apply returns_board_moves|].
  intros [[t nodelist] legal_sum]. destruct (allow_pass _ _ _ _); auto with returns.
Qed.

(** A request to a backend that is not drained is answered. *)
Lemma get_output_internal_ready (net : Network) (state : GameState)
    (symmetry : Z) (w : World) :
  draining w = false ->
  exists w', get_output_internal net state symmetry w
             = (Ok (forward_result net state symmetry), w')
             /\ draining w' = false.
Proof.
  intros Hd. unfold get_output_internal, bind, log. cbn.
  rewrite Hd. by eexists.
Qed.

(** A request to a drained backend raises the halt exception. *)
Lemma get_output_internal_drained (net : Network) (state : GameState)
    (symmetry : Z) (w : World) :
  draining w = true ->
  exists w', get_output_internal net state symmetry w = (Halt, w').
Proof.
  intros Hd. unfold get_output_internal, bind, log. cbn.
  rewrite Hd. by eexists.
Qed.

(** With a backend that is not drained, the evaluation that
    [create_children] asks for returns. *)
Lemma get_output_random_ready (E : Env) (net : Network) (state : GameState)
    (read_cache write_cache : bool) (w : World) :
  draining w = false ->
  exists r w', get_output E net state RANDOM_SYMMETRY (-1) read_cache write_cache w
               = (Ok r, w').
Proof.
  intros Hd. unfold get_output.
  destruct (negb _); [by eexists _, _|].
  unfold bind at 1.
  assert (Hprobe : returns (if read_cache && negb (is_average RANDOM_SYMMETRY)
                            then probe_cache E state (Netresult_default E)
                            else ret (false, Netresult_default E))).
  { destruct (_ && _); [apply returns_probe_cache | auto with returns]. }
  destruct (Hprobe w) as ([hit r] & w1 & -> & Hd1).
  destruct hit; [by eexists _, _|].
  unfold evaluate. unfold bind at 1. unfold bind at 1.
  destruct (returns_randfix E w1) as (s & w2 & -> & Hd2).
  destruct (get_output_internal_ready net state s w2) as (w3 & -> & Hd3);
    [congruence|].
  unfold bind at 1.
  match goal with |- context [(if write_cache then ?a else ?b) w3] =>
    assert (Hins : returns (if write_cache then a else b))
      by (destruct write_cache; auto with returns);
    destruct (Hins w3) as ([] & w4 & -> & _)
  end.
  by eexists _, _.
Qed.

(** ** Early exits of [get_output] and [create_children] *)

(** C10. For a state whose board size differs from [BOARD_SIZE],
    [get_output] returns a default-constructed [Netresult] at once: the
    world is left as it was, so no cache lookup, no forward pass and no
    cache insertion takes place (the log does not grow, the cache is the
    same), whatever the ensemble and the cache arguments. *)
Theorem get_output_wrong_boardsize (E : Env) (net : Network) (state : GameState)
    (ensemble : Ensemble) (symmetry : Z) (read_cache write_cache : bool)
    (w : World) :
  get_boardsize state <> BOARD_SIZE E ->
  get_output E net state ensemble symmetry read_cache write_cache w
  = (Ok (Netresult_default E), w).
Proof.
  intros Hsize. unfold get_output.
  apply Z.eqb_neq in Hsize. by rewrite Hsize.
Qed.

(** C6. For a state in which two or more passes have occurred,
    [create_children] returns false and changes nothing: the world (hence
    the log of network and cache calls) is the same, and so are the node
    with its children, visits, statistics and expansion state, the node
    count and the out-parameters. *)
Theorem create_children_after_two_passes (E : Env) (net : Network)
    (state : GameState) (min_psa_ratio : R) (n : UCTNode) (nodecount : Z)
    (outs : Evals) (w : World) :
  (2 <= get_passes state)%Z ->
  create_children E net state min_psa_ratio n nodecount outs w
  = (Ok false, (n, nodecount, outs), w).
Proof.
  intros Hpasses. unfold create_children.
  apply Z.leb_le in Hpasses. by rewrite Hpasses.
Qed.

(** Cancelling an expansion that was acquired from [INITIAL] gives the node
    back as it was. *)
Lemma expand_cancel_acquire (n : UCTNode) :
  m_expand_state n = INITIAL ->
  acquire_expanding n = (true, set_expand_state n EXPANDING)
  /\ expand_cancel (set_expand_state n EXPANDING) = n.
Proof.
  intros Hinit. unfold acquire_expanding. rewrite Hinit. split; [done|].
  destruct n. cbn in Hinit. by subst.
Qed.

(** The expansion always ends in [EXPANDED]. *)
Lemma finish_expansion_expanded (E : Env) (net : Network) (state : GameState)
    (min_psa_ratio : R) (n : UCTNode) (nodecount : Z) (outs : Evals)
    (nodelist : list PolicyVertexPair) (legal_sum : R) :
  m_expand_state
    (fst (finish_expansion E net state min_psa_ratio n nodecount outs
                           nodelist legal_sum)) = EXPANDED.
Proof.
  unfold finish_expansion. by destruct (link_nodelist _ _ _ _).
Qed.

(** C5. If the evaluation inside [create_children] raises the halt
    exception, the node, which the call had moved from [INITIAL] to
    [EXPANDING], is put back to [INITIAL] and the exception is raised to the
    caller; node (children included), node count and out-parameters are as
    before the call.  Once evaluations resume the same call expands the
    node. *)
Theorem create_children_halt (E : Env) (net : Network) (state : GameState)
    (min_psa_ratio : R) (n : UCTNode) (nodecount : Z) (outs : Evals)
    (w w' : World) :
  (get_passes state < 2)%Z ->
  m_expand_state n = INITIAL ->
  expandable n min_psa_ratio = true ->
  get_output E net state RANDOM_SYMMETRY (-1)
             (cfg_use_nncache E) (cfg_use_nncache E) w = (Halt, w') ->
  m_expand_state (snd (acquire_expanding n)) = EXPANDING
  /\ create_children E net state min_psa_ratio n nodecount outs w
     = (Halt, (n, nodecount, outs), w')
  /\ exists n' nodecount' outs' w'',
       create_children E net state min_psa_ratio n nodecount outs
                       (resume_evals w')
       = (Ok true, (n', nodecount', outs'), w'')
       /\ m_expand_state n' = EXPANDED.
Proof.
  intros Hpasses Hinit Hexp Hhalt.
  destruct (expand_cancel_acquire n Hinit) as [Hacq Hcancel].
  assert (Hnopass : (2 <=? get_passes state)%Z = false) by lia.
  assert (Hexp' : expandable (set_expand_state n EXPANDING) min_psa_ratio = true)
    by exact Hexp.
  split; [by rewrite Hacq|]. split.
  - unfold create_children. rewrite Hnopass, Hacq. cbn [negb].
    rewrite Hexp'. cbn [negb]. by rewrite Hhalt, Hcancel.
  - unfold create_children. rewrite Hnopass, Hacq. cbn [negb].
    rewrite Hexp'. cbn [negb].
    destruct (get_output_random_ready E net state (cfg_use_nncache E)
                (cfg_use_nncache E) (resume_evals w') eq_refl)
      as (raw & w1 & ->).
    destruct (store_evaluation net state raw (set_expand_state n EXPANDING))
      as [n1 outs1].
    destruct (returns_collect_moves E state raw w1)
      as ([nodelist legal_sum] & w2 & -> & _).
    pose proof (finish_expansion_expanded E net state min_psa_ratio n1
                  nodecount outs1 nodelist legal_sum) as Hdone.
    destruct (finish_expansion _ _ _ _ _ _ _ _ _) as [n2 nodecount2].
    by exists n2, nodecount2, outs1, w2.
Qed.

(** ** Batch-norm fusion *)

Lemma for_loop_S {S : Type} (n : nat) (body : nat -> S -> S) (s : S) :
  for_loop (Datatypes.S n) body s = body n (for_loop n body s).
Proof. unfold for_loop. by rewrite seq_S, foldl_app. Qed.

Lemma lookup_map {A B : Type} (f : A -> B) (l : list A) (i : nat) :
  map f l !! i = f <$> (l !! i).
Proof. revert i. induction l as [|x l IH]; intros [|i]; cbn; auto. Qed.

Lemma at_idx_lookup (l : list R) (i : nat) (x : R) :
  l !! i = Some x -> at_idx l i = x.
Proof. unfold at_idx. by intros ->. Qed.

Lemma at_row_lookup (l : list (list R)) (i : nat) (x : list R) :
  l !! i = Some x -> at_row l i = x.
Proof. unfold at_row. by intros ->. Qed.

(** The inner loop after [count] rounds: the first [count] cells are fused,
    the others are untouched. *)
Lemma fuse_bias_spec (count : nat) (means biases : list R) :
  (count <= length means)%nat -> (count <= length biases)%nat ->
  length (fst (fuse_bias count means biases)) = length means
  /\ length (snd (fuse_bias count means biases)) = length biases
  /\ (forall j, (j < count)%nat ->
        fst (fuse_bias count means biases) !! j
        = Some (at_idx means j - at_idx biases j)
        /\ snd (fuse_bias count means biases) !! j = Some 0)
  /\ (forall j, (count <= j)%nat ->
        fst (fuse_bias count means biases) !! j = means !! j
        /\ snd (fuse_bias count means biases) !! j = biases !! j).
Proof.
  unfold fuse_bias. induction count as [|k IH]; intros Hm Hb.
  - cbn. repeat split; intros; lia.
  - rewrite for_loop_S.
    destruct IH as (Hlm & Hlb & Hlow & Hhigh); [lia..|].
    destruct (for_loop k _ (means, biases)) as [m b]. cbn [fst snd] in *.
    destruct (Hhigh k (le_n k)) as [Hmk Hbk].
    assert (Hatm : at_idx m k = at_idx means k) by (unfold at_idx; by rewrite Hmk).
    assert (Hatb : at_idx b k = at_idx biases k) by (unfold at_idx; by rewrite Hbk).
    rewrite !length_insert. repeat split; try done.
    + destruct (decide (j = k)) as [->|Hne].
      * rewrite list_lookup_insert_eq by lia. by rewrite Hatm, Hatb.
      * rewrite list_lookup_insert_ne by done. apply Hlow. lia.
    + destruct (decide (j = k)) as [->|Hne].
      * apply list_lookup_insert_eq. lia.
      * rewrite list_lookup_insert_ne by done. apply Hlow. lia.
    + rewrite list_lookup_insert_ne by lia. apply Hhigh. lia.
    + rewrite list_lookup_insert_ne by lia. apply Hhigh. lia.
Qed.

(** One well-shaped pair, run through the inner loop over its whole length
    and through [process_bn_var], is fused. *)
Lemma fuse_bias_fused (b m v : list R) :
  length b = length m ->
  fused b m v (snd (fuse_bias (length m) m b)) (fst (fuse_bias (length m) m b))
        (process_bn_var v).
Proof.
  intros Hlen.
  destruct (fuse_bias_spec (length m) m b) as (Hlm & Hlb & Hlow & _); [lia..|].
  unfold fused. repeat split; try done.
  - unfold process_bn_var. apply length_map.
  - intros j Hj. apply Hlow. lia.
  - intros j x y Hx Hy. apply lookup_lt_Some in Hx as Hj.
    rewrite (proj1 (Hlow j Hj)).
    by rewrite (at_idx_lookup _ _ _ Hx), (at_idx_lookup _ _ _ Hy).
  - intros j x Hx. unfold process_bn_var, epsilon. by rewrite lookup_map, Hx.
Qed.

(** The outer loop after [k] rounds: the first [k] rows are fused, the
    others are untouched. *)
Lemma fuse_rows_spec (count : list R -> list R -> nat)
    (biases means vars : list (list R)) (k : nat) :
  (forall m b, length b = length m -> count m b = length m) ->
  tower_ok biases means vars ->
  (k <= length biases)%nat ->
  let '(means', biases', vars') :=
    for_loop k (fuse_row count) (means, biases, vars) in
  length means' = length means /\ length biases' = length biases
  /\ length vars' = length vars
  /\ (forall i, (k <= i)%nat ->
        means' !! i = means !! i /\ biases' !! i = biases !! i
        /\ vars' !! i = vars !! i)
  /\ (forall i b m v, (i < k)%nat ->
        biases !! i = Some b -> means !! i = Some m -> vars !! i = Some v ->
        exists b' m' v',
          biases' !! i = Some b' /\ means' !! i = Some m' /\ vars' !! i = Some v'
          /\ fused b m v b' m' v').
Proof.
  intros Hcount (Hlb & Hlv & Hrows). induction k as [|k IH]; intros Hk.
  - cbn. repeat split; intros; lia.
  - rewrite for_loop_S.
    destruct (for_loop k (fuse_row count) (means, biases, vars))
      as [[means_k biases_k] vars_k].
    destruct IH as (Hm & Hb & Hv & Hhigh & Hlow); [lia|].
    destruct (Hhigh k (le_n k)) as (Hmk & Hbk & Hvk).
    destruct (lookup_lt_is_Some_2 biases k) as [b Hbrow]; [lia|].
    destruct (lookup_lt_is_Some_2 means k) as [m Hmrow]; [lia|].
    destruct (lookup_lt_is_Some_2 vars k) as [v Hvrow]; [lia|].
    destruct (Hrows k b m v Hbrow Hmrow Hvrow) as [Hbm Hvm].
    unfold fuse_row.
    rewrite (at_row_lookup means_k k m), (at_row_lookup biases_k k b),
      (at_row_lookup vars_k k v) by congruence.
    rewrite (Hcount m b Hbm).
    pose proof (fuse_bias_fused b m v Hbm) as Hfused.
    destruct (fuse_bias (length m) m b) as [m' b']. cbn [fst snd] in Hfused.
    rewrite !length_insert. repeat split; try done.
    + rewrite list_lookup_insert_ne by lia. apply Hhigh. lia.
    + rewrite list_lookup_insert_ne by lia. apply Hhigh. lia.
    + rewrite list_lookup_insert_ne by lia. apply Hhigh. lia.
    + intros i b0 m0 v0 Hi Hb0 Hm0 Hv0.
      destruct (decide (i = k)) as [->|Hne].
      * assert (b0 = b /\ m0 = m /\ v0 = v) as (-> & -> & ->)
          by (repeat split; congruence).
        exists b', m', (process_bn_var v).
        by rewrite !list_lookup_insert_eq by lia.
      * rewrite !list_lookup_insert_ne by done.
        apply Hlow; [lia|done..].
Qed.

(** A whole tower run through the outer loop is fused row by row. *)
Lemma fuse_tower_fused (count : list R -> list R -> nat)
    (biases means vars : list (list R)) :
  (forall m b, length b = length m -> count m b = length m) ->
  tower_ok biases means vars ->
  let '(means', biases', vars') :=
    for_loop (length biases) (fuse_row count) (means, biases, vars) in
  tower_fused biases means vars biases' means' vars'.
Proof.
  intros Hcount Hok.
  pose proof (fuse_rows_spec count biases means vars (length biases)
                Hcount Hok (le_n _)) as Hspec.
  destruct (for_loop (length biases) (fuse_row count) (means, biases, vars))
    as [[means' biases'] vars'].
  destruct Hspec as (_ & Hb & _ & _ & Hlow).
  split; [done|]. intros i b m v Hbi Hmi Hvi.
  apply (Hlow i b m v); [by apply lookup_lt_Some in Hbi|done..].
Qed.

(** C7. After the fusion block of [Network::initialize], for every
    convolution (or dense layer) with its batch norm (residual tower, policy
    tower, value convolution, value pooling convolution, value dense tower)
    and every channel [j]: the stored bias is 0, the stored mean is the mean
    before fusion minus the bias before fusion, and each stored variance
    cell is [1/sqrt(w_pre + 1e-5)] for the cell [w_pre] before fusion.  The
    shapes are those that [store_layer] asserts when it reads the file. *)
Theorem initialize_fuses_batchnorm (w : ForwardPipeWeights) (t : DenseTower) :
  tower_ok (m_conv_biases w) (m_batchnorm_means w) (m_batchnorm_stddevs w) ->
  tower_ok (m_conv_pol_b w) (m_bn_pol_w1 w) (m_bn_pol_w2 w) ->
  quartet_ok (m_conv_val_b w) (m_bn_val_w1 w) (m_bn_val_w2 w) ->
  quartet_ok (m_conv_val_pool_b w) (m_bn_val_pool_w1 w) (m_bn_val_pool_w2 w) ->
  tower_ok (m_vh_dense_biases t) (m_vh_dense_bn_means t) (m_vh_dense_bn_vars t) ->
  let w' := fuse_forward_weights w in
  let t' := fuse_dense_tower t in
  tower_fused (m_conv_biases w) (m_batchnorm_means w) (m_batchnorm_stddevs w)
              (m_conv_biases w') (m_batchnorm_means w') (m_batchnorm_stddevs w')
  /\ tower_fused (m_conv_pol_b w) (m_bn_pol_w1 w) (m_bn_pol_w2 w)
                 (m_conv_pol_b w') (m_bn_pol_w1 w') (m_bn_pol_w2 w')
  /\ fused (m_conv_val_b w) (m_bn_val_w1 w) (m_bn_val_w2 w)
           (m_conv_val_b w') (m_bn_val_w1 w') (m_bn_val_w2 w')
  /\ fused (m_conv_val_pool_b w) (m_bn_val_pool_w1 w) (m_bn_val_pool_w2 w)
           (m_conv_val_pool_b w') (m_bn_val_pool_w1 w') (m_bn_val_pool_w2 w')
  /\ tower_fused (m_vh_dense_biases t) (m_vh_dense_bn_means t) (m_vh_dense_bn_vars t)
                 (m_vh_dense_biases t') (m_vh_dense_bn_means t')
                 (m_vh_dense_bn_vars t').
Proof.
  intros Htower Hpol [Hval _] [Hpool _] Hdense. cbv zeta.
  unfold fuse_forward_weights, fuse_dense_tower.
  pose proof (fuse_tower_fused (fun means_i _ => length means_i) _ _ _
                (fun _ _ _ => eq_refl) Htower) as H1.
  pose proof (fuse_tower_fused (fun _ biases_i => length biases_i) _ _ _
                (fun _ _ H => H) Hpol) as H2.
  pose proof (fuse_tower_fused (fun _ biases_i => length biases_i) _ _ _
                (fun _ _ H => H) Hdense) as H5.
  pose proof (fuse_bias_fused _ _ (m_bn_val_w2 w) Hval) as H3.
  pose proof (fuse_bias_fused _ _ (m_bn_val_pool_w2 w) Hpool) as H4.
  destruct (for_loop (length (m_conv_biases w)) _ _) as [[means biases] stddevs].
  destruct (for_loop (length (m_conv_pol_b w)) _ _) as [[pol_w1 pol_b] pol_w2].
  destruct (for_loop (length (m_vh_dense_biases t)) _ _) as [[dm db] dv].
  destruct (fuse_bias (length (m_bn_val_w1 w)) _ _) as [val_w1 val_b].
  destruct (fuse_bias (length (m_bn_val_pool_w1 w)) _ _) as [pool_w1 pool_b].
  by cbn.
Qed.

(** ** Runs of the cache protocol *)

Lemma add_trace_nil (w : World) : add_trace w [] = w.
Proof. destruct w. unfold add_trace. cbn. by rewrite app_nil_r. Qed.

Lemma add_trace_app (w : World) (e1 e2 : list Event) :
  add_trace (add_trace w e1) e2 = add_trace w (e1 ++ e2).
Proof. unfold add_trace. cbn. by rewrite app_assoc. Qed.

Lemma cache_lookup_run (hash : Z) (w : World) :
  cache_lookup hash w
  = (Ok (NNCache.lookup hash (m_nncache w)), add_trace w [EvLookup hash]).
Proof. reflexivity. Qed.

Lemma cache_insert_run (hash : Z) (r : Netresult) (w : World) :
  cache_insert hash r w
  = (Ok tt, mkWorld (NNCache.insert hash r (m_nncache w)) (draining w) (rng w)
                    (trace w ++ [EvInsert hash r])).
Proof. reflexivity. Qed.

Lemma get_output_internal_run (net : Network) (state : GameState)
    (symmetry : Z) (w : World) :
  draining w = false ->
  get_output_internal net state symmetry w
  = (Ok (forward_result net state symmetry), add_trace w [EvForward symmetry]).
Proof.
  intros Hd. unfold get_output_internal, bind, log, add_trace. cbn.
  by rewrite Hd.
Qed.

(** No symmetric hash in the cache: every symmetry of the list is probed and
    [result] is left alone. *)
Lemma probe_symmetries_miss (E : Env) (state : GameState) (syms : list Z)
    (result : Netresult) (w : World) :
  (forall s, In s syms -> s <> IDENTITY_SYMMETRY ->
     NNCache.lookup (get_symmetry_hash state s) (m_nncache w) = None) ->
  probe_symmetries E state syms result w
  = (Ok (false, result), add_trace w (symmetry_probes state syms)).
Proof.
  revert w. induction syms as [|sym rest IH]; intros w Hmiss.
  - cbn. by rewrite add_trace_nil.
  - cbn [probe_symmetries]. unfold symmetry_probes. cbn [List.filter].
    destruct (Z.eqb_spec sym IDENTITY_SYMMETRY) as [Hid|Hid]; cbn [negb].
    + apply IH. intros s Hs. apply Hmiss. by right.
    + unfold bind. rewrite cache_lookup_run, Hmiss by (done || by left).
      rewrite IH by (intros s Hs; apply Hmiss; by right).
      by rewrite add_trace_app.
Qed.

(** A symmetric hash in the cache, none before it: the loop stops there and
    hands out the entry with its policy corrected. *)
Lemma probe_symmetries_hit (E : Env) (state : GameState)
    (before after : list Z) (sym : Z) (entry result : Netresult) (w : World) :
  (forall s, In s before -> s <> IDENTITY_SYMMETRY ->
     NNCache.lookup (get_symmetry_hash state s) (m_nncache w) = None) ->
  sym <> IDENTITY_SYMMETRY ->
  NNCache.lookup (get_symmetry_hash state sym) (m_nncache w) = Some entry ->
  probe_symmetries E state (before ++ sym :: after) result w
  = (Ok (true, set_policy entry (corrected_policy E sym (policy entry))),
     add_trace w (symmetry_probes state (before ++ [sym]))).
Proof.
  revert w. induction before as [|s0 before IH]; intros w Hmiss Hsym Hhit.
  - cbn [app probe_symmetries]. unfold symmetry_probes. cbn [List.filter app].
    destruct (Z.eqb_spec sym IDENTITY_SYMMETRY) as [Hid|Hid]; [done|].
    cbn [negb]. unfold bind. by rewrite cache_lookup_run, Hhit.
  - cbn [app probe_symmetries]. unfold symmetry_probes. cbn [List.filter app].
    destruct (Z.eqb_spec s0 IDENTITY_SYMMETRY) as [Hid|Hid]; cbn [negb].
    + apply IH; [|done..]. intros s Hs. apply Hmiss. by right.
    + unfold bind. rewrite cache_lookup_run, Hmiss by (done || by left).
      rewrite IH; [|intros s Hs; apply Hmiss; by right|done..].
      by rewrite add_trace_app.
Qed.

Lemma probe_all_symmetries_miss (E : Env) (state : GameState)
    (result : Netresult) (w : World) :
  (forall s, (1 <= s <= 7)%Z ->
     NNCache.lookup (get_symmetry_hash state s) (m_nncache w) = None) ->
  probe_symmetries E state all_symmetries result w
  = (Ok (false, result), add_trace w (probes_upto state 7)).
Proof.
  intros Hmiss. apply probe_symmetries_miss.
  intros s Hin Hid. apply Hmiss. unfold IDENTITY_SYMMETRY in Hid.
  cbn in Hin. lia.
Qed.

Lemma probe_all_symmetries_hit (E : Env) (state : GameState) (s : Z)
    (entry result : Netresult) (w : World) :
  (1 <= s <= 7)%Z ->
  (forall s', (1 <= s' < s)%Z ->
     NNCache.lookup (get_symmetry_hash state s') (m_nncache w) = None) ->
  NNCache.lookup (get_symmetry_hash state s) (m_nncache w) = Some entry ->
  probe_symmetries E state all_symmetries result w
  = (Ok (true, set_policy entry (corrected_policy E s (policy entry))),
     add_trace w (probes_upto state s)).
Proof.
  intros Hs Hmiss Hhit.
  assert (Hcase : (s = 1 \/ s = 2 \/ s = 3 \/ s = 4 \/ s = 5 \/ s = 6 \/ s = 7)%Z)
    by lia.
  assert (Hbefore : forall before, (forall x, In x before -> (0 <= x < s)%Z) ->
            forall x, In x before -> x <> IDENTITY_SYMMETRY ->
            NNCache.lookup (get_symmetry_hash state x) (m_nncache w) = None).
  { intros before Hb x Hx Hid. apply Hmiss. unfold IDENTITY_SYMMETRY in Hid.
    specialize (Hb x Hx). lia. }
  destruct Hcase as [->|[->|[->|[->|[->|[->| ->]]]]]].
  - apply (probe_symmetries_hit E state [0%Z] [2;3;4;5;6;7]%Z); [|done..].
    apply Hbefore. cbn. lia.
  - apply (probe_symmetries_hit E state [0;1]%Z [3;4;5;6;7]%Z); [|done..].
    apply Hbefore. cbn. lia.
  - apply (probe_symmetries_hit E state [0;1;2]%Z [4;5;6;7]%Z); [|done..].
    apply Hbefore. cbn. lia.
  - apply (probe_symmetries_hit E state [0;1;2;3]%Z [5;6;7]%Z); [|done..].
    apply Hbefore. cbn. lia.
  - apply (probe_symmetries_hit E state [0;1;2;3;4]%Z [6;7]%Z); [|done..].
    apply Hbefore. cbn. lia.
  - apply (probe_symmetries_hit E state [0;1;2;3;4;5]%Z [7]%Z); [|done..].
    apply Hbefore. cbn. lia.
  - apply (probe_symmetries_hit E state [0;1;2;3;4;5;6]%Z []%Z); [|done..].
    apply Hbefore. cbn. lia.
Qed.

(** [probe_cache] when the state's own hash is not in the cache and the
    guard of the symmetry loop is false. *)
Lemma probe_cache_no_symmetries (E : Env) (state : GameState)
    (result : Netresult) (w : World) :
  NNCache.lookup (get_hash state) (m_nncache w) = None ->
  early_opening E state = false ->
  probe_cache E state result w
  = (Ok (false, result), add_trace w [EvLookup (get_hash state)]).
Proof.
  intros Hown Hearly. unfold probe_cache, bind.
  rewrite cache_lookup_run, Hown, Hearly. reflexivity.
Qed.

(** [probe_cache] when neither the own hash nor a symmetric one is in the
    cache, in the early opening. *)
Lemma probe_cache_all_miss (E : Env) (state : GameState)
    (result : Netresult) (w : World) :
  NNCache.lookup (get_hash state) (m_nncache w) = None ->
  early_opening E state = true ->
  (forall s, (1 <= s <= 7)%Z ->
     NNCache.lookup (get_symmetry_hash state s) (m_nncache w) = None) ->
  probe_cache E state result w
  = (Ok (false, result),
     add_trace w (EvLookup (get_hash state) :: probes_upto state 7)).
Proof.
  intros Hown Hearly Hmiss. unfold probe_cache, bind.
  rewrite cache_lookup_run, Hown, Hearly. cbn [default negb andb bool_decide].
  rewrite (probe_all_symmetries_miss E state result) by done.
  by rewrite add_trace_app.
Qed.

(** [probe_cache] when the own hash is not in the cache and [s] is the first
    symmetry whose hash is, in the early opening. *)
Lemma probe_cache_symmetric_hit (E : Env) (state : GameState) (s : Z)
    (entry result : Netresult) (w : World) :
  NNCache.lookup (get_hash state) (m_nncache w) = None ->
  early_opening E state = true ->
  (1 <= s <= 7)%Z ->
  (forall s', (1 <= s' < s)%Z ->
     NNCache.lookup (get_symmetry_hash state s') (m_nncache w) = None) ->
  NNCache.lookup (get_symmetry_hash state s) (m_nncache w) = Some entry ->
  probe_cache E state result w
  = (Ok (true, refresh_winrate state
                 (set_policy entry (corrected_policy E s (policy entry)))),
     add_trace w (EvLookup (get_hash state) :: probes_upto state s)).
Proof.
  intros Hown Hearly Hs Hmiss Hhit. unfold probe_cache, bind.
  rewrite cache_lookup_run, Hown, Hearly. cbn [default negb andb bool_decide].
  rewrite (probe_all_symmetries_hit E state s entry result) by done.
  by rewrite add_trace_app.
Qed.

(** A loop that rewrites cell [idx] in round [idx] from its own content. *)
Lemma for_loop_insert_spec (body : nat -> list R -> list R) (g : nat -> R -> R)
    (init : list R) (k : nat) :
  (forall idx l, body idx l = <[idx := g idx (at_idx l idx)]> l) ->
  (k <= length init)%nat ->
  length (for_loop k body init) = length init
  /\ (forall idx, (idx < k)%nat ->
        for_loop k body init !! idx = Some (g idx (at_idx init idx)))
  /\ (forall idx, (k <= idx)%nat -> for_loop k body init !! idx = init !! idx).
Proof.
  intros Hbody. induction k as [|k IH]; intros Hk.
  - cbn. repeat split; intros; lia.
  - rewrite for_loop_S, Hbody. destruct IH as (Hlen & Hlow & Hhigh); [lia|].
    rewrite length_insert. repeat split; [done|..].
    + intros idx Hidx. destruct (decide (idx = k)) as [->|Hne].
      * rewrite list_lookup_insert_eq by lia.
        unfold at_idx. by rewrite (Hhigh k (le_n k)).
      * rewrite list_lookup_insert_ne by done. apply Hlow. lia.
    + intros idx Hidx. rewrite list_lookup_insert_ne by lia. apply Hhigh. lia.
Qed.

(** The corrected policy, cell by cell. *)
Lemma corrected_policy_spec (E : Env) (sym : Z) (cached : list R) :
  length (corrected_policy E sym cached) = NUM_INTERSECTIONS E
  /\ forall idx, (idx < NUM_INTERSECTIONS E)%nat ->
       corrected_policy E sym cached !! idx
       = Some (at_idx cached
                 (Z.to_nat (symmetry_nn_idx_table E sym (Z.of_nat idx)))).
Proof.
  unfold corrected_policy.
  destruct (for_loop_insert_spec
              (fun idx corrected =>
                 <[idx := at_idx cached
                            (Z.to_nat (symmetry_nn_idx_table E sym (Z.of_nat idx)))]>
                   corrected)
              (fun idx _ =>
                 at_idx cached (Z.to_nat (symmetry_nn_idx_table E sym (Z.of_nat idx))))
              (replicate (NUM_INTERSECTIONS E) 0) (NUM_INTERSECTIONS E))
    as (Hlen & Hlow & _); [done|by rewrite length_replicate|].
  rewrite length_replicate in Hlen. by split.
Qed.

(** [get_output] once [probe_cache] has answered. *)
Lemma get_output_after_probe (E : Env) (net : Network) (state : GameState)
    (ensemble : Ensemble) (symmetry : Z) (write_cache : bool)
    (hit : bool) (r : Netresult) (w w1 : World) :
  get_boardsize state = BOARD_SIZE E ->
  ensemble <> AVERAGE ->
  probe_cache E state (Netresult_default E) w = (Ok (hit, r), w1) ->
  get_output E net state ensemble symmetry true write_cache w
  = if hit then (Ok r, w1)
    else evaluate E net state ensemble symmetry write_cache r w1.
Proof.
  intros Hsize Hens Hprobe. unfold get_output.
  apply Z.eqb_eq in Hsize. rewrite Hsize. cbn [negb].
  assert (Havg : is_average ensemble = false) by by destruct ensemble.
  rewrite Havg. cbn [negb andb]. unfold bind at 1. rewrite Hprobe.
  by destruct hit.
Qed.

(** *** What the evaluation logs *)

Lemma appends_ret {A : Type} (P : Event -> Prop) (a : A) : appends P (ret a).
Proof.
  intros w r w' Hrun. injection Hrun as <- <-.
  exists []. by rewrite app_nil_r.
Qed.

Lemma appends_bind {A B : Type} (P : Event -> Prop) (c : M A) (f : A -> M B) :
  appends P c -> (forall a, appends P (f a)) -> appends P (bind c f).
Proof.
  intros Hc Hf w r w' Hrun. unfold bind in Hrun.
  destruct (c w) as [[a|] w1] eqn:Hcw.
  - destruct (Hc _ _ _ Hcw) as (e1 & Ht1 & HP1).
    destruct (Hf a _ _ _ Hrun) as (e2 & Ht2 & HP2).
    exists (e1 ++ e2). rewrite Ht2, Ht1, app_assoc.
    split; [done|by apply Forall_app].
  - injection Hrun as <- <-. by apply (Hc _ _ _ Hcw).
Qed.

Lemma appends_log (P : Event -> Prop) (e : Event) : P e -> appends P (log e).
Proof.
  intros He w r w' Hrun. injection Hrun as <- <-.
  exists [e]. split; [done|]. by constructor.
Qed.

Lemma appends_get_output_internal (net : Network) (state : GameState) (sym : Z) :
  appends not_a_lookup (get_output_internal net state sym).
Proof.
  apply appends_bind; [by apply appends_log|].
  intros _ w r w' Hrun. exists []. rewrite app_nil_r. split; [|done].
  destruct (draining w); by injection Hrun as <- <-.
Qed.

Lemma appends_average_loop (E : Env) (net : Network) (state : GameState)
    (syms : list Z) (result : Netresult) :
  appends not_a_lookup (average_loop E net state syms result).
Proof.
  revert result. induction syms as [|sym rest IH]; intros result;
    cbn [average_loop]; [apply appends_ret|].
  apply appends_bind; [apply appends_get_output_internal|]. intros t. apply IH.
Qed.

(** The evaluation never probes the cache. *)
Lemma appends_evaluate (E : Env) (net : Network) (state : GameState)
    (ensemble : Ensemble) (symmetry : Z) (write_cache : bool) (result : Netresult) :
  appends not_a_lookup
          (evaluate E net state ensemble symmetry write_cache result).
Proof.
  unfold evaluate. apply appends_bind.
  - destruct ensemble.
    + apply appends_get_output_internal.
    + apply appends_bind; [|intros; apply appends_get_output_internal].
      intros w r w' Hrun. injection Hrun as <- <-. exists [].
      cbn. by rewrite app_nil_r.
    + apply appends_average_loop.
  - intros r. apply appends_bind; [|intros; apply appends_ret].
    destruct write_cache; [|apply appends_ret].
    apply appends_bind; [by apply appends_log|].
    intros _ w r0 w' Hrun. injection Hrun as <- <-. exists [].
    cbn. by rewrite app_nil_r.
Qed.

(** The guard of the symmetry loop, spelled out. *)
Lemma early_opening_spec (E : Env) (state : GameState) :
  early_opening E state = true <->
  cfg_noise E = false /\ cfg_random_cnt E = 0%Z
  /\ (get_movenum state < Z.quot (opening_moves state (BOARD_SIZE E)) 2)%Z.
Proof.
  unfold early_opening. rewrite !andb_true_iff, negb_true_iff, Z.eqb_eq, Z.ltb_lt.
  tauto.
Qed.

(** C1 (amended). [get_output] with [read_cache] true and an ensemble other
    than [AVERAGE], on a state of the compiled board size whose own board
    hash is not in the cache.  The symmetry loop runs exactly when noise is
    off, [cfg_random_cnt] is 0 and the move number is below half the opening
    moves of the board size, that is while the game is still in the early
    opening (not past it).  Outside that window only the own hash is probed
    and evaluation follows.  Inside it the non-identity symmetries are probed
    in the order 1 to 7 up to the first hit; without a hit evaluation
    follows; on a hit under symmetry [s] the call returns the entry found,
    its policy read through the symmetry table (cell [idx] from the cached
    cell [symmetry_nn_idx_table[s][idx]]), its value recomputed by
    [get_sai_winrate] when the entry is a SAI one, and nothing else is
    called.  The evaluation that follows a miss logs no further probe. *)
Theorem get_output_probes_symmetries_in_opening (E : Env) (net : Network)
    (state : GameState) (ensemble : Ensemble) (symmetry : Z)
    (write_cache : bool) (w : World) :
  get_boardsize state = BOARD_SIZE E ->
  ensemble <> AVERAGE ->
  NNCache.lookup (get_hash state) (m_nncache w) = None ->
  let run := get_output E net state ensemble symmetry true write_cache w in
  let own := EvLookup (get_hash state) in
  let cached s := NNCache.lookup (get_symmetry_hash state s) (m_nncache w) in
  (early_opening E state = true <->
   cfg_noise E = false /\ cfg_random_cnt E = 0%Z
   /\ (get_movenum state < Z.quot (opening_moves state (BOARD_SIZE E)) 2)%Z)
  /\ (early_opening E state = false ->
      run = evaluate E net state ensemble symmetry write_cache
                     (Netresult_default E) (add_trace w [own]))
  /\ (early_opening E state = true ->
      (forall s, (1 <= s <= 7)%Z -> cached s = None) ->
      run = evaluate E net state ensemble symmetry write_cache
                     (Netresult_default E)
                     (add_trace w (own :: probes_upto state 7)))
  /\ (early_opening E state = true ->
      forall s entry,
        (1 <= s <= 7)%Z ->
        (forall s', (1 <= s' < s)%Z -> cached s' = None) ->
        cached s = Some entry ->
        exists r,
          run = (Ok r, add_trace w (own :: probes_upto state s))
          /\ length (policy r) = NUM_INTERSECTIONS E
          /\ (forall idx, (idx < NUM_INTERSECTIONS E)%nat ->
                policy r !! idx
                = Some (at_idx (policy entry)
                          (Z.to_nat (symmetry_nn_idx_table E s (Z.of_nat idx)))))
          /\ policy_pass r = policy_pass entry
          /\ alpha r = alpha entry /\ beta r = beta entry
          /\ beta2 r = beta2 entry /\ is_sai r = is_sai entry
          /\ value r
             = if is_sai entry
               then fst (sigmoid (alpha entry) (beta entry)
                           (if Color_eqb WHITE (get_to_move state)
                            then get_komi_adj state else - get_komi_adj state)
                           (beta2 entry))
               else value entry)
  /\ appends not_a_lookup
             (evaluate E net state ensemble symmetry write_cache
                       (Netresult_default E)).
Proof.
  intros Hsize Hens Hown. cbv zeta.
  split; [apply early_opening_spec|].
  split; [|split; [|split; [|apply appends_evaluate]]].
  - intros Hearly.
    by rewrite (get_output_after_probe E net state ensemble symmetry write_cache
                  false (Netresult_default E) w
                  (add_trace w [EvLookup (get_hash state)]))
      by (done || by apply probe_cache_no_symmetries).
  - intros Hearly Hmiss.
    by rewrite (get_output_after_probe E net state ensemble symmetry write_cache
                  false (Netresult_default E) w
                  (add_trace w (EvLookup (get_hash state) :: probes_upto state 7)))
      by (done || by apply probe_cache_all_miss).
  - intros Hearly s entry Hs Hmiss Hhit.
    exists (refresh_winrate state
              (set_policy entry (corrected_policy E s (policy entry)))).
    split.
    { by rewrite (get_output_after_probe E net state ensemble symmetry write_cache
                    true (refresh_winrate state
                            (set_policy entry
                               (corrected_policy E s (policy entry)))) w
                    (add_trace w (EvLookup (get_hash state) :: probes_upto state s)))
        by (done || by apply probe_cache_symmetric_hit). }
    destruct (corrected_policy_spec E s (policy entry)) as [Hlen Hcells].
    unfold refresh_winrate, get_sai_winrate. cbn [is_sai set_policy].
    destruct (is_sai entry) eqn:Hsai;
      cbn [policy policy_pass value alpha beta beta2 is_sai set_value set_policy];
      by rewrite ?Hsai.
Qed.

(** ** The [AVERAGE] ensemble *)

Lemma INR_NUM_SYMMETRIES : INR NUM_SYMMETRIES = 8.
Proof. unfold NUM_SYMMETRIES. cbn. lra. Qed.

(** One round of averaging on the policy: the cells below
    [NUM_INTERSECTIONS] each receive their eighth. *)
Lemma accumulate_policy (E : Env) (r t : Netresult) :
  (NUM_INTERSECTIONS E <= length (policy r))%nat ->
  length (policy (accumulate E r t)) = length (policy r)
  /\ forall idx, (idx < NUM_INTERSECTIONS E)%nat ->
       at_idx (policy (accumulate E r t)) idx
       = at_idx (policy r) idx + at_idx (policy t) idx / 8.
Proof.
  intros Hlen. unfold accumulate. cbn [policy].
  destruct (for_loop_insert_spec
              (fun idx p =>
                 <[idx := at_idx p idx
                          + at_idx (policy t) idx / INR NUM_SYMMETRIES]> p)
              (fun idx x => x + at_idx (policy t) idx / INR NUM_SYMMETRIES)
              (policy r) (NUM_INTERSECTIONS E))
    as (Hl & Hlow & _); [done|done|].
  split; [done|]. intros idx Hidx.
  unfold at_idx at 1. rewrite (Hlow idx Hidx). cbn [default].
  by rewrite INR_NUM_SYMMETRIES.
Qed.

(** A scalar member after averaging a list of results. *)
Lemma average_scalar (E : Env) (f : Netresult -> R) (rs : list Netresult)
    (r : Netresult) :
  (forall r t, f (accumulate E r t) = f r + f t / 8) ->
  f (foldl (accumulate E) r rs) = f r + Rsum (map f rs) / 8.
Proof.
  intros Hstep. revert r. induction rs as [|t rs IH]; intros r.
  - cbn. lra.
  - cbn [foldl map]. rewrite IH, Hstep. unfold Rsum. cbn [foldr].
    fold (Rsum (map f rs)). lra.
Qed.

(** A policy cell after averaging a list of results. *)
Lemma average_policy (E : Env) (rs : list Netresult) (r : Netresult) :
  (NUM_INTERSECTIONS E <= length (policy r))%nat ->
  length (policy (foldl (accumulate E) r rs)) = length (policy r)
  /\ forall idx, (idx < NUM_INTERSECTIONS E)%nat ->
       at_idx (policy (foldl (accumulate E) r rs)) idx
       = at_idx (policy r) idx
         + Rsum (map (fun t => at_idx (policy t) idx) rs) / 8.
Proof.
  revert r. induction rs as [|t rs IH]; intros r Hlen.
  - cbn. split; [done|]. intros. lra.
  - cbn [foldl map].
    destruct (accumulate_policy E r t Hlen) as [Hl Hcell].
    destruct (IH (accumulate E r t)) as [Hl' Hcell']; [lia|].
    split; [congruence|]. intros idx Hidx.
    rewrite Hcell', Hcell by done. unfold Rsum. cbn [foldr].
    fold (Rsum (map (fun t0 => at_idx (policy t0) idx) rs)). lra.
Qed.

(** The [AVERAGE] loop with a backend that answers: one request per
    symmetry, in order. *)
Lemma average_loop_run (E : Env) (net : Network) (state : GameState)
    (syms : list Z) (result : Netresult) (w : World) :
  draining w = false ->
  average_loop E net state syms result w
  = (Ok (foldl (accumulate E) result (map (forward_result net state) syms)),
     add_trace w (map EvForward syms)).
Proof.
  revert result w. induction syms as [|sym rest IH]; intros result w Hd.
  - cbn. by rewrite add_trace_nil.
  - cbn [average_loop map foldl]. unfold bind.
    rewrite get_output_internal_run by done.
    rewrite IH by done. by rewrite add_trace_app.
Qed.

(** [get_output] with [AVERAGE] and a backend that answers. *)
Lemma get_output_average_run (E : Env) (net : Network) (state : GameState)
    (symmetry : Z) (read_cache write_cache : bool) (w : World) :
  get_boardsize state = BOARD_SIZE E ->
  draining w = false ->
  let r := elf_flip net state
             (foldl (accumulate E) (Netresult_default E)
                    (map (forward_result net state) all_symmetries)) in
  get_output E net state AVERAGE symmetry read_cache write_cache w
  = (Ok r, world_after_average state write_cache r w).
Proof.
  intros Hsize Hd. cbv zeta. unfold get_output.
  apply Z.eqb_eq in Hsize. rewrite Hsize. cbn [negb is_average].
  rewrite andb_false_r. unfold bind at 1. cbn [ret].
  unfold evaluate. unfold bind at 1.
  rewrite average_loop_run by done.
  fold (elf_flip net state
          (foldl (accumulate E) (Netresult_default E)
                 (map (forward_result net state) all_symmetries))).
  unfold world_after_average, bind, add_trace.
  destruct write_cache.
  - rewrite cache_insert_run. cbn [m_nncache draining rng trace ret].
    by rewrite <- app_assoc.
  - cbn [m_nncache draining rng trace ret]. by rewrite app_nil_r.
Qed.

(** Inserting stores the result under its hash, whatever the hash held
    before. *)
Lemma lookup_insert (hash : Z) (r : Netresult) (c : NNCache.t) :
  (0 < NNCache.m_size c)%nat ->
  NNCache.lookup hash (NNCache.insert hash r c) = Some r.
Proof.
  unfold NNCache.lookup, NNCache.insert. intros Hsize. cbv zeta.
  destruct (_ <? _)%nat eqn:Hfull; [|cbn [NNCache.m_cache]; apply lookup_insert_eq].
  destruct (List.filter _ (NNCache.m_order c)) as [|oldest order] eqn:Horder.
  - apply Nat.ltb_lt in Hfull. cbn in Hfull. lia.
  - cbn [app NNCache.m_cache].
    assert (Hin : In oldest (List.filter (fun h => negb (h =? hash)%Z)
                                         (NNCache.m_order c)))
      by (rewrite Horder; by left).
    apply filter_In in Hin as [_ Hne].
    apply negb_true_iff, Z.eqb_neq in Hne.
    by rewrite lookup_delete_ne, lookup_insert_eq.
Qed.

(** Inserting under a hash that is absent stores the result. *)
Lemma lookup_insert_absent (hash : Z) (r : Netresult) (c : NNCache.t) :
  cache_wf c -> (0 < NNCache.m_size c)%nat ->
  NNCache.lookup hash c = None ->
  NNCache.lookup hash (NNCache.insert hash r c) = Some r.
Proof. intros _ Hsize _. by apply lookup_insert. Qed.

Lemma length_all_symmetries : length all_symmetries = 8%nat.
Proof. reflexivity. Qed.

(** [get_output] with [AVERAGE] logs no lookup, whatever the state and the
    world, whether it returns or is halted. *)
Lemma appends_get_output_average (E : Env) (net : Network) (state : GameState)
    (symmetry : Z) (read_cache write_cache : bool) :
  appends not_a_lookup
    (get_output E net state AVERAGE symmetry read_cache write_cache).
Proof.
  unfold get_output. destruct (negb _); [apply appends_ret|].
  cbn [is_average negb]. rewrite andb_false_r.
  apply appends_bind; [apply appends_ret|].
  intros [hit result]. destruct hit; [apply appends_ret|apply appends_evaluate].
Qed.

(** The flip of an ELF value goes through the mean of eight values. *)
Lemma mean_elf_flip (net : Network) (state : GameState) (results : list Netresult) :
  length results = 8%nat ->
  value (elf_flip net state
           (mkNetresult [] 0 (mean (map value results)) 0 0 0 false))
  = mean (map (fun t => value (elf_flip net state t)) results).
Proof.
  intros Hlen. unfold elf_flip. destruct (_ && _); cbn [value set_value].
  - unfold mean. rewrite !length_map, Hlen.
    do 9 (destruct results as [|? results]; try done).
    unfold Rsum. cbn [map foldr value set_value]. cbn. lra.
  - unfold mean. rewrite !length_map. do 2 f_equal.
Qed.

(** C3 (amended). [get_output] with [AVERAGE] never reads the cache: in every
    state and world its log gains no lookup.  On a state of the compiled
    board size and with a backend that answers, the log gains the eight
    forward requests, symmetries 0 to 7 in order, and with [write_cache] one
    insertion under the board hash after them; each number of the result
    (policy per intersection, [policy_pass], [alpha], [beta], [beta2],
    [value]) that a default-constructed [Netresult] holds as zero is the
    arithmetic mean over the eight evaluations, the values taken as the side
    to move sees them (for an ELF network with white to move each is one
    minus the network's output, and their mean is one minus the mean of the
    outputs); and with [write_cache] a lookup under the board hash finds
    this result afterwards, whatever entry the hash held before. *)
Theorem get_output_average (E : Env) (net : Network) (state : GameState)
    (symmetry : Z) (read_cache write_cache : bool) :
  appends not_a_lookup
    (get_output E net state AVERAGE symmetry read_cache write_cache)
  /\ forall w : World,
       get_boardsize state = BOARD_SIZE E ->
       draining w = false ->
       length (policy (Netresult_default E)) = NUM_INTERSECTIONS E ->
       let results := map (forward_result net state) all_symmetries in
       let d := Netresult_default E in
       exists r w',
         get_output E net state AVERAGE symmetry read_cache write_cache w
         = (Ok r, w')
         /\ trace w' = trace w ++ map EvForward all_symmetries
                               ++ (if write_cache
                                   then [EvInsert (get_hash state) r] else [])
         /\ m_nncache w'
            = (if write_cache
               then NNCache.insert (get_hash state) r (m_nncache w)
               else m_nncache w)
         /\ (forall idx, (idx < NUM_INTERSECTIONS E)%nat ->
               at_idx (policy d) idx = 0 ->
               policy r !! idx
               = Some (mean (map (fun t => at_idx (policy t) idx) results)))
         /\ (policy_pass d = 0 -> policy_pass r = mean (map policy_pass results))
         /\ (alpha d = 0 -> alpha r = mean (map alpha results))
         /\ (beta d = 0 -> beta r = mean (map beta results))
         /\ (beta2 d = 0 -> beta2 r = mean (map beta2 results))
         /\ (value d = 0 ->
             value r = mean (map (fun t => value (elf_flip net state t)) results)
             /\ value r
                = (let v := mean (map value results) in
                   if m_value_head_not_stm (version_flags net)
                      && Color_eqb (get_to_move state) WHITE
                   then 1 - v else v))
         /\ (write_cache = true -> (0 < NNCache.m_size (m_nncache w))%nat ->
             NNCache.lookup (get_hash state) (m_nncache w') = Some r).
Proof.
  split; [apply appends_get_output_average|].
  intros w Hsize Hd Hlen. cbv zeta.
  set (results := map (forward_result net state) all_symmetries).
  set (avg := foldl (accumulate E) (Netresult_default E) results).
  exists (elf_flip net state avg),
         (world_after_average state write_cache (elf_flip net state avg) w).
  assert (Hmean : forall f : Netresult -> R,
            mean (map f results) = Rsum (map f results) / 8).
  { intros f. unfold mean, results. rewrite !length_map, length_all_symmetries.
    cbn. f_equal. lra. }
  assert (Hscalar : forall f : Netresult -> R,
            (forall r t, f (accumulate E r t) = f r + f t / 8) ->
            f avg = f (Netresult_default E) + mean (map f results)).
  { intros f Hf. rewrite Hmean. by apply average_scalar. }
  assert (Hstep : forall r t, value (accumulate E r t) = value r + value t / 8
            /\ policy_pass (accumulate E r t) = policy_pass r + policy_pass t / 8
            /\ alpha (accumulate E r t) = alpha r + alpha t / 8
            /\ beta (accumulate E r t) = beta r + beta t / 8
            /\ beta2 (accumulate E r t) = beta2 r + beta2 t / 8).
  { intros r t. unfold accumulate. cbn [value policy_pass alpha beta beta2].
    by rewrite INR_NUM_SYMMETRIES. }
  destruct (average_policy E results (Netresult_default E)) as [Hl Hcell]; [lia|].
  assert (Hflip : policy (elf_flip net state avg) = policy avg
            /\ policy_pass (elf_flip net state avg) = policy_pass avg
            /\ alpha (elf_flip net state avg) = alpha avg
            /\ beta (elf_flip net state avg) = beta avg
            /\ beta2 (elf_flip net state avg) = beta2 avg).
  { unfold elf_flip. by destruct (_ && _). }
  destruct Hflip as (-> & -> & -> & -> & ->).
  split; [by apply get_output_average_run|].
  split; [done|]. split; [done|].
  split; [|split; [|split; [|split; [|split; [|split]]]]].
  - intros idx Hidx Hzero.
    destruct (lookup_lt_is_Some_2 (policy avg) idx) as [x Hx];
      [fold avg in Hl; lia|].
    rewrite Hx. f_equal. rewrite <- (at_idx_lookup _ _ _ Hx).
    rewrite (Hmean (fun t => at_idx (policy t) idx)).
    pose proof (Hcell idx Hidx) as Hc. rewrite Hzero in Hc.
    etransitivity; [exact Hc|lra].
  - intros Hzero. rewrite (Hscalar policy_pass), Hzero by (intros; apply Hstep). lra.
  - intros Hzero. rewrite (Hscalar alpha), Hzero by (intros; apply Hstep). lra.
  - intros Hzero. rewrite (Hscalar beta), Hzero by (intros; apply Hstep). lra.
  - intros Hzero. rewrite (Hscalar beta2), Hzero by (intros; apply Hstep). lra.
  - intros Hzero.
    rewrite <- (mean_elf_flip net state results)
      by (unfold results; by rewrite length_map, length_all_symmetries).
    assert (Hv : value avg = mean (map value results)).
    { rewrite (Hscalar value) by (intros; apply Hstep). rewrite Hzero. lra. }
    cbv zeta. unfold elf_flip.
    destruct (_ && _); cbn [value set_value]; by rewrite Hv.
  - intros -> Hpos. cbn [world_after_average m_nncache].
    by apply lookup_insert.
Qed.

(** ** The pass move in [create_children] *)

(** [allow_pass], spelled out. *)
Lemma allow_pass_spec (E : Env) (state : GameState) (stm_eval : R)
    (nodelist : list PolicyVertexPair) :
  allow_pass E state stm_eval nodelist = true <->
  cfg_dumbpass E = true
  \/ (Z.of_nat (length nodelist) <= Z.max 5 (BOARD_SIZE E))%Z
  \/ (float_0_8 < stm_eval /\ 0 <= relative_score state).
Proof.
  unfold allow_pass, relative_score.
  destruct (Z.leb_spec (Z.of_nat (length nodelist)) (Z.max 5 (BOARD_SIZE E)))
    as [Hfew|Hmany].
  { cbn. split; [intros _; right; by left|done]. }
  destruct (cfg_dumbpass E) eqn:Hdumb.
  { cbn. split; [intros _; by left|done]. }
  cbn [negb andb].
  destruct (Rltb float_0_8 stm_eval) eqn:Hwin.
  - apply Rltb_true in Hwin.
    destruct (Rleb 0 _) eqn:Hscore.
    + apply Rleb_true in Hscore. split; [intros _; right; right; done|done].
    + apply Rleb_false in Hscore.
      split; [done|]. intros [?|[?|[_ ?]]]; [done|lia|lra].
  - apply Rltb_false in Hwin.
    split; [done|]. intros [?|[?|[? _]]]; [done|lia|lra].
Qed.

(** The loop over the stabilizer for one vertex: [taken_policy] grows by
    the policy on the images under the symmetries whose image was free, and
    [chosen_vertex] stays or becomes one of these images. *)
Lemma fold_stabilizer_spec (E : Env) (state : GameState) (raw : Netresult)
    (vertex : Z) (syms : list Z) :
  forall (acc r : list bool * R * R * Z) (w w' : World),
  fold_stabilizer E state raw vertex syms acc w = (Ok r, w') ->
  exists used,
    sublist used syms
    /\ snd (fst (fst r))
       = snd (fst (fst acc)) + folded_policy state raw vertex used
    /\ (snd r = snd acc \/ In (snd r) (map (get_sym_move state vertex) used)).
Proof.
  induction syms as [|sym rest IH]; intros acc r w w' Hrun.
  - cbn in Hrun. injection Hrun as <- _. exists []. split; [constructor|].
    unfold folded_policy, Rsum. cbn. split; [lra|by left].
  - cbn [fold_stabilizer] in Hrun.
    destruct acc as [[[taken_already taken_policy] max_u] chosen].
    destruct (negb _).
    + unfold bind in Hrun.
      set (j_vertex := get_sym_move state vertex sym) in *.
      assert (Hu : exists u w1,
                (if cfg_symm_nonrandom E
                 then ret (IZR (fst (get_xy state j_vertex))
                           + 2001 / 1000 * IZR (snd (get_xy state j_vertex)))
                 else unif_law E) w = (Ok u, w1)).
      { destruct (cfg_symm_nonrandom E); by eexists _, _. }
      destruct Hu as (u & w1 & Hu). rewrite Hu in Hrun.
      destruct (IH _ _ _ _ Hrun) as (used & Hsub & Hpol & Hchosen).
      exists (sym :: used). split; [by constructor|].
      cbn [fst snd] in *. split.
      * rewrite Hpol. unfold folded_policy, Rsum. cbn [map foldr].
        fold j_vertex. lra.
      * cbn [map]. fold j_vertex.
        destruct Hchosen as [Hc|Hc]; [|right; by right].
        rewrite Hc. destruct (Rltb max_u u); [right; by left|by left].
    + destruct (IH _ _ _ _ Hrun) as (used & Hsub & Hpol & Hchosen).
      exists used. split; [by constructor|done].
Qed.

(** Every entry that the intersection loop appends is a board move: its
    prior is the policy of the network on a legal intersection and its free
    images, raised to [1/cfg_policy_temp]. *)
Lemma board_moves_board_move (E : Env) (state : GameState) (raw : Netresult)
    (intersections : list nat) :
  forall (acc r : list bool * list PolicyVertexPair * R) (w w' : World),
  board_moves E state raw intersections acc w = (Ok r, w') ->
  (forall i, In i intersections -> (i < NUM_INTERSECTIONS E)%nat) ->
  Forall (board_move E state raw) (snd (fst acc)) ->
  Forall (board_move E state raw) (snd (fst r)).
Proof.
  induction intersections as [|i rest IH]; intros acc r w w' Hrun Hin Hacc.
  - cbn in Hrun. by injection Hrun as <- _.
  - cbn [board_moves] in Hrun.
    destruct acc as [[taken_already nodelist] legal_sum].
    assert (Hrest : forall i0, In i0 rest -> (i0 < NUM_INTERSECTIONS E)%nat)
      by (intros i0 Hi0; apply Hin; by right).
    destruct (_ && _) eqn:Hlegal.
    + unfold bind in Hrun.
      destruct (fold_stabilizer E state raw (get_vertex state (Z.of_nat i))
                  (stabilizer_subgroup E state)
                  (taken_already, 0, 0, get_vertex state (Z.of_nat i)) w)
        as [[[[[t p] u] c]|] w1] eqn:Hfold; [|done].
      destruct (fold_stabilizer_spec _ _ _ _ _ _ _ _ _ Hfold)
        as (used & Hsub & Hpol & Hchosen).
      apply (IH _ _ _ _ Hrun Hrest). cbn [fst snd] in *.
      apply Forall_app. split; [done|]. constructor; [|done].
      exists i, used. cbn [fst snd].
      apply andb_true_iff in Hlegal as [Hlegal _].
      split.
      { unfold legal_intersections. apply filter_In. split; [|done].
        apply in_seq. specialize (Hin i (or_introl eq_refl)). lia. }
      split; [done|]. split; [by rewrite Hpol, Rplus_0_l|].
      destruct Hchosen as [->|Hc]; [by left|by right].
    + by apply (IH _ _ _ _ Hrun Hrest).
Qed.


Lemma Rsum_snoc (l : list R) (x : R) : Rsum (l ++ [x]) = Rsum l + x.
Proof.
  unfold Rsum. induction l as [|y l IH]; cbn [app foldr]; [lra|].
  rewrite IH. lra.
Qed.

(** The sum of the priors collected by the intersection loop. *)
Lemma board_moves_sum (E : Env) (state : GameState) (raw : Netresult)
    (intersections : list nat) :
  forall (acc r : list bool * list PolicyVertexPair * R) (w w' : World),
  board_moves E state raw intersections acc w = (Ok r, w') ->
  snd acc = Rsum (map fst (snd (fst acc))) ->
  snd r = Rsum (map fst (snd (fst r))).
Proof.
  induction intersections as [|i rest IH]; intros acc r w w' Hrun Hacc.
  - cbn in Hrun. by injection Hrun as <- _.
  - cbn [board_moves] in Hrun.
    destruct acc as [[taken_already nodelist] legal_sum].
    destruct (_ && _).
    + unfold bind in Hrun.
      destruct (returns_fold_stabilizer E state raw
                  (get_vertex state (Z.of_nat i)) (stabilizer_subgroup E state)
                  (taken_already, 0, 0, get_vertex state (Z.of_nat i)) w)
        as ([[[t p] u] c] & w1 & Hfold & _).
      rewrite Hfold in Hrun. apply (IH _ _ _ _ Hrun). cbn [fst snd] in *.
      rewrite Hacc, List.map_app. cbn [map fst]. by rewrite Rsum_snoc.
    + by apply (IH _ _ _ _ Hrun).
Qed.

(** [collect_moves] once the intersection loop has run. *)
Lemma collect_moves_run (E : Env) (state : GameState) (raw : Netresult)
    (taken_already : list bool) (board : list PolicyVertexPair)
    (legal_sum : R) (w w' : World) :
  board_moves E state raw (seq 0 (NUM_INTERSECTIONS E))
              (replicate (NUM_INTERSECTIONS E) false, [], 0) w
  = (Ok (taken_already, board, legal_sum), w') ->
  collect_moves E state raw w
  = (Ok (if allow_pass E state (value raw) board
         then (board ++ [(powf (policy_pass raw) (1 / cfg_policy_temp E), PASS E)],
               legal_sum + powf (policy_pass raw) (1 / cfg_policy_temp E))
         else (board, legal_sum)), w').
Proof.
  intros Hrun. unfold collect_moves, bind. rewrite Hrun.
  by destruct (allow_pass _ _ _ _).
Qed.


(** * The theorems at concrete inputs *)

(** ** Batch-norm fusion *)

(** C7 at a small bundle: the shapes hold, and the first channel of the
    residual-tower pair comes out as bias 0, mean [4 - 1/2], variance cell
    [1/sqrt(1 + 1e-5)]. *)
Lemma initialize_fuses_batchnorm_witness :
  tower_ok (m_conv_biases small_weights) (m_batchnorm_means small_weights)
           (m_batchnorm_stddevs small_weights)
  /\ exists b' m' v',
       m_conv_biases (fuse_forward_weights small_weights) !! 0%nat = Some b'
       /\ m_batchnorm_means (fuse_forward_weights small_weights) !! 0%nat = Some m'
       /\ m_batchnorm_stddevs (fuse_forward_weights small_weights) !! 0%nat = Some v'
       /\ b' !! 0%nat = Some 0
       /\ m' !! 0%nat = Some (4 - 1 / 2)
       /\ v' !! 0%nat = Some (1 / sqrt (1 + 1 / 100000)).
Proof.
  assert (Hrow : forall b0 m0 v0 : list R,
            length b0 = length m0 -> length v0 = length m0 ->
            tower_ok [b0] [m0] [v0]).
  { intros b0 m0 v0 Hb Hv. split; [done|]. split; [done|].
    intros [|i] b1 m1 v1 Hb1 Hm1 Hv1; cbn in *; [|done].
    simplify_eq. by split. }
  assert (H1 : tower_ok (m_conv_biases small_weights)
                 (m_batchnorm_means small_weights)
                 (m_batchnorm_stddevs small_weights)) by by apply Hrow.
  assert (H2 : tower_ok (m_conv_pol_b small_weights) (m_bn_pol_w1 small_weights)
                 (m_bn_pol_w2 small_weights)) by by apply Hrow.
  assert (H5 : tower_ok (m_vh_dense_biases small_tower)
                 (m_vh_dense_bn_means small_tower)
                 (m_vh_dense_bn_vars small_tower)) by by apply Hrow.
  split; [exact H1|].
  destruct (initialize_fuses_batchnorm small_weights small_tower H1 H2
              (conj eq_refl eq_refl) (conj eq_refl eq_refl) H5)
    as ((_ & Htower) & _).
  destruct (Htower 0%nat [1 / 2; 3] [4; 5] [1; 1] eq_refl eq_refl eq_refl)
    as (b' & m' & v' & Hb & Hm & Hv & _ & _ & _ & Hzero & Hmean & Hvar).
  exists b', m', v'. repeat split; try done.
  - apply Hzero. cbn. lia.
  - by apply Hmean.
  - by apply Hvar.
Defined.

(** ** Early exits *)

(** C10 at a 9x9 position handed to the 7x7 build, with a cache that holds
    the position's hash. *)
Lemma get_output_wrong_boardsize_witness :
  get_boardsize position9 <> BOARD_SIZE (env7 false)
  /\ get_output (env7 false) (lz_network (1 / 2)) position9 AVERAGE (-1)
                true true (ready_world own_cache)
     = (Ok (Netresult_default (env7 false)), ready_world own_cache).
Proof.
  assert (Hsize : get_boardsize position9 <> BOARD_SIZE (env7 false)) by done.
  split; [exact Hsize|].
  exact (get_output_wrong_boardsize (env7 false) (lz_network (1 / 2)) position9
           AVERAGE (-1) true true (ready_world own_cache) Hsize).
Defined.

(** C6 at a position after two passes and a fresh node. *)
Lemma create_children_after_two_passes_witness :
  (2 <= get_passes finished_position)%Z
  /\ create_children (env7 false) (lz_network (1 / 2)) finished_position 0
                     fresh_node 0 (mkEvals 0 0 0 0) (ready_world empty_cache)
     = (Ok false, (fresh_node, 0%Z, mkEvals 0 0 0 0), ready_world empty_cache).
Proof.
  assert (Hpasses : (2 <= get_passes finished_position)%Z) by done.
  split; [exact Hpasses|].
  exact (create_children_after_two_passes (env7 false) (lz_network (1 / 2))
           finished_position 0 fresh_node 0 (mkEvals 0 0 0 0)
           (ready_world empty_cache) Hpasses).
Defined.

(** C5 at a fresh node on the opening position, with the backend drained. *)
Lemma create_children_halt_witness :
  (get_passes opening_position < 2)%Z
  /\ m_expand_state fresh_node = INITIAL
  /\ expandable fresh_node 0 = true
  /\ create_children (env7 false) (lz_network (1 / 2)) opening_position 0
                     fresh_node 0 (mkEvals 0 0 0 0) (drained_world empty_cache)
     = (Halt, (fresh_node, 0%Z, mkEvals 0 0 0 0), refused_world)
  /\ exists n' nodecount' outs' w'',
       create_children (env7 false) (lz_network (1 / 2)) opening_position 0
                       fresh_node 0 (mkEvals 0 0 0 0) (resume_evals refused_world)
       = (Ok true, (n', nodecount', outs'), w'')
       /\ m_expand_state n' = EXPANDED.
Proof.
  assert (Hpasses : (get_passes opening_position < 2)%Z) by done.
  assert (Hexp : expandable fresh_node 0 = true).
  { apply Rltb_true. cbn. lra. }
  assert (Hhalt : get_output (env7 false) (lz_network (1 / 2)) opening_position
                    RANDOM_SYMMETRY (-1) (cfg_use_nncache (env7 false))
                    (cfg_use_nncache (env7 false)) (drained_world empty_cache)
                  = (Halt, refused_world)) by reflexivity.
  destruct (create_children_halt (env7 false) (lz_network (1 / 2))
              opening_position 0 fresh_node 0 (mkEvals 0 0 0 0)
              (drained_world empty_cache) refused_world
              Hpasses eq_refl Hexp Hhalt) as (_ & Hrun & Hagain).
  by repeat split.
Defined.

(** ** The cache protocol *)

(** C1 fails as stated.  On the empty board (move 0 of an opening of 8 / 2
    moves, so not past the opening) with an empty cache the seven symmetric
    hashes are probed; a hundred moves later (past the opening) only the own
    hash is. *)
Lemma symmetries_probed_in_opening_not_after :
  ((get_movenum opening_position
    < Z.quot (opening_moves opening_position 7) 2)%Z
   /\ trace (snd (get_output (env7 false) (lz_network (1 / 2)) opening_position
                             RANDOM_SYMMETRY (-1) true false
                             (ready_world empty_cache)))
      = [EvLookup 100; EvLookup 101; EvLookup 102; EvLookup 103;
         EvLookup 104; EvLookup 105; EvLookup 106; EvLookup 107;
         EvForward 0])
  /\ ((Z.quot (opening_moves late_position 7) 2
       <= get_movenum late_position)%Z
      /\ trace (snd (get_output (env7 false) (lz_network (1 / 2)) late_position
                                RANDOM_SYMMETRY (-1) true false
                                (ready_world empty_cache)))
         = [EvLookup 100; EvForward 0]).
Proof. repeat split; done. Qed.

(** C1 (amended) on the empty board with a cache that holds the hash under
    symmetry 2: symmetries 1 and 2 are probed after the own hash, and the
    entry comes back. *)
Lemma get_output_probes_symmetries_in_opening_witness :
  get_boardsize opening_position = BOARD_SIZE (env7 false)
  /\ RANDOM_SYMMETRY <> AVERAGE
  /\ NNCache.lookup (get_hash opening_position) symmetric_cache = None
  /\ exists r,
       get_output (env7 false) (lz_network (1 / 2)) opening_position
                  RANDOM_SYMMETRY (-1) true false (ready_world symmetric_cache)
       = (Ok r, add_trace (ready_world symmetric_cache)
                          [EvLookup 100; EvLookup 101; EvLookup 102])
       /\ policy_pass r = 1 / 50 /\ value r = 1 / 3.
Proof.
  assert (Hens : RANDOM_SYMMETRY <> AVERAGE) by done.
  repeat split; try done.
  destruct (get_output_probes_symmetries_in_opening (env7 false)
              (lz_network (1 / 2)) opening_position RANDOM_SYMMETRY (-1) false
              (ready_world symmetric_cache) eq_refl Hens eq_refl)
    as (_ & _ & _ & Hhit & _).
  destruct (Hhit eq_refl 2%Z (flat_result (1 / 3))) as (r & Hrun & Hr);
    [lia| |done|].
  { intros s' Hs'. assert (s' = 1%Z) as -> by lia. done. }
  exists r. split; [exact Hrun|].
  destruct Hr as (_ & _ & Hpass & _ & _ & _ & _ & Hvalue).
  by split.
Defined.

(** ** The [AVERAGE] ensemble *)

(** Equal numbers have that number as their mean. *)
Lemma mean_constant {A : Type} (f : A -> R) (l : list A) (x : R) :
  l <> [] -> (forall a, In a l -> f a = x) -> mean (map f l) = x.
Proof.
  intros Hne Hx. unfold mean. rewrite length_map.
  assert (Hsum : Rsum (map f l) = INR (length l) * x).
  { clear Hne. unfold Rsum. induction l as [|a l IH]; [cbn; lra|].
    cbn [map foldr length].
    rewrite IH, S_INR, (Hx a)
      by (by left || (intros; apply Hx; by right)).
    lra. }
  rewrite Hsum.
  assert (0 < INR (length l)).
  { apply lt_0_INR. destruct l; [done|cbn; lia]. }
  field. lra.
Qed.

(** C3 fails as stated: it speaks of every state and of a call that
    returns.  A 9x9 position handed to the 7x7 build is not evaluated: the
    call returns the default-constructed [Netresult] (value 0, where the
    eight evaluations would all give 1/2), asks the network nothing and
    inserts nothing.  And with the backend drained the call on the empty
    7x7 board is halted at its first request. *)
Lemma average_skipped_or_halted :
  (get_output (env7 false) (lz_network (1 / 2)) position9 AVERAGE (-1)
              true true (ready_world empty_cache)
   = (Ok (Netresult_default (env7 false)), ready_world empty_cache)
   /\ trace (ready_world empty_cache) = []
   /\ value (Netresult_default (env7 false)) = 0
   /\ mean (map value (map (forward_result (lz_network (1 / 2)) position9)
                           all_symmetries)) = 1 / 2)
  /\ get_output (env7 false) (lz_network (1 / 2)) opening_position AVERAGE (-1)
                true true (drained_world empty_cache)
     = (Halt, add_trace (drained_world empty_cache) [EvForward 0]).
Proof.
  split; [|reflexivity].
  split; [reflexivity|]. split; [reflexivity|]. split; [reflexivity|].
  rewrite map_map. apply mean_constant; done.
Qed.

(** C3 (amended) on the empty board with white to move, an ELF network that
    answers 1/4 under every symmetry, and a cache that already holds an
    entry under the board hash: the value returned is the mean 3/4 of the
    eight values as white sees them, the pass policy is the mean 1/50, and
    the result has replaced the entry. *)
Lemma get_output_average_witness :
  get_boardsize white_position = BOARD_SIZE (env7 false)
  /\ draining (ready_world own_cache) = false
  /\ length (policy (Netresult_default (env7 false)))
     = NUM_INTERSECTIONS (env7 false)
  /\ exists r w',
       get_output (env7 false) (elf_network (1 / 4)) white_position AVERAGE (-1)
                  true true (ready_world own_cache) = (Ok r, w')
       /\ value r = 3 / 4
       /\ policy_pass r = 1 / 50
       /\ NNCache.lookup 100 own_cache = Some (flat_result (1 / 3))
       /\ NNCache.lookup 100 (m_nncache w') = Some r.
Proof.
  repeat split; try done.
  destruct (proj2 (get_output_average (env7 false) (elf_network (1 / 4))
                     white_position (-1) true true)
                  (ready_world own_cache) eq_refl eq_refl eq_refl)
    as (r & w' & Hrun & _ & _ & _ & Hpass & _ & _ & _ & Hvalue & Hstored).
  exists r, w'. split; [exact Hrun|]. split; [|split; [|split]].
  - rewrite (proj1 (Hvalue eq_refl)). rewrite map_map.
    apply mean_constant; [done|].
    intros s _. unfold elf_flip. cbn. lra.
  - rewrite (Hpass eq_refl). rewrite map_map. by apply mean_constant.
  - reflexivity.
  - apply Hstored; [done|]. cbn. lia.
Defined.

(** ** The pass move *)



(** * Further properties *)

(** ** The symmetries of the board *)

Ltac each_symmetry s H :=
  let Hcase := fresh "Hcase" in
  assert (Hcase : (s = 0 \/ s = 1 \/ s = 2 \/ s = 3
                   \/ s = 4 \/ s = 5 \/ s = 6 \/ s = 7)%Z) by lia;
  clear H;
  destruct Hcase as [->|[->|[->|[->|[->|[->|[->| ->]]]]]]].

Lemma get_symmetry_range (x y s B : Z) :
  (0 <= s < 8)%Z -> (0 <= x < B)%Z -> (0 <= y < B)%Z ->
  (0 <= fst (get_symmetry (x, y) s B) < B)%Z
  /\ (0 <= snd (get_symmetry (x, y) s B) < B)%Z.
Proof.
  intros Hs Hx Hy. each_symmetry s Hs; cbv -[Z.sub Z.le Z.lt]; lia.
Qed.

Lemma get_symmetry_undo (v : Z * Z) (s B : Z) :
  (0 <= s < 8)%Z ->
  get_symmetry (get_symmetry v s B) (inverse_symmetry s) B = v.
Proof.
  intros Hs. destruct v as [x y].
  each_symmetry s Hs; cbv -[Z.sub]; f_equal; lia.
Qed.

Lemma inverse_symmetry_range (s : Z) :
  (0 <= s < 8)%Z -> (0 <= inverse_symmetry s < 8)%Z.
Proof. intros Hs. each_symmetry s Hs; cbv; done. Qed.

Lemma inverse_symmetry_involutive (s : Z) :
  inverse_symmetry (inverse_symmetry s) = s.
Proof.
  unfold inverse_symmetry.
  destruct (Z.eqb_spec s 5) as [->|H5]; [done|].
  destruct (Z.eqb_spec s 6) as [->|H6]; [done|].
  destruct (Z.eqb_spec s 5); [done|]. by destruct (Z.eqb_spec s 6).
Qed.

(** Row-major coordinates of an intersection and back. *)
Lemma rem_quot_encode (x y B : Z) :
  (0 <= x < B)%Z -> (0 <= y)%Z ->
  Z.rem (y * B + x) B = x /\ Z.quot (y * B + x) B = y.
Proof.
  intros Hx Hy.
  assert (0 <= y * B + x)%Z by nia.
  rewrite Z.rem_mod_nonneg, Z.quot_div_nonneg by lia.
  split.
  - rewrite Z.add_comm, Z.mod_add by lia. apply Z.mod_small. lia.
  - rewrite Z.add_comm, Z.div_add by lia. rewrite Z.div_small by lia. lia.
Qed.

Lemma rem_quot_decode (v B : Z) :
  (0 < B)%Z -> (0 <= v < B * B)%Z ->
  (0 <= Z.rem v B < B)%Z /\ (0 <= Z.quot v B < B)%Z
  /\ (Z.quot v B * B + Z.rem v B = v)%Z.
Proof.
  intros HB Hv.
  rewrite Z.rem_mod_nonneg, Z.quot_div_nonneg by lia.
  pose proof (Z.mod_pos_bound v B HB).
  pose proof (Z.div_mod v B).
  assert (0 <= v / B)%Z by (apply Z.div_pos; lia).
  assert (v / B < B)%Z by (apply Z.div_lt_upper_bound; lia).
  lia.
Qed.

Lemma symmetry_nn_idx_table_range (E : Env) (s v : Z) :
  (0 < BOARD_SIZE E)%Z -> (0 <= s < 8)%Z ->
  (0 <= v < BOARD_SIZE E * BOARD_SIZE E)%Z ->
  (0 <= symmetry_nn_idx_table E s v < BOARD_SIZE E * BOARD_SIZE E)%Z.
Proof.
  intros HB Hs Hv. unfold symmetry_nn_idx_table.
  destruct (rem_quot_decode v (BOARD_SIZE E) HB Hv) as (Hx & Hy & _).
  destruct (get_symmetry_range _ _ s _ Hs Hx Hy) as [Hx' Hy'].
  nia.
Qed.

Lemma symmetry_nn_idx_table_undo (E : Env) (s v : Z) :
  (0 < BOARD_SIZE E)%Z -> (0 <= s < 8)%Z ->
  (0 <= v < BOARD_SIZE E * BOARD_SIZE E)%Z ->
  symmetry_nn_idx_table E (inverse_symmetry s) (symmetry_nn_idx_table E s v) = v.
Proof.
  intros HB Hs Hv. unfold symmetry_nn_idx_table at 1.
  destruct (rem_quot_decode v (BOARD_SIZE E) HB Hv) as (Hx & Hy & Hv').
  unfold symmetry_nn_idx_table.
  destruct (get_symmetry_range _ _ s _ Hs Hx Hy) as [Hx' Hy'].
  destruct (rem_quot_encode _ _ _ Hx' (proj1 Hy')) as [-> ->].
  rewrite <- surjective_pairing, get_symmetry_undo by done.
  exact Hv'.
Qed.

Lemma symmetry_nn_idx_table_identity (E : Env) (v : Z) :
  (0 < BOARD_SIZE E)%Z -> (0 <= v < BOARD_SIZE E * BOARD_SIZE E)%Z ->
  symmetry_nn_idx_table E IDENTITY_SYMMETRY v = v.
Proof.
  intros HB Hv. unfold symmetry_nn_idx_table. cbn.
  by destruct (rem_quot_decode v (BOARD_SIZE E) HB Hv) as (_ & _ & ?).
Qed.

Lemma NUM_INTERSECTIONS_Z (E : Env) :
  (0 < BOARD_SIZE E)%Z ->
  Z.of_nat (NUM_INTERSECTIONS E) = (BOARD_SIZE E * BOARD_SIZE E)%Z.
Proof. intros HB. unfold NUM_INTERSECTIONS. nia. Qed.

Lemma table_nat_range (E : Env) (s : Z) (idx : nat) :
  (0 < BOARD_SIZE E)%Z -> (0 <= s < 8)%Z -> (idx < NUM_INTERSECTIONS E)%nat ->
  (table_nat E s idx < NUM_INTERSECTIONS E)%nat.
Proof.
  intros HB Hs Hidx. pose proof (NUM_INTERSECTIONS_Z E HB) as HN.
  unfold table_nat.
  pose proof (symmetry_nn_idx_table_range E s (Z.of_nat idx) HB Hs). lia.
Qed.

Lemma table_nat_undo (E : Env) (s : Z) (idx : nat) :
  (0 < BOARD_SIZE E)%Z -> (0 <= s < 8)%Z -> (idx < NUM_INTERSECTIONS E)%nat ->
  table_nat E (inverse_symmetry s) (table_nat E s idx) = idx.
Proof.
  intros HB Hs Hidx. pose proof (NUM_INTERSECTIONS_Z E HB) as HN.
  unfold table_nat.
  pose proof (symmetry_nn_idx_table_range E s (Z.of_nat idx) HB Hs).
  rewrite Z2Nat.id by lia.
  rewrite symmetry_nn_idx_table_undo by lia. lia.
Qed.

Lemma table_nat_redo (E : Env) (s : Z) (idx : nat) :
  (0 < BOARD_SIZE E)%Z -> (0 <= s < 8)%Z -> (idx < NUM_INTERSECTIONS E)%nat ->
  table_nat E s (table_nat E (inverse_symmetry s) idx) = idx.
Proof.
  intros HB Hs Hidx.
  rewrite <- (inverse_symmetry_involutive s) at 1.
  apply table_nat_undo; [done|by apply inverse_symmetry_range|done].
Qed.

Lemma table_nat_inj (E : Env) (s : Z) (i j : nat) :
  (0 < BOARD_SIZE E)%Z -> (0 <= s < 8)%Z ->
  (i < NUM_INTERSECTIONS E)%nat -> (j < NUM_INTERSECTIONS E)%nat ->
  table_nat E s i = table_nat E s j -> i = j.
Proof.
  intros HB Hs Hi Hj Heq.
  rewrite <- (table_nat_undo E s i), <- (table_nat_undo E s j) by done.
  by rewrite Heq.
Qed.

(** A loop that writes cell [f idx] in round [idx], for [f] one-to-one on
    the rounds. *)
Lemma for_loop_scatter_spec (f : nat -> nat) (g : nat -> R) (init : list R) (n k : nat) :
  (forall i, (i < n)%nat -> (f i < length init)%nat) ->
  (forall i j, (i < n)%nat -> (j < n)%nat -> f i = f j -> i = j) ->
  (k <= n)%nat ->
  let out := for_loop k (fun idx p => <[f idx := g idx]> p) init in
  length out = length init
  /\ (forall idx, (idx < k)%nat -> out !! f idx = Some (g idx))
  /\ (forall c, (forall idx, (idx < k)%nat -> f idx <> c) -> out !! c = init !! c).
Proof.
  intros Hrange Hinj. induction k as [|k IH]; intros Hk.
  - cbn. repeat split; intros; lia.
  - cbn zeta. rewrite for_loop_S. destruct IH as (Hlen & Hlow & Hrest); [lia|].
    rewrite length_insert. repeat split; [done|..].
    + intros idx Hidx. destruct (decide (idx = k)) as [->|Hne].
      * rewrite list_lookup_insert_eq; [done|]. rewrite Hlen. apply Hrange. lia.
      * rewrite list_lookup_insert_ne; [apply Hlow; lia|].
        intros Heq. apply Hne. symmetry. apply Hinj; [lia..|done].
    + intros c Hc. rewrite list_lookup_insert_ne by (apply Hc; lia).
      apply Hrest. intros idx Hidx. apply Hc. lia.
Qed.

Lemma rotate_outputs_spec (E : Env) (s : Z) (outputs init : list R) :
  (0 < BOARD_SIZE E)%Z -> (0 <= s < 8)%Z ->
  length init = NUM_INTERSECTIONS E ->
  length (rotate_outputs E s outputs init) = NUM_INTERSECTIONS E
  /\ forall idx, (idx < NUM_INTERSECTIONS E)%nat ->
       rotate_outputs E s outputs init !! table_nat E s idx
       = Some (at_idx outputs idx).
Proof.
  intros HB Hs Hlen.
  destruct (for_loop_scatter_spec (table_nat E s) (at_idx outputs) init
              (NUM_INTERSECTIONS E) (NUM_INTERSECTIONS E))
    as (Hl & Hcells & _).
  - intros i Hi. rewrite Hlen. by apply table_nat_range.
  - intros i j Hi Hj. by apply table_nat_inj.
  - done.
  - cbn zeta in Hl, Hcells. unfold rotate_outputs.
    split; [exact (eq_trans Hl Hlen) | exact Hcells].
Qed.

(** X1. [get_symmetry] keeps a vertex on the board: its closing assertions
    hold whenever its opening ones do. *)
Theorem get_symmetry_stays_on_board (x y symmetry board_size : Z) :
  (0 <= x < board_size)%Z -> (0 <= y < board_size)%Z ->
  (0 <= symmetry < Z.of_nat NUM_SYMMETRIES)%Z ->
  (0 <= fst (get_symmetry (x, y) symmetry board_size) < board_size)%Z
  /\ (0 <= snd (get_symmetry (x, y) symmetry board_size) < board_size)%Z
  /\ (symmetry = IDENTITY_SYMMETRY ->
      get_symmetry (x, y) symmetry board_size = (x, y)).
Proof.
  intros Hx Hy Hs. change (Z.of_nat NUM_SYMMETRIES) with 8%Z in Hs.
  destruct (get_symmetry_range x y symmetry board_size Hs Hx Hy) as [H1 H2].
  repeat split; try lia. by intros ->.
Qed.

Lemma get_symmetry_stays_on_board_witness :
  (0 <= fst (get_symmetry (2, 5) 5 19) < 19)%Z
  /\ (0 <= snd (get_symmetry (2, 5) 5 19) < 19)%Z
  /\ (5 = IDENTITY_SYMMETRY -> get_symmetry (2, 5) 5 19 = (2, 5))%Z.
Proof. apply get_symmetry_stays_on_board; unfold NUM_SYMMETRIES; lia. Defined.

(** X2. The eight symmetries form a group action on vertices: each one is
    undone by another ([inverse_symmetry]). *)
Theorem get_symmetry_has_inverse (vertex : Z * Z) (symmetry board_size : Z) :
  (0 <= symmetry < Z.of_nat NUM_SYMMETRIES)%Z ->
  (0 <= inverse_symmetry symmetry < Z.of_nat NUM_SYMMETRIES)%Z
  /\ get_symmetry (get_symmetry vertex symmetry board_size)
                  (inverse_symmetry symmetry) board_size = vertex.
Proof.
  intros Hs. change (Z.of_nat NUM_SYMMETRIES) with 8%Z in *.
  split; [by apply inverse_symmetry_range | by apply get_symmetry_undo].
Qed.

Lemma get_symmetry_has_inverse_witness :
  (0 <= inverse_symmetry 5 < Z.of_nat NUM_SYMMETRIES)%Z
  /\ get_symmetry (get_symmetry (2, 5)%Z 5 19) (inverse_symmetry 5) 19 = (2, 5)%Z.
Proof. apply get_symmetry_has_inverse. unfold NUM_SYMMETRIES. lia. Defined.

(** X3. Every row of [symmetry_nn_idx_table] is a permutation of the
    intersections. *)
Theorem symmetry_table_row_is_permutation (E : Env) (s : Z) :
  (0 < BOARD_SIZE E)%Z -> (0 <= s < Z.of_nat NUM_SYMMETRIES)%Z ->
  forall v, (0 <= v < BOARD_SIZE E * BOARD_SIZE E)%Z ->
    (0 <= symmetry_nn_idx_table E s v < BOARD_SIZE E * BOARD_SIZE E)%Z
    /\ symmetry_nn_idx_table E (inverse_symmetry s) (symmetry_nn_idx_table E s v) = v
    /\ symmetry_nn_idx_table E s (symmetry_nn_idx_table E (inverse_symmetry s) v) = v.
Proof.
  intros HB Hs v Hv. change (Z.of_nat NUM_SYMMETRIES) with 8%Z in Hs.
  split; [by apply symmetry_nn_idx_table_range|].
  split; [by apply symmetry_nn_idx_table_undo|].
  rewrite <- (inverse_symmetry_involutive s) at 1.
  apply symmetry_nn_idx_table_undo; [done|by apply inverse_symmetry_range|done].
Qed.

Lemma symmetry_table_row_is_permutation_witness :
  (0 <= symmetry_nn_idx_table (env7 false) 5 10 < 7 * 7)%Z
  /\ symmetry_nn_idx_table (env7 false) (inverse_symmetry 5)
       (symmetry_nn_idx_table (env7 false) 5 10) = 10%Z
  /\ symmetry_nn_idx_table (env7 false) 5
       (symmetry_nn_idx_table (env7 false) (inverse_symmetry 5) 10) = 10%Z.
Proof.
  apply (symmetry_table_row_is_permutation (env7 false) 5);
    unfold NUM_SYMMETRIES; cbn; lia.
Defined.

Lemma rotate_outputs_cell (E : Env) (s : Z) (outputs init : list R) (c : nat) :
  (0 < BOARD_SIZE E)%Z -> (0 <= s < 8)%Z ->
  length init = NUM_INTERSECTIONS E -> (c < NUM_INTERSECTIONS E)%nat ->
  rotate_outputs E s outputs init !! c
  = Some (at_idx outputs (table_nat E (inverse_symmetry s) c)).
Proof.
  intros HB Hs Hlen Hc.
  destruct (rotate_outputs_spec E s outputs init HB Hs Hlen) as [_ Hcells].
  rewrite <- (table_nat_redo E s c) at 1 by done.
  apply Hcells. apply table_nat_range; [done|by apply inverse_symmetry_range|done].
Qed.

Lemma corrected_policy_cell (E : Env) (s : Z) (cached : list R) (idx : nat) :
  (idx < NUM_INTERSECTIONS E)%nat ->
  corrected_policy E s cached !! idx = Some (at_idx cached (table_nat E s idx)).
Proof.
  intros Hidx. by destruct (corrected_policy_spec E s cached) as [_ ->].
Qed.

Lemma Rsum_Permutation (l k : list R) : Permutation l k -> Rsum l = Rsum k.
Proof.
  unfold Rsum. induction 1 as [|x l k _ IH|x y l|l k m _ IH1 _ IH2]; cbn.
  - done.
  - by rewrite IH.
  - lra.
  - congruence.
Qed.

Lemma table_nat_Permutation (E : Env) (s : Z) :
  (0 < BOARD_SIZE E)%Z -> (0 <= s < 8)%Z ->
  Permutation (map (table_nat E s) (seq 0 (NUM_INTERSECTIONS E)))
              (seq 0 (NUM_INTERSECTIONS E)).
Proof.
  intros HB Hs. apply Permutation.NoDup_Permutation.
  - apply NoDup_map_NoDup_ForallPairs; [|apply seq_NoDup].
    intros i j Hi Hj. apply in_seq in Hi, Hj.
    apply table_nat_inj; [done|done|lia..].
  - apply seq_NoDup.
  - intros c. rewrite in_map_iff. split.
    + intros (i & <- & Hi). apply in_seq in Hi. apply in_seq.
      pose proof (table_nat_range E s i HB Hs). lia.
    + intros Hc. apply in_seq in Hc.
      exists (table_nat E (inverse_symmetry s) c). split.
      * apply table_nat_redo; [done|done|lia].
      * apply in_seq.
        pose proof (table_nat_range E (inverse_symmetry s) c HB
                      (inverse_symmetry_range s Hs)). lia.
Qed.

Lemma list_as_cells (l : list R) :
  l = map (at_idx l) (seq 0 (length l)).
Proof.
  apply list_eq. intros i. rewrite lookup_map.
  destruct (l !! i) as [x|] eqn:Hx.
  - rewrite lookup_seq_lt by (by eapply lookup_lt_Some). cbn.
    unfold at_idx. by rewrite Hx.
  - apply lookup_ge_None in Hx. by rewrite lookup_seq_ge.
Qed.

Lemma corrected_policy_as_cells (E : Env) (s : Z) (cached : list R) :
  corrected_policy E s cached
  = map (at_idx cached) (map (table_nat E s) (seq 0 (NUM_INTERSECTIONS E))).
Proof.
  destruct (corrected_policy_spec E s cached) as [Hlen Hcells].
  apply list_eq. intros i. rewrite !lookup_map.
  destruct (decide (i < NUM_INTERSECTIONS E)%nat) as [Hi|Hi].
  - rewrite Hcells by done. by rewrite lookup_seq_lt.
  - rewrite lookup_seq_ge by lia. apply lookup_ge_None. lia.
Qed.

(** X4. The policy scatter at the end of [get_output_internal] writes every
    cell of [result.policy] exactly once: cell [c] receives the output at
    the cell that the inverse symmetry sends [c] to, and nothing of the
    default-constructed policy survives. *)
Theorem get_output_internal_fills_policy (E : Env) (symmetry : Z)
    (outputs result_policy : list R) (c : nat) :
  (0 < BOARD_SIZE E)%Z -> (0 <= symmetry < Z.of_nat NUM_SYMMETRIES)%Z ->
  length result_policy = NUM_INTERSECTIONS E ->
  (c < NUM_INTERSECTIONS E)%nat ->
  length (rotate_outputs E symmetry outputs result_policy) = NUM_INTERSECTIONS E
  /\ rotate_outputs E symmetry outputs result_policy !! c
     = Some (at_idx outputs
               (Z.to_nat (symmetry_nn_idx_table E (inverse_symmetry symmetry)
                                                (Z.of_nat c)))).
Proof.
  intros HB Hs Hlen Hc. change (Z.of_nat NUM_SYMMETRIES) with 8%Z in Hs.
  split; [by apply rotate_outputs_spec | by apply rotate_outputs_cell].
Qed.

(** X5. Correcting by the symmetry that the evaluation was rotated with
    gives back the raw network outputs: [probe_cache]'s gather undoes
    [get_output_internal]'s scatter. *)
Theorem corrected_policy_undoes_rotation (E : Env) (symmetry : Z)
    (outputs result_policy : list R) (idx : nat) :
  (0 < BOARD_SIZE E)%Z -> (0 <= symmetry < Z.of_nat NUM_SYMMETRIES)%Z ->
  length result_policy = NUM_INTERSECTIONS E ->
  (idx < NUM_INTERSECTIONS E)%nat ->
  corrected_policy E symmetry (rotate_outputs E symmetry outputs result_policy) !! idx
  = Some (at_idx outputs idx).
Proof.
  intros HB Hs Hlen Hidx. change (Z.of_nat NUM_SYMMETRIES) with 8%Z in Hs.
  rewrite corrected_policy_cell by done.
  destruct (rotate_outputs_spec E symmetry outputs result_policy HB Hs Hlen)
    as [_ Hcells].
  unfold at_idx at 1. by rewrite Hcells.
Qed.

(** X6. The policy correction of [probe_cache] permutes the cached policy:
    under the identity symmetry it changes nothing, and under every symmetry
    the total policy mass is the cached one. *)
Theorem corrected_policy_preserves_mass (E : Env) (sym : Z) (cached : list R) :
  (0 < BOARD_SIZE E)%Z -> (0 <= sym < Z.of_nat NUM_SYMMETRIES)%Z ->
  length cached = NUM_INTERSECTIONS E ->
  Permutation (corrected_policy E sym cached) cached
  /\ Rsum (corrected_policy E sym cached) = Rsum cached
  /\ (sym = IDENTITY_SYMMETRY -> corrected_policy E sym cached = cached).
Proof.
  intros HB Hs Hlen. change (Z.of_nat NUM_SYMMETRIES) with 8%Z in Hs.
  assert (Hperm : Permutation (corrected_policy E sym cached) cached).
  { rewrite corrected_policy_as_cells.
    rewrite (list_as_cells cached) at 2.
    rewrite Hlen. apply Permutation_map. by apply table_nat_Permutation. }
  split; [done|]. split; [by apply Rsum_Permutation|].
  intros ->. apply list_eq. intros i.
  destruct (decide (i < NUM_INTERSECTIONS E)%nat) as [Hi|Hi].
  - rewrite corrected_policy_cell by done. unfold table_nat.
    pose proof (NUM_INTERSECTIONS_Z E HB).
    rewrite symmetry_nn_idx_table_identity by lia. rewrite Nat2Z.id.
    unfold at_idx. destruct (cached !! i) eqn:Hc; [done|].
    apply lookup_ge_None in Hc. lia.
  - destruct (corrected_policy_spec E IDENTITY_SYMMETRY cached) as [Hl _].
    rewrite !(proj2 (lookup_ge_None _ _)); [done|lia..].
Qed.

(** ** [softmax], [reduce_mean] and the range of [sigmoid] *)

(** *** [softmax] *)

Lemma max_element_fold_ge (l : list R) (m : R) :
  let r := foldl (fun largest x => if Rltb largest x then x else largest) m l in
  m <= r /\ (forall x, In x l -> x <= r) /\ (r = m \/ In r l).
Proof.
  revert m. induction l as [|y l IH]; intros m; cbn.
  - split; [lra|]. split; [done|by left].
  - decide_R m y.
    + destruct (IH y) as (H1 & H2 & H3). split; [lra|].
      split.
      * intros x [<-|Hx]; [done|by apply H2].
      * right. destruct H3 as [->|H3]; [by left|by right].
    + destruct (IH m) as (H1 & H2 & H3). split; [done|].
      split.
      * intros x [<-|Hx]; [lra|by apply H2].
      * destruct H3 as [H3|H3]; [by left|right; by right].
Qed.

(** [max_element] is an upper bound of the input and one of its cells. *)
Lemma max_element_spec (input : list R) :
  input <> [] ->
  (forall x, In x input -> x <= max_element input)
  /\ In (max_element input) input.
Proof.
  destruct input as [|first rest]; [done|]. intros _. cbn [max_element].
  destruct (max_element_fold_ge rest first) as (H1 & H2 & H3). split.
  - intros x [<-|Hx]; [done|by apply H2].
  - destruct H3 as [->|H3]; [by left|by right].
Qed.

(** The first loop of [softmax]: the exponentials in order, and their sum. *)
Lemma softmax_loop (alpha temperature : R) (input output : list R) (denom : R) :
  foldl (fun '(output, denom) in_val =>
           let val := exp ((in_val - alpha) / temperature) in
           (output ++ [val], denom + val))
        (output, denom) input
  = (output ++ map (fun in_val => exp ((in_val - alpha) / temperature)) input,
     denom + Rsum (map (fun in_val => exp ((in_val - alpha) / temperature)) input)).
Proof.
  revert output denom. induction input as [|x input IH]; intros output denom.
  - cbn. by rewrite app_nil_r, Rplus_0_r.
  - cbn [foldl map]. rewrite IH. rewrite <- app_assoc. cbn [app].
    f_equal. unfold Rsum. cbn [foldr]. lra.
Qed.

Lemma softmax_exponentials_unfold (input : list R) (temperature : R) :
  softmax_exponentials input temperature
  = let vals := map (fun in_val =>
                       exp ((in_val - max_element input) / temperature)) input in
    (vals, Rsum vals).
Proof.
  unfold softmax_exponentials. rewrite softmax_loop. cbn [app].
  by rewrite Rplus_0_l.
Qed.

Lemma softmax_unfold (input : list R) (temperature : R) :
  softmax input temperature
  = let vals := map (fun in_val =>
                       exp ((in_val - max_element input) / temperature)) input in
    map (fun out => out / Rsum vals) vals.
Proof.
  unfold softmax. by rewrite softmax_exponentials_unfold.
Qed.

Lemma Rsum_pos (l : list R) :
  l <> [] -> (forall x, In x l -> 0 < x) -> 0 < Rsum l.
Proof.
  unfold Rsum. induction l as [|x l IH]; [done|]. intros _ Hpos. cbn [foldr].
  destruct l as [|y l].
  - cbn. pose proof (Hpos x (or_introl eq_refl)). lra.
  - assert (0 < foldr Rplus 0 (y :: l)).
    { apply IH; [done|]. intros z Hz. apply Hpos. by right. }
    pose proof (Hpos x (or_introl eq_refl)). lra.
Qed.

Lemma Rsum_ge_member (l : list R) (x : R) :
  (forall y, In y l -> 0 <= y) -> In x l -> x <= Rsum l.
Proof.
  unfold Rsum. induction l as [|y l IH]; [done|]. intros Hpos [->|Hx]; cbn [foldr].
  - assert (0 <= foldr Rplus 0 l).
    { clear IH. induction l as [|z l IH]; cbn; [lra|].
      assert (0 <= z) by (apply Hpos; right; by left).
      assert (0 <= foldr Rplus 0 l).
      { apply IH. intros w [<-|Hw]; apply Hpos; [by left|right; by right]. }
      lra. }
    lra.
  - assert (0 <= y) by (apply Hpos; by left).
    assert (x <= foldr Rplus 0 l).
    { apply IH; [|done]. intros z Hz. apply Hpos. by right. }
    lra.
Qed.

Lemma Rsum_scale (l : list R) (d : R) :
  Rsum (map (fun out => out / d) l) = Rsum l / d.
Proof.
  unfold Rsum. induction l as [|x l IH]; cbn [map foldr]; [lra|].
  rewrite IH. lra.
Qed.

(** *** [reduce_mean] *)

(** The accumulation [output[c] += layer[area*c + i]] for [i < k]. *)
Lemma reduce_mean_inner (layer output : list R) (area c k : nat) :
  (c < length output)%nat ->
  let out := for_loop k
               (fun i output =>
                  <[c := at_idx output c + at_idx layer (area * c + i)]> output)
               output in
  length out = length output
  /\ out !! c = Some (at_idx output c
                      + Rsum (map (fun i => at_idx layer (area * c + i)) (seq 0 k)))
  /\ forall j, j <> c -> out !! j = output !! j.
Proof.
  intros Hc. induction k as [|k IH].
  - cbn. split; [done|]. split; [|done]. unfold at_idx, Rsum. cbn.
    destruct (lookup_lt_is_Some_2 output c Hc) as [x ->]. cbn. f_equal. lra.
  - cbn zeta. rewrite for_loop_S. destruct IH as (Hlen & Hcell & Hrest).
    rewrite length_insert. repeat split; [done|..].
    + rewrite list_lookup_insert_eq by lia. f_equal.
      rewrite (at_idx_lookup _ _ _ Hcell).
      rewrite seq_S, map_app. cbn [map Nat.add].
      unfold Rsum. rewrite foldr_app. cbn [foldr].
      assert (Hsplit : forall (l : list R) (a : R),
                 foldr Rplus a l = foldr Rplus 0 l + a).
      { clear. induction l as [|x l IH]; intros a; cbn; [lra|].
        rewrite IH. lra. }
      rewrite (Hsplit _ (_ + 0)). lra.
    + intros j Hj. rewrite list_lookup_insert_ne by done. by apply Hrest.
Qed.

Lemma reduce_mean_outer (layer : list R) (area channels k : nat) :
  (k <= channels)%nat ->
  let out :=
    for_loop k
      (fun c output =>
         let output := <[c := 0]> output in
         let output :=
           for_loop area
             (fun i output =>
                <[c := at_idx output c + at_idx layer (area * c + i)]> output)
             output in
         <[c := at_idx output c / INR area]> output)
      (replicate channels 0) in
  length out = channels
  /\ forall c, (c < k)%nat ->
       out !! c
       = Some (Rsum (map (fun i => at_idx layer (area * c + i)) (seq 0 area))
               / INR area).
Proof.
  induction k as [|k IH]; intros Hk.
  - cbn. split; [by rewrite length_replicate|]. intros; lia.
  - cbn zeta. rewrite for_loop_S. destruct IH as (Hlen & Hcells); [lia|].
    set (prev := for_loop k _ _) in *.
    destruct (reduce_mean_inner layer (<[k := 0]> prev) area k area)
      as (Hl & Hcell & Hrest).
    { rewrite length_insert. lia. }
    cbn zeta in Hl, Hcell, Hrest. rewrite length_insert in Hl.
    rewrite length_insert, Hl. split; [done|].
    intros c Hc. destruct (decide (c = k)) as [->|Hne].
    + rewrite list_lookup_insert_eq by lia. f_equal.
      rewrite (at_idx_lookup _ _ _ Hcell).
      unfold at_idx at 1. rewrite list_lookup_insert_eq by lia. cbn. f_equal. lra.
    + rewrite list_lookup_insert_ne by done. rewrite Hrest by done.
      rewrite list_lookup_insert_ne by done. apply Hcells. lia.
Qed.

(** A block of a vector, cell by cell. *)
Lemma block_as_cells (layer : list R) (start len : nat) :
  (start + len <= length layer)%nat ->
  map (fun i => at_idx layer (start + i)) (seq 0 len)
  = take len (drop start layer).
Proof.
  intros Hlen. apply list_eq. intros i. rewrite lookup_map.
  destruct (decide (i < len)%nat) as [Hi|Hi].
  - rewrite lookup_seq_lt by done. rewrite lookup_take_lt by done.
    rewrite lookup_drop. cbn. unfold at_idx.
    destruct (lookup_lt_is_Some_2 layer (start + i)) as [x ->]; [lia|done].
  - rewrite lookup_seq_ge by lia. rewrite lookup_take_ge by lia. done.
Qed.

(** *** The range of [sigmoid] *)

Lemma exp_ge_1 (x : R) : 0 <= x -> 1 <= exp x.
Proof.
  intros Hx. destruct (Req_dec x 0) as [->|Hne]; [rewrite exp_0; lra|].
  pose proof (exp_ineq1 x). lra.
Qed.

Lemma sigmoid_ret_range (absarg : R) :
  0 <= absarg ->
  let ret := if Rltb 30 absarg then exp (- absarg) else 1 / (1 + exp absarg) in
  0 < ret <= 1 / 2 /\ (0 < absarg -> ret < 1 / 2).
Proof.
  intros Habs. cbn zeta.
  pose proof (exp_pos absarg) as Hpos.
  decide_R 30 absarg.
  - (* exp (-absarg) = 1 / exp absarg, and exp absarg > 1 + absarg > 31 *)
    rewrite exp_Ropp.
    assert (H31 : 31 < exp absarg) by (pose proof (exp_ineq1 absarg); lra).
    assert (Hinv : / exp absarg < / 2).
    { apply Rinv_lt_contravar; nra. }
    pose proof (Rinv_0_lt_compat _ Hpos). split; [lra|]. intros _. lra.
  - pose proof (exp_ge_1 absarg Habs) as H1.
    assert (Hinv : / (1 + exp absarg) <= / 2).
    { apply Rinv_le_contravar; lra. }
    assert (0 < / (1 + exp absarg)) by (apply Rinv_0_lt_compat; lra).
    split; [lra|]. intros Hlt.
    assert (1 < exp absarg).
    { pose proof (exp_ineq1 absarg). lra. }
    assert (/ (1 + exp absarg) < / 2).
    { apply Rinv_lt_contravar; nra. }
    lra.
Qed.

Lemma sigmoid_as_ret (alpha beta bonus beta2 : R) :
  let arg := sigmoid_arg alpha beta bonus beta2 in
  let ret := if Rltb 30 (Rabs arg) then exp (- Rabs arg)
             else 1 / (1 + exp (Rabs arg)) in
  sigmoid alpha beta bonus beta2
  = if Rltb arg 0 then (ret, 1 - ret) else (1 - ret, ret).
Proof. reflexivity. Qed.

Lemma exp_le_1 (x : R) : x <= 0 -> exp x <= 1.
Proof.
  intros [Hlt| ->]; [|rewrite exp_0; lra].
  rewrite <- exp_0. left. by apply exp_increasing.
Qed.

Lemma Rsum_le_length (l : list R) :
  (forall x, In x l -> x <= 1) -> Rsum l <= INR (length l).
Proof.
  unfold Rsum. induction l as [|x l IH]; intros Hle; [cbn; lra|].
  cbn [foldr length]. rewrite S_INR.
  pose proof (Hle x (or_introl eq_refl)).
  assert (foldr Rplus 0 l <= INR (length l)).
  { apply IH. intros y Hy. apply Hle. by right. }
  lra.
Qed.

(** X7. [softmax] returns a probability distribution: as many cells as the
    input, each in (0, 1], adding up to 1.  Its first loop never takes the
    exponential of a positive number: every exponential that it pushes is at
    most 1 (the largest input is subtracted first), and their sum [denom],
    by which the second loop divides, is at least 1 and at most the number
    of inputs. *)
Theorem softmax_is_distribution (input : list R) (temperature : R) :
  input <> [] -> 0 < temperature ->
  let output := fst (softmax_exponentials input temperature) in
  let denom := snd (softmax_exponentials input temperature) in
  length output = length input
  /\ (forall val, In val output -> 0 < val <= 1)
  /\ 1 <= denom <= INR (length input)
  /\ length (softmax input temperature) = length input
  /\ (forall out, In out (softmax input temperature) -> 0 < out <= 1)
  /\ Rsum (softmax input temperature) = 1.
Proof.
  intros Hne Ht. rewrite softmax_unfold, softmax_exponentials_unfold.
  cbn zeta. cbn [fst snd].
  set (vals := map _ input).
  destruct (max_element_spec input Hne) as [Hmax Hin].
  assert (Hvals : forall x, In x vals -> 0 < x <= 1).
  { intros x (v & <- & Hv)%in_map_iff. split; [apply exp_pos|].
    apply exp_le_1. specialize (Hmax v Hv).
    pose proof (Rinv_0_lt_compat _ Ht). unfold Rdiv. nra. }
  assert (Hvals_ne : vals <> []).
  { subst vals. destruct input; [done|]. cbn. discriminate. }
  assert (Hden : 0 < Rsum vals).
  { apply Rsum_pos; [done|]. intros x Hx. by apply Hvals. }
  assert (Hone : In 1 vals).
  { apply in_map_iff. exists (max_element input). split; [|done].
    replace ((max_element input - max_element input) / temperature) with 0
      by (field; lra).
    apply exp_0. }
  assert (Hlen : length vals = length input) by (subst vals; by rewrite length_map).
  split; [done|]. split; [done|]. split.
  { split.
    - apply Rsum_ge_member; [|done]. intros y Hy. left. by apply Hvals.
    - rewrite <- Hlen. apply Rsum_le_length. intros x Hx. by apply Hvals. }
  split; [by rewrite length_map|]. split.
  - intros out (x & <- & Hx)%in_map_iff. destruct (Hvals x Hx) as [Hpos _].
    assert (x <= Rsum vals).
    { apply Rsum_ge_member; [|done]. intros y Hy. left. by apply Hvals. }
    split.
    + by apply Rdiv_lt_0_compat.
    + apply Rmult_le_reg_r with (Rsum vals); [done|].
      unfold Rdiv. rewrite Rmult_assoc, Rinv_l by lra. lra.
  - rewrite Rsum_scale. field. lra.
Qed.

Lemma max_element_shift (input : list R) (c : R) :
  input <> [] ->
  max_element (map (fun x => x + c) input) = max_element input + c.
Proof.
  destruct input as [|first rest]; [done|]. intros _. cbn [max_element map].
  revert first. induction rest as [|y rest IH]; intros first; [done|].
  cbn [map foldl].
  decide_R first y; decide_R (first + c) (y + c); try lra; apply IH.
Qed.

(** X8. [softmax] does not change when the same number is added to every
    input: only the differences to the largest input are used. *)
Theorem softmax_shift_invariant (input : list R) (temperature c : R) :
  softmax (map (fun in_val => in_val + c) input) temperature
  = softmax input temperature.
Proof.
  destruct input as [|first rest]; [done|].
  rewrite !softmax_unfold. cbn zeta.
  rewrite max_element_shift by done.
  assert (Hvals :
    map (fun in_val => exp ((in_val - (max_element (first :: rest) + c))
                            / temperature))
        (map (fun in_val => in_val + c) (first :: rest))
    = map (fun in_val => exp ((in_val - max_element (first :: rest))
                              / temperature)) (first :: rest)).
  { rewrite map_map. apply map_ext. intros x. f_equal. lra. }
  by rewrite Hvals.
Qed.

(** X9. [reduce_mean] replaces the layer by one cell per channel, the
    arithmetic mean of that channel's block of [area] cells. *)
Theorem reduce_mean_is_block_mean (layer : list R) (area : nat) :
  (0 < area)%nat -> (area * (length layer / area) = length layer)%nat ->
  length (reduce_mean layer area) = (length layer / area)%nat
  /\ forall c, (c < length layer / area)%nat ->
       reduce_mean layer area !! c
       = Some (mean (take area (drop (area * c) layer))).
Proof.
  intros Harea Hshape. unfold reduce_mean. cbn zeta.
  destruct (reduce_mean_outer layer area (length layer / area)
              (length layer / area) (le_n _)) as [Hlen Hcells].
  cbn zeta in Hlen, Hcells. split; [done|].
  intros c Hc. rewrite Hcells by done.
  assert (Hfit : (area * c + area <= length layer)%nat) by nia.
  rewrite block_as_cells by done.
  unfold mean. rewrite length_take, length_drop.
  by replace (area `min` (length layer - area * c))%nat with area by lia.
Qed.

Lemma reduce_mean_is_block_mean_witness :
  length (reduce_mean [1; 3; 5; 7; 2; 2] 2) = (6 / 2)%nat
  /\ forall c, (c < 6 / 2)%nat ->
       reduce_mean [1; 3; 5; 7; 2; 2] 2 !! c
       = Some (mean (take 2 (drop (2 * c) [1; 3; 5; 7; 2; 2]))).
Proof. apply (reduce_mean_is_block_mean [1; 3; 5; 7; 2; 2] 2); cbn; lia. Defined.

Lemma softmax_is_distribution_witness :
  length (fst (softmax_exponentials [1; 3] 1)) = length [1; 3]
  /\ (forall val, In val (fst (softmax_exponentials [1; 3] 1)) -> 0 < val <= 1)
  /\ 1 <= snd (softmax_exponentials [1; 3] 1) <= INR (length [1; 3])
  /\ length (softmax [1; 3] 1) = length [1; 3]
  /\ (forall out, In out (softmax [1; 3] 1) -> 0 < out <= 1)
  /\ Rsum (softmax [1; 3] 1) = 1.
Proof. apply (softmax_is_distribution [1; 3] 1); [done|lra]. Defined.

Lemma sigmoid_is_probability_core (alpha beta bonus beta2 : R) :
  0 < fst (sigmoid alpha beta bonus beta2) < 1
  /\ (1 / 2 <= fst (sigmoid alpha beta bonus beta2)
      <-> 0 <= sigmoid_arg alpha beta bonus beta2).
Proof.
  rewrite sigmoid_as_ret. cbn zeta.
  set (arg := sigmoid_arg alpha beta bonus beta2).
  destruct (sigmoid_ret_range (Rabs arg) (Rabs_pos arg)) as [Hret Hstrict].
  cbn zeta in Hret, Hstrict.
  set (ret := if Rltb 30 (Rabs arg) then _ else _) in *.
  decide_R arg 0; cbn [fst snd].
  - assert (0 < Rabs arg) by (apply Rabs_pos_lt; lra).
    specialize (Hstrict H). repeat split; try lra.
  - repeat split; try lra.
Qed.

(** Exact arithmetic meets the further requirements too. *)
Lemma exact_arithmetic_monotone : monotone_rounding exact_arithmetic.
Proof.
  constructor; cbn; intros; try done.
  - by apply exp_ge_1.
  - replace x with (- - x) by lra. rewrite exp_Ropp.
    assert (31 < exp (- x)) by (pose proof (exp_ineq1 (- x)); lra).
    assert (/ exp (- x) < / 2) by (apply Rinv_lt_contravar; nra).
    lra.
Qed.

Lemma to_float_0 (fp : Rounding) (H : ieee_like fp) : to_float fp 0 = 0.
Proof.
  pose proof (to_float_odd fp H 0) as Hodd. rewrite Ropp_0 in Hodd. lra.
Qed.

(** [ret] is at most a half once [std::exp] is at least 1 on the
    non-negative numbers and small below -30. *)
Lemma ret_half (fp : Rounding) (H : ieee_like fp) (Hm : monotone_rounding fp)
    (a : R) :
  0 <= a ->
  0 <= (if Rltb 30 a then exp_d fp (- a)
        else to_double fp (1 / to_double fp (1 + exp_d fp a))) <= 1 / 2.
Proof.
  intros Ha. decide_R 30 a.
  - split; [apply (exp_d_nonneg fp H)|apply (exp_d_small fp Hm); lra].
  - pose proof (exp_d_ge_1 fp Hm a Ha) as He.
    assert (H2 : 2 <= to_double fp (1 + exp_d fp a)).
    { rewrite <- (to_double_2 fp H). apply (to_double_mono fp H). lra. }
    assert (Hinv : 0 < 1 / to_double fp (1 + exp_d fp a) <= 1 / 2).
    { pose proof (Rinv_le_contravar 2 (to_double fp (1 + exp_d fp a))) as Hi.
      pose proof (Rinv_0_lt_compat (to_double fp (1 + exp_d fp a))) as Hpos.
      unfold Rdiv. lra. }
    pose proof (to_double_mono fp H 0 (1 / to_double fp (1 + exp_d fp a))) as Hlo.
    pose proof (to_double_mono fp H (1 / to_double fp (1 + exp_d fp a)) (1 / 2))
      as Hhi.
    rewrite (to_double_0 fp H) in Hlo. rewrite (to_double_half fp H) in Hhi.
    split; [apply Hlo | apply Hhi]; lra.
Qed.

(** The pair that [sigmoid_rounded] returns, by the sign of the rounded
    argument. *)
Lemma sigmoid_rounded_range (fp : Rounding) (H : ieee_like fp)
    (Hm : monotone_rounding fp) (alpha beta bonus beta2 : R) :
  let p := sigmoid_rounded fp alpha beta bonus beta2 in
  let arg := sigmoid_arg_rounded fp alpha beta bonus beta2 in
  (arg < 0 -> 0 <= fst p <= 1 / 2 /\ 1 / 2 <= snd p <= 1)
  /\ (0 <= arg -> 1 / 2 <= fst p <= 1 /\ 0 <= snd p <= 1 / 2)
  /\ Rabs (fst p + snd p - 1) < 1 / 1000000.
Proof.
  unfold sigmoid_rounded, sigmoid_arg_rounded. cbv zeta.
  set (arg := to_float fp _).
  pose proof (ret_half fp H Hm (Rabs arg) (Rabs_pos arg)) as Hret.
  set (ret := if Rltb 30 (Rabs arg) then _ else _) in *.
  assert (Hlo : 0 <= to_float fp ret <= 1 / 2).
  { pose proof (to_float_mono fp Hm 0 ret) as Hl.
    pose proof (to_float_mono fp Hm ret (1 / 2)) as Hh.
    rewrite (to_float_0 fp H) in Hl. rewrite (to_float_half fp H) in Hh.
    split; [apply Hl | apply Hh]; lra. }
  assert (Hd : 1 / 2 <= to_double fp (1 - ret) <= 1).
  { pose proof (to_double_mono fp H (1 / 2) (1 - ret)) as Hl.
    pose proof (to_double_mono fp H (1 - ret) 1) as Hh.
    rewrite (to_double_half fp H) in Hl. rewrite (to_double_1 fp H) in Hh.
    split; [apply Hl | apply Hh]; lra. }
  assert (Hhi : 1 / 2 <= to_float fp (to_double fp (1 - ret)) <= 1).
  { pose proof (to_float_mono fp Hm (1 / 2) (to_double fp (1 - ret))) as Hl.
    pose proof (to_float_mono fp Hm (to_double fp (1 - ret)) 1) as Hh.
    rewrite (to_float_half fp H) in Hl. rewrite (to_float_1 fp Hm) in Hh.
    split; [apply Hl | apply Hh]; lra. }
  assert (Hsum : Rabs (to_float fp ret + to_float fp (to_double fp (1 - ret)) - 1)
                 < 1 / 1000000).
  { assert (Hone : 0 <= 1 - ret <= 1) by lra.
    assert (Hr01 : 0 <= ret <= 1) by lra.
    assert (Hd01 : 0 <= to_double fp (1 - ret) <= 1) by lra.
    pose proof (to_double_error fp H (1 - ret) Hone) as Ed.
    pose proof (to_float_error fp H _ Hd01) as Ef1.
    pose proof (to_float_error fp H ret Hr01) as Ef2.
    assert (Hsmall : / 2 ^ 24 + / 2 ^ 24 + / 2 ^ 53 < 1 / 1000000).
    { assert (/ 2 ^ 53 <= / 2 ^ 24).
      { apply Rinv_le_contravar; [lra|]. apply Rle_pow; [lra|lia]. }
      assert (/ 2 ^ 24 < 1 / 3000000).
      { unfold Rdiv. rewrite Rmult_1_l. apply Rinv_lt_contravar; lra. }
      lra. }
    apply Rabs_bound in Ed, Ef1, Ef2. apply Rabs_def1; lra. }
  decide_R arg 0; cbn [fst snd].
  - split; [done|]. split; [lra|]. exact Hsum.
  - split; [lra|]. split; [done|].
    replace (to_float fp (to_double fp (1 - ret)) + to_float fp ret - 1)
      with (to_float fp ret + to_float fp (to_double fp (1 - ret)) - 1) by lra.
    exact Hsum.
Qed.

(** X10. With the roundings of the C++ written out, under round-to-nearest
    and a sound [std::exp], both members of the pair that [sigmoid] returns
    lie between 0 and 1, the bounds included (the C++ does return 0 and 1),
    they add up to 1 within 1e-6, and the first member is at most a half
    when the rounded argument of the logistic is negative and at least a
    half otherwise, the second member the other way round. *)
Theorem sigmoid_rounded_is_probability (fp : Rounding)
    (alpha beta bonus beta2 : R) :
  ieee_like fp -> monotone_rounding fp ->
  let p := sigmoid_rounded fp alpha beta bonus beta2 in
  let arg := sigmoid_arg_rounded fp alpha beta bonus beta2 in
  0 <= fst p <= 1
  /\ 0 <= snd p <= 1
  /\ Rabs (fst p + snd p - 1) < 1 / 1000000
  /\ (arg < 0 -> fst p <= 1 / 2 <= snd p)
  /\ (0 <= arg -> snd p <= 1 / 2 <= fst p).
Proof.
  intros H Hm. cbv zeta.
  destruct (sigmoid_rounded_range fp H Hm alpha beta bonus beta2)
    as (Hneg & Hpos & Hsum). cbv zeta in Hneg, Hpos, Hsum.
  destruct (Rlt_le_dec (sigmoid_arg_rounded fp alpha beta bonus beta2) 0)
    as [Harg|Harg].
  - destruct (Hneg Harg). repeat split; try lra; intros; lra.
  - destruct (Hpos Harg). repeat split; try lra; intros; lra.
Qed.

(** *** An arithmetic that rounds *)

Lemma Int_part_bounds (r : R) : IZR (Int_part r) <= r < IZR (Int_part r) + 1.
Proof. destruct (base_Int_part r). lra. Qed.

Lemma Int_part_unique (r : R) (n : Z) : IZR n <= r < IZR n + 1 -> Int_part r = n.
Proof.
  intros Hn. pose proof (Int_part_bounds r) as Hr.
  assert (H1 : (Int_part r < n + 1)%Z).
  { apply lt_IZR. rewrite plus_IZR. lra. }
  assert (H2 : (n < Int_part r + 1)%Z).
  { apply lt_IZR. rewrite plus_IZR. lra. }
  lia.
Qed.

Lemma Int_part_mono (a b : R) : a <= b -> (Int_part a <= Int_part b)%Z.
Proof.
  intros Hab. pose proof (Int_part_bounds a). pose proof (Int_part_bounds b).
  assert (H1 : (Int_part a < Int_part b + 1)%Z).
  { apply lt_IZR. rewrite plus_IZR. lra. }
  lia.
Qed.

Lemma pow2_pos (k : nat) : 0 < 2 ^ k.
Proof. apply pow_lt. lra. Qed.

Lemma Int_part_nonneg (r : R) : 0 <= r -> (0 <= Int_part r)%Z.
Proof.
  intros Hr. replace 0%Z with (Int_part 0) by (apply Int_part_unique; lra).
  by apply Int_part_mono.
Qed.

(** An integer and a half rounds down to the integer. *)
Lemma Int_part_half (n : Z) : Int_part (IZR n + 1 / 2) = n.
Proof. apply Int_part_unique. lra. Qed.

Lemma round_to_grid_nonneg (k : nat) (x : R) :
  0 <= x -> round_to_grid k x = IZR (Int_part (x * 2 ^ k + 1 / 2)) / 2 ^ k.
Proof.
  intros Hx. unfold round_to_grid.
  assert (Hb : Rltb x 0 = false) by (apply Rltb_false; lra).
  by rewrite Hb.
Qed.

Lemma round_to_grid_neg (k : nat) (x : R) :
  x < 0 -> round_to_grid k x = - (IZR (Int_part (- x * 2 ^ k + 1 / 2)) / 2 ^ k).
Proof.
  intros Hx. unfold round_to_grid.
  assert (Hb : Rltb x 0 = true) by (by apply Rltb_true).
  by rewrite Hb.
Qed.

(** A multiple of the grid step that is not negative is left as it is. *)
Lemma round_to_grid_exact (k : nat) (x : R) (n : Z) :
  0 <= x -> x * 2 ^ k = IZR n -> round_to_grid k x = x.
Proof.
  intros Hx Hn. rewrite round_to_grid_nonneg by done.
  rewrite Hn, Int_part_half, <- Hn. field.
  pose proof (pow2_pos k). lra.
Qed.

(** Rounding is odd. *)
Lemma round_to_grid_odd (k : nat) (x : R) :
  round_to_grid k (- x) = - round_to_grid k x.
Proof.
  destruct (Rtotal_order x 0) as [Hx|[->|Hx]].
  - rewrite (round_to_grid_nonneg k (- x)) by lra.
    rewrite (round_to_grid_neg k x) by done. lra.
  - rewrite Ropp_0, (round_to_grid_exact k 0 0) by lra. lra.
  - rewrite (round_to_grid_neg k (- x)) by lra.
    rewrite (round_to_grid_nonneg k x) by lra.
    by rewrite Ropp_involutive.
Qed.

(** A number that is not negative moves by at most half a grid step. *)
Lemma round_to_grid_near (k : nat) (x : R) :
  0 <= x -> Rabs (round_to_grid k x - x) <= / 2 ^ k.
Proof.
  intros Hx. rewrite round_to_grid_nonneg by done.
  pose proof (pow2_pos k) as Hp.
  pose proof (Int_part_bounds (x * 2 ^ k + 1 / 2)) as Hi.
  set (n := IZR (Int_part (x * 2 ^ k + 1 / 2))) in *.
  set (p := 2 ^ k) in *.
  assert (Hq : 0 < / p) by (by apply Rinv_0_lt_compat).
  replace (n / p - x) with ((n - x * p) * / p) by (field; lra).
  apply Rabs_le. split; nra.
Qed.

(** Rounding is monotone. *)
Lemma round_to_grid_mono (k : nat) (x y : R) :
  x <= y -> round_to_grid k x <= round_to_grid k y.
Proof.
  intros Hxy. pose proof (pow2_pos k) as Hp.
  assert (Hq : 0 < / 2 ^ k) by (by apply Rinv_0_lt_compat).
  assert (Hscale : forall a b : Z, (a <= b)%Z -> IZR a / 2 ^ k <= IZR b / 2 ^ k).
  { intros a b Hab. apply IZR_le in Hab. unfold Rdiv. nra. }
  destruct (Rlt_le_dec x 0) as [Hx|Hx]; destruct (Rlt_le_dec y 0) as [Hy|Hy].
  - rewrite !round_to_grid_neg by done.
    apply Ropp_le_contravar, Hscale, Int_part_mono. nra.
  - rewrite round_to_grid_neg, round_to_grid_nonneg by done.
    assert (0 <= IZR (Int_part (- x * 2 ^ k + 1 / 2)) / 2 ^ k).
    { replace 0 with (IZR 0 / 2 ^ k) by (unfold Rdiv; lra).
      apply Hscale, Int_part_nonneg. nra. }
    assert (0 <= IZR (Int_part (y * 2 ^ k + 1 / 2)) / 2 ^ k).
    { replace 0 with (IZR 0 / 2 ^ k) by (unfold Rdiv; lra).
      apply Hscale, Int_part_nonneg. nra. }
    lra.
  - lra.
  - rewrite !round_to_grid_nonneg by done.
    apply Hscale, Int_part_mono. nra.
Qed.

Lemma pow2_24 : 2 ^ 24 = 16777216.
Proof. simpl. lra. Qed.

Lemma pow2_53 : 2 ^ 53 = 9007199254740992.
Proof. simpl. lra. Qed.

(** The numbers that the requirements want exact are on both grids. *)
Lemma round_to_grid_24_exact (x : R) (n : Z) :
  0 <= x -> x * 16777216 = IZR n -> round_to_grid 24 x = x.
Proof. intros Hx Hn. apply (round_to_grid_exact 24 x n Hx). by rewrite pow2_24. Qed.

Lemma round_to_grid_53_exact (x : R) (n : Z) :
  0 <= x -> x * 9007199254740992 = IZR n -> round_to_grid 53 x = x.
Proof. intros Hx Hn. apply (round_to_grid_exact 53 x n Hx). by rewrite pow2_53. Qed.

(** The grid arithmetic meets the requirements on rounding. *)
Lemma grid_arithmetic_ieee_like : ieee_like grid_arithmetic.
Proof.
  constructor; cbn [grid_arithmetic to_float to_double exp_d].
  - apply round_to_grid_odd.
  - intros x [Hx _]. by apply round_to_grid_near.
  - apply (round_to_grid_24_exact _ 8388608); lra.
  - intros x [Hx _]. by apply round_to_grid_near.
  - apply round_to_grid_mono.
  - apply (round_to_grid_53_exact _ 0); lra.
  - apply (round_to_grid_53_exact _ 4503599627370496); lra.
  - apply (round_to_grid_53_exact _ 9007199254740992); lra.
  - apply (round_to_grid_53_exact _ 18014398509481984); lra.
  - rewrite exp_0. apply (round_to_grid_53_exact _ 9007199254740992); lra.
  - intros x.
    pose proof (round_to_grid_mono 53 0 (exp x)) as Hm.
    rewrite (round_to_grid_53_exact 0 0) in Hm by lra.
    apply Hm. left. apply exp_pos.
  - intros x Hx.
    pose proof (round_to_grid_mono 53 (exp x) 1) as Hm.
    rewrite (round_to_grid_53_exact 1 9007199254740992) in Hm by lra.
    apply Hm. by apply exp_le_1.
Qed.

Lemma grid_arithmetic_monotone : monotone_rounding grid_arithmetic.
Proof.
  constructor; cbn [grid_arithmetic to_float to_double exp_d].
  - apply round_to_grid_mono.
  - apply (round_to_grid_24_exact _ 16777216); lra.
  - intros x Hx.
    pose proof (round_to_grid_mono 53 1 (exp x)) as Hm.
    rewrite (round_to_grid_53_exact 1 9007199254740992) in Hm by lra.
    apply Hm. by apply exp_ge_1.
  - intros x Hx.
    pose proof (round_to_grid_mono 53 (exp x) (1 / 2)) as Hm.
    rewrite (round_to_grid_53_exact (1 / 2) 4503599627370496) in Hm by lra.
    apply Hm.
    apply (exp_d_small exact_arithmetic exact_arithmetic_monotone x Hx).
Qed.

(** Exponentials of powers of two, by squaring. *)
Lemma exp_double (a b : R) : b < exp a -> 0 < b -> b * b < exp (2 * a).
Proof.
  intros Ha Hb. replace (2 * a) with (a + a) by lra. rewrite exp_plus. nra.
Qed.

Lemma exp_64 : 2 ^ 64 < exp 64.
Proof.
  assert (H1 : 2 < exp 1) by (pose proof (exp_ineq1 1); lra).
  pose proof (exp_double _ _ H1) as H2. specialize (H2 ltac:(lra)).
  pose proof (exp_double _ _ H2) as H4. specialize (H4 ltac:(lra)).
  pose proof (exp_double _ _ H4) as H8. specialize (H8 ltac:(lra)).
  pose proof (exp_double _ _ H8) as H16. specialize (H16 ltac:(lra)).
  pose proof (exp_double _ _ H16) as H32. specialize (H32 ltac:(lra)).
  pose proof (exp_double _ _ H32) as H64. specialize (H64 ltac:(lra)).
  replace (2 * (2 * (2 * (2 * (2 * (2 * 1)))))) with 64 in H64 by lra.
  eapply Rle_lt_trans; [|exact H64]. simpl. lra.
Qed.

(** In the grid arithmetic the winrate at [alpha = 64], [beta = 1] is
    exactly 1 and its complement exactly 0: the bounds are attained. *)
Lemma sigmoid_rounded_saturates :
  sigmoid_rounded grid_arithmetic 64 1 0 (-1) = (1, 0).
Proof.
  unfold sigmoid_rounded. cbn [grid_arithmetic to_float to_double exp_d].
  assert (Hneg : Rltb (-1) 0 = true) by (apply Rltb_true; lra).
  rewrite Hneg.
  assert (Hsum : round_to_grid 24 (64 + 0) = 64).
  { replace (64 + 0) with 64 by lra.
    apply (round_to_grid_24_exact _ 1073741824); lra. }
  rewrite Hsum.
  assert (Hpos : Rltb 0 64 = true) by (apply Rltb_true; lra).
  rewrite Hpos.
  assert (Harg : round_to_grid 24 (1 * 64) = 64).
  { replace (1 * 64) with 64 by lra.
    apply (round_to_grid_24_exact _ 1073741824); lra. }
  rewrite Harg, Rabs_right by lra.
  assert (H30 : Rltb 30 64 = true) by (apply Rltb_true; lra).
  rewrite H30.
  assert (Hret : round_to_grid 53 (exp (Ropp 64)) = 0).
  { pose proof (exp_pos (Ropp 64)) as Hp.
    rewrite round_to_grid_nonneg by lra.
    assert (Hsmall : exp (Ropp 64) * 2 ^ 53 < 1 / 2).
    { rewrite exp_Ropp. pose proof exp_64 as H64.
      pose proof (exp_pos 64) as Hp64.
      assert (Hinv : / exp 64 < / 2 ^ 64).
      { apply Rinv_lt_contravar; [|done].
        apply Rmult_lt_0_compat; [apply pow2_pos|done]. }
      assert (Hq : / 2 ^ 64 * 2 ^ 53 = / 2048).
      { simpl. field. }
      pose proof (pow2_pos 53). nra. }
    rewrite (Int_part_unique _ 0).
    - unfold Rdiv. lra.
    - pose proof (pow2_pos 53). nra. }
  rewrite Hret.
  assert (H64 : Rltb 64 0 = false) by (apply Rltb_false; lra).
  rewrite H64.
  replace (1 - 0) with 1 by lra.
  rewrite (round_to_grid_53_exact 1 9007199254740992) by lra.
  rewrite (round_to_grid_24_exact 1 16777216) by lra.
  rewrite (round_to_grid_24_exact 0 0) by lra.
  done.
Qed.

Lemma sigmoid_rounded_is_probability_witness :
  0 <= fst (sigmoid_rounded grid_arithmetic 64 1 0 (-1)) <= 1
  /\ 0 <= snd (sigmoid_rounded grid_arithmetic 64 1 0 (-1)) <= 1
  /\ Rabs (fst (sigmoid_rounded grid_arithmetic 64 1 0 (-1))
           + snd (sigmoid_rounded grid_arithmetic 64 1 0 (-1)) - 1) < 1 / 1000000
  /\ (sigmoid_arg_rounded grid_arithmetic 64 1 0 (-1) < 0 ->
      fst (sigmoid_rounded grid_arithmetic 64 1 0 (-1)) <= 1 / 2
      <= snd (sigmoid_rounded grid_arithmetic 64 1 0 (-1)))
  /\ (0 <= sigmoid_arg_rounded grid_arithmetic 64 1 0 (-1) ->
      snd (sigmoid_rounded grid_arithmetic 64 1 0 (-1)) <= 1 / 2
      <= fst (sigmoid_rounded grid_arithmetic 64 1 0 (-1))).
Proof.
  apply (sigmoid_rounded_is_probability grid_arithmetic 64 1 0 (-1)).
  - exact grid_arithmetic_ieee_like.
  - exact grid_arithmetic_monotone.
Defined.

(** X11. With a positive [beta] (and any [beta2] that is negative, meaning
    "as beta", or not negative) the winrate is at least a half exactly when
    [alpha + bonus] is not negative. *)
Theorem sigmoid_favours_the_side_ahead (alpha beta bonus beta2 : R) :
  0 < beta ->
  (1 / 2 <= fst (sigmoid alpha beta bonus beta2) <-> 0 <= alpha + bonus).
Proof.
  intros Hbeta.
  destruct (sigmoid_is_probability_core alpha beta bonus beta2) as [_ ->].
  unfold sigmoid_arg.
  decide_R beta2 0; decide_R 0 (alpha + bonus); split; intros; nra.
Qed.

(** ** Dense layers and their batch norm *)

Lemma sgemv_spec (outputs inputs : nat) (weights input : list R) :
  length (sgemv outputs inputs weights input) = outputs.
Proof. unfold sgemv. by rewrite length_map, length_seq. Qed.

Lemma innerproduct_spec (ReLU : bool) (input weights biases : list R) :
  length (innerproduct ReLU input weights biases) = length biases
  /\ forall o, (o < length biases)%nat ->
       innerproduct ReLU input weights biases !! o
       = Some (let val := at_idx biases o
                          + at_idx (sgemv (length biases) (length input)
                                          weights input) o in
               if ReLU then lambda_ReLU val else val).
Proof.
  unfold innerproduct. cbn zeta.
  set (output := sgemv _ _ _ _).
  destruct (for_loop_insert_spec
              (fun o output0 =>
                 <[o := if ReLU
                        then lambda_ReLU (at_idx biases o + at_idx output0 o)
                        else at_idx biases o + at_idx output0 o]> output0)
              (fun o x => if ReLU then lambda_ReLU (at_idx biases o + x)
                          else at_idx biases o + x)
              output (length biases)) as (Hlen & Hlow & _).
  - done.
  - subst output. by rewrite sgemv_spec.
  - subst output. rewrite sgemv_spec in Hlen. by split.
Qed.

Lemma for_loop_ext {S : Type} (n : nat) (f g : nat -> S -> S) (s : S) :
  (forall i x, f i x = g i x) -> for_loop n f s = for_loop n g s.
Proof.
  intros Hfg. induction n as [|n IH]; [done|].
  by rewrite !for_loop_S, IH, Hfg.
Qed.

(** A loop that rewrites cell [h idx] in round [idx] from its own content,
    for [h] one-to-one on the rounds. *)
Lemma for_loop_update_spec (h : nat -> nat) (g : nat -> R -> R)
    (init : list R) (k : nat) :
  (forall i, (i < k)%nat -> (h i < length init)%nat) ->
  (forall i j, (i < k)%nat -> (j < k)%nat -> h i = h j -> i = j) ->
  let out := for_loop k (fun idx l => <[h idx := g idx (at_idx l (h idx))]> l) init in
  length out = length init
  /\ (forall idx, (idx < k)%nat -> out !! h idx = Some (g idx (at_idx init (h idx))))
  /\ (forall c, (forall idx, (idx < k)%nat -> h idx <> c) -> out !! c = init !! c).
Proof.
  induction k as [|k IH]; intros Hrange Hinj.
  - cbn. repeat split; intros; lia.
  - cbn zeta. rewrite for_loop_S.
    destruct IH as (Hlen & Hlow & Hrest).
    { intros i Hi. apply Hrange. lia. }
    { intros i j Hi Hj. apply Hinj; lia. }
    rewrite length_insert. repeat split; [done|..].
    + intros idx Hidx. destruct (decide (idx = k)) as [->|Hne].
      * rewrite list_lookup_insert_eq by (rewrite Hlen; apply Hrange; lia).
        f_equal. f_equal. unfold at_idx. rewrite Hrest; [done|].
        intros j Hj Heq. apply Hinj in Heq; lia.
      * rewrite list_lookup_insert_ne; [apply Hlow; lia|].
        intros Heq. apply Hinj in Heq; lia.
    + intros c Hc. rewrite list_lookup_insert_ne by (apply Hc; lia).
      apply Hrest. intros idx Hidx. apply Hc. lia.
Qed.

(** [batchnorm] after [k] channels: every cell of a channel below [k] has
    been normalised from its own content, the other cells are untouched. *)
Lemma batchnorm_spec (spatial_size channels : nat) (data means stddivs : list R)
    (eltwise : option (list R)) :
  (channels * spatial_size <= length data)%nat ->
  length (batchnorm spatial_size channels data means stddivs eltwise) = length data
  /\ forall c b, (c < channels)%nat -> (b < spatial_size)%nat ->
       batchnorm spatial_size channels data means stddivs eltwise
         !! (c * spatial_size + b)%nat
       = Some (lambda_ReLU
                 (at_idx stddivs c * (at_idx data (c * spatial_size + b) - at_idx means c)
                  + match eltwise with
                    | None => 0
                    | Some res => at_idx res (c * spatial_size + b)
                    end)).
Proof.
  unfold batchnorm. intros Hfit.
  assert (Hgen : forall k, (k <= channels)%nat ->
    let out :=
      for_loop k
        (fun c data =>
           let mean := at_idx means c in
           let scale_stddiv := at_idx stddivs c in
           match eltwise with
           | None =>
               for_loop spatial_size
                 (fun b data =>
                    let arr_b := (c * spatial_size + b)%nat in
                    <[arr_b := lambda_ReLU (scale_stddiv * (at_idx data arr_b - mean))]>
                      data)
                 data
           | Some res =>
               for_loop spatial_size
                 (fun b data =>
                    let arr_b := (c * spatial_size + b)%nat in
                    <[arr_b := lambda_ReLU (scale_stddiv * (at_idx data arr_b - mean)
                                            + at_idx res arr_b)]> data)
                 data
           end)
        data in
    length out = length data
    /\ (forall c b, (c < k)%nat -> (b < spatial_size)%nat ->
          out !! (c * spatial_size + b)%nat
          = Some (lambda_ReLU
                    (at_idx stddivs c
                     * (at_idx data (c * spatial_size + b) - at_idx means c)
                     + match eltwise with
                       | None => 0
                       | Some res => at_idx res (c * spatial_size + b)
                       end)))
    /\ (forall j, (k * spatial_size <= j)%nat -> out !! j = data !! j)).
  { induction k as [|k IH]; intros Hk.
    - cbn. repeat split; intros; lia.
    - cbn zeta. rewrite for_loop_S. destruct IH as (Hlen & Hlow & Hhigh); [lia|].
      set (prev := for_loop k _ data) in *. cbn zeta.
      destruct (for_loop_update_spec
                  (fun b => (k * spatial_size + b)%nat)
                  (fun b x =>
                     lambda_ReLU
                       (at_idx stddivs k * (x - at_idx means k)
                        + match eltwise with
                          | None => 0
                          | Some res => at_idx res (k * spatial_size + b)
                          end))
                  prev spatial_size) as (Hl & Hcells & Hrest).
      { intros i Hi. rewrite Hlen. nia. }
      { intros i j _ _. lia. }
      cbn zeta in Hl, Hcells, Hrest.
      assert (Hsame :
        match eltwise with
        | None =>
            for_loop spatial_size
              (fun b data0 =>
                 let arr_b := (k * spatial_size + b)%nat in
                 <[arr_b := lambda_ReLU (at_idx stddivs k
                                         * (at_idx data0 arr_b - at_idx means k))]>
                   data0)
              prev
        | Some res =>
            for_loop spatial_size
              (fun b data0 =>
                 let arr_b := (k * spatial_size + b)%nat in
                 <[arr_b := lambda_ReLU (at_idx stddivs k
                                         * (at_idx data0 arr_b - at_idx means k)
                                         + at_idx res arr_b)]> data0)
              prev
        end
        = for_loop spatial_size
            (fun idx l =>
               <[(k * spatial_size + idx)%nat :=
                   lambda_ReLU
                     (at_idx stddivs k
                      * (at_idx l (k * spatial_size + idx) - at_idx means k)
                      + match eltwise with
                        | None => 0
                        | Some res => at_idx res (k * spatial_size + idx)
                        end)]> l)
            prev).
      { destruct eltwise as [res|]; [done|].
        apply for_loop_ext. intros b l. cbn zeta. by rewrite Rplus_0_r. }
      cbn zeta in Hsame. rewrite Hsame. split; [congruence|]. split.
      + intros c b Hc Hb. destruct (decide (c = k)) as [->|Hne].
        * rewrite Hcells by done. do 3 f_equal.
          unfold at_idx. rewrite Hhigh by lia. done.
        * rewrite Hrest by (intros idx Hidx; nia). apply Hlow; [lia|done].
      + intros j Hj. rewrite Hrest by (intros idx Hidx; nia).
        apply Hhigh. nia. }
  destruct (Hgen channels (le_n _)) as (Hlen & Hlow & _).
  by split.
Qed.

Lemma tower_ok_single (b m v : list R) :
  length b = length m -> length v = length m -> tower_ok [b] [m] [v].
Proof.
  intros Hb Hv. split; [done|]. split; [done|].
  intros [|i] b1 m1 v1 Hb1 Hm1 Hv1; cbn in *; [|done].
  simplify_eq. by split.
Qed.

(** One dense layer with fused parameters against the batch norm of the
    layer as it was read from the file. *)
Lemma dense_layer_fused (weights b m v b' m' v' val_data : list R)
    (eltwise : option (list R)) (c : nat) :
  quartet_ok b m v -> fused b m v b' m' v' -> (c < length b)%nat ->
  dense_layer weights b' m' v' eltwise val_data !! c
  = Some (lambda_ReLU
            ((at_idx (innerproduct false val_data weights b) c - at_idx m c)
             / sqrt (at_idx v c + epsilon)
             + match eltwise with None => 0 | Some res => at_idx res c end)).
Proof.
  intros [Hbm Hvm] (Hlb & Hlm & Hlv & Hzero & Hmean & Hvar) Hc.
  unfold dense_layer.
  destruct (innerproduct_spec false val_data weights b') as [Hlen' Hcells'].
  destruct (innerproduct_spec false val_data weights b) as [Hlen Hcells].
  destruct (batchnorm_spec 1 (length b') (innerproduct false val_data weights b')
              m' v' eltwise) as [_ Hbn]; [lia|].
  specialize (Hbn c 0%nat). rewrite Nat.mul_1_r, Nat.add_0_r in Hbn.
  rewrite Hbn by lia. do 2 f_equal.
  destruct (lookup_lt_is_Some_2 b c Hc) as [y Hy].
  destruct (lookup_lt_is_Some_2 m c) as [x Hx]; [lia|].
  destruct (lookup_lt_is_Some_2 v c) as [z Hz]; [lia|].
  rewrite (at_idx_lookup _ _ _ (Hvar c z Hz)).
  rewrite (at_idx_lookup _ _ _ (Hmean c x y Hx Hy)).
  rewrite (at_idx_lookup _ _ _ (Hcells' c ltac:(lia))).
  rewrite (at_idx_lookup _ _ _ (Hcells c Hc)).
  rewrite (at_idx_lookup _ _ _ (Hzero c Hc)).
  rewrite (at_idx_lookup _ _ _ Hx), (at_idx_lookup _ _ _ Hy),
    (at_idx_lookup _ _ _ Hz).
  cbn zeta. rewrite Hlb. unfold epsilon, Rdiv. ring.
Qed.

(** X12. Inference through a fused layer of the value-head dense tower is the
    batch norm of the layer as the file gives it: after the fusion of
    [Network::initialize], [innerproduct<false>] followed by [batchnorm<1>]
    yields [ReLU((y - mean) / sqrt(variance + 1e-5) + residual)] in every
    channel, [y] being the layer's output with its bias as read. *)
Theorem fused_dense_layer_is_batch_norm (t : DenseTower) (i c : nat)
    (weights biases means vars val_data : list R) (eltwise : option (list R)) :
  tower_ok (m_vh_dense_biases t) (m_vh_dense_bn_means t) (m_vh_dense_bn_vars t) ->
  m_vh_dense_weights t !! i = Some weights ->
  m_vh_dense_biases t !! i = Some biases ->
  m_vh_dense_bn_means t !! i = Some means ->
  m_vh_dense_bn_vars t !! i = Some vars ->
  (c < length biases)%nat ->
  dense_layer (at_row (m_vh_dense_weights (fuse_dense_tower t)) i)
              (at_row (m_vh_dense_biases (fuse_dense_tower t)) i)
              (at_row (m_vh_dense_bn_means (fuse_dense_tower t)) i)
              (at_row (m_vh_dense_bn_vars (fuse_dense_tower t)) i)
              eltwise val_data !! c
  = Some (lambda_ReLU
            ((at_idx (innerproduct false val_data weights biases) c
              - at_idx means c)
             / sqrt (at_idx vars c + epsilon)
             + match eltwise with None => 0 | Some res => at_idx res c end)).
Proof.
  intros Hok Hw Hb Hm Hv Hc.
  pose proof (fuse_tower_fused (fun _ biases_i => length biases_i)
                (m_vh_dense_biases t) (m_vh_dense_bn_means t)
                (m_vh_dense_bn_vars t)) as Hfused.
  unfold fuse_dense_tower.
  destruct (for_loop _ _ _) as [[means' biases'] vars'].
  cbn [m_vh_dense_weights m_vh_dense_biases m_vh_dense_bn_means m_vh_dense_bn_vars].
  destruct Hfused as [_ Hrows]; [by intros ? ? ->|done|].
  destruct (Hrows i biases means vars Hb Hm Hv)
    as (b' & m' & v' & Hb' & Hm' & Hv' & Hf).
  rewrite (at_row_lookup _ _ _ Hw), (at_row_lookup _ _ _ Hb'),
    (at_row_lookup _ _ _ Hm'), (at_row_lookup _ _ _ Hv').
  apply dense_layer_fused; [|done..].
  destruct Hok as (_ & _ & Hshape). by apply (Hshape i).
Qed.

Lemma fused_dense_layer_is_batch_norm_witness :
  dense_layer (at_row (m_vh_dense_weights (fuse_dense_tower small_tower)) 0)
              (at_row (m_vh_dense_biases (fuse_dense_tower small_tower)) 0)
              (at_row (m_vh_dense_bn_means (fuse_dense_tower small_tower)) 0)
              (at_row (m_vh_dense_bn_vars (fuse_dense_tower small_tower)) 0)
              None [1] !! 1%nat
  = Some (lambda_ReLU
            ((at_idx (innerproduct false [1] [1; 1] [2; 3]) 1 - at_idx [4; 5] 1)
             / sqrt (at_idx [6; 7] 1 + epsilon) + 0)).
Proof.
  apply (fused_dense_layer_is_batch_norm small_tower 0 1 [1; 1] [2; 3] [4; 5]
           [6; 7] [1] None); try reflexivity.
  - by apply tower_ok_single.
  - cbn. lia.
Defined.

(** ** The value heads *)

Lemma INR_NUM_INTERSECTIONS_pos (E : Env) :
  (0 < BOARD_SIZE E)%Z -> 0 < INR (NUM_INTERSECTIONS E).
Proof. intros HB. apply lt_0_INR. unfold NUM_INTERSECTIONS. nia. Qed.

(** X13. A Leela Zero head ([SINGLE]) turns the one output [v] of the value
    head into the winrate [1 / (1 + exp(-2v))], the logistic of the logit
    [alpha = 2v], as long as [|2v| <= 30]; the result is not a SAI one and
    carries the conventional [beta = 1]. *)
Theorem value_heads_single_is_logistic (E : Env) (net : Network) (h : ValueHeads)
    (cfg_betatune : R) (state : GameState)
    (val_data val_channels val_output : list R) (result : Netresult) :
  m_value_head_type h = SINGLE ->
  Rabs (2 * at_idx val_output 0) <= 30 ->
  let r := value_heads E net h cfg_betatune state val_data val_channels
                       val_output result in
  is_sai r = false /\ alpha r = 2 * at_idx val_output 0 /\ beta r = 1
  /\ value r = 1 / (1 + exp (- (2 * at_idx val_output 0))).
Proof.
  intros Hsingle Hrange. cbn zeta. unfold value_heads. rewrite Hsingle.
  cbn [is_sai alpha beta value]. repeat split.
  rewrite sigmoid3_unfold. cbn zeta.
  set (v := at_idx val_output 0) in *.
  replace (1 * (2 * v + 0)) with (2 * v) by lra.
  assert (H30 : Rltb 30 (Rabs (2 * v)) = false) by (by apply Rltb_false).
  rewrite H30.
  pose proof (exp_pos (2 * v)) as Hpos.
  decide_R (2 * v) 0; cbn [fst].
  - rewrite Rabs_left by done. done.
  - rewrite Rabs_right by lra. rewrite exp_Ropp. field. lra.
Qed.

(** X14. A SAI head always yields a positive [beta], with either encoding,
    and a winrate between 0 and 1 (the bounds included) that is the
    [sigmoid] of its alpha, beta and beta2 at the komi of the side to move;
    with the quartile encoding [beta] is at most [2 ln 3 / 0.05]. *)
Theorem value_heads_sai_beta_positive (E : Env) (net : Network) (h : ValueHeads)
    (cfg_betatune : R) (state : GameState)
    (val_data val_channels val_output : list R) (result : Netresult) :
  m_value_head_type h <> SINGLE -> (0 < BOARD_SIZE E)%Z ->
  let r := value_heads E net h cfg_betatune state val_data val_channels
                       val_output result in
  is_sai r = true /\ 0 < beta r
  /\ (m_quartile_encoding (version_flags net) = true ->
      beta r <= 2 * 1.0986122886681096913952452369225 / 0.05)
  /\ (m_quartile_encoding (version_flags net) = false ->
      m_vbe_head_rets h = 2%Z -> 0 < beta2 r)
  /\ value r
     = fst (sigmoid (alpha r) (beta r)
                    (if Color_eqb WHITE (get_to_move state)
                     then get_komi_adj state else - get_komi_adj state)
                    (beta2 r))
  /\ 0 <= value r <= 1.
Proof.
  intros Hsai HB. cbn zeta.
  pose proof (INR_NUM_INTERSECTIONS_pos E HB) as HN.
  assert (Hexp : forall x, 0 < exp x * 10.0 / INR (NUM_INTERSECTIONS E)).
  { intros x. pose proof (exp_pos x). apply Rdiv_lt_0_compat; lra. }
  assert (Hq : forall d, 0 < 2.0 * 1.0986122886681096913952452369225
                           / (0.05 + Rmax 0 d)
                     <= 2 * 1.0986122886681096913952452369225 / 0.05).
  { intros d. pose proof (Rmax_l 0 d). split.
    - apply Rdiv_lt_0_compat; lra.
    - unfold Rdiv. apply Rmult_le_compat; [lra| |lra|].
      + left. apply Rinv_0_lt_compat. lra.
      + apply Rinv_le_contravar; lra. }
  unfold value_heads.
  destruct (m_value_head_type h) eqn:Htype; [done|..];
    unfold get_sai_winrate;
    cbn [set_value is_sai alpha beta beta2 value policy policy_pass];
    (split; [done|]);
    (split; [destruct (m_quartile_encoding (version_flags net));
             [apply Hq | apply Hexp]|]);
    (split; [intros ->; apply Hq|]);
    (split; [intros -> ->; cbn [negb andb Z.eqb Pos.eqb]; apply Hexp|]);
    (split; [reflexivity|]);
    match goal with
    | |- 0 <= fst (sigmoid ?a ?b ?c ?d) <= 1 =>
        destruct (sigmoid_is_probability_core a b c d) as [Hvalue _]; lra
    end.
Qed.

(** ** The loader *)

Lemma for_down_S {S : Type} (n : nat) (body : nat -> S -> S) (s : S) :
  for_down (Datatypes.S n) body s = for_down n body (body n s).
Proof. unfold for_down. by rewrite seq_S, rev_app_distr. Qed.

(** A downward loop that writes cell [tgt d] in round [d] from cell [src d],
    where no round reads a cell that an earlier round has written. *)
Lemma for_down_copy_spec (tgt src : nat -> nat) (g : nat -> R -> R) (n : nat) :
  forall init : list R,
  (forall d, (d < n)%nat -> (tgt d < length init)%nat) ->
  (forall d d', (d < n)%nat -> (d' < n)%nat -> tgt d = tgt d' -> d = d') ->
  (forall d d', (d < d')%nat -> (d' < n)%nat -> tgt d' <> src d) ->
  let out := for_down n (fun d w => <[tgt d := g d (at_idx w (src d))]> w) init in
  length out = length init
  /\ (forall d, (d < n)%nat -> out !! tgt d = Some (g d (at_idx init (src d))))
  /\ (forall c, (forall d, (d < n)%nat -> tgt d <> c) -> out !! c = init !! c).
Proof.
  induction n as [|n IH]; intros init Hrange Hinj Hfresh.
  - cbn. repeat split; intros; lia.
  - cbn zeta. rewrite for_down_S.
    set (w1 := <[tgt n := g n (at_idx init (src n))]> init).
    destruct (IH w1) as (Hlen & Hcells & Hrest).
    { intros d Hd. subst w1. rewrite length_insert. apply Hrange. lia. }
    { intros d d' Hd Hd'. apply Hinj; lia. }
    { intros d d' Hd Hd'. apply Hfresh; lia. }
    cbn zeta in Hlen, Hcells, Hrest.
    split; [by rewrite Hlen; subst w1; rewrite length_insert|]. split.
    + intros d Hd. destruct (decide (d = n)) as [->|Hne].
      * rewrite Hrest.
        -- subst w1. apply list_lookup_insert_eq. apply Hrange. lia.
        -- intros d' Hd' Heq. apply Hinj in Heq; lia.
      * rewrite Hcells by lia. do 2 f_equal. subst w1. unfold at_idx.
        rewrite list_lookup_insert_ne; [done|]. apply Hfresh; lia.
    + intros c Hc. rewrite Hrest by (intros d Hd; apply Hc; lia).
      subst w1. apply list_lookup_insert_ne. apply Hc. lia.
Qed.

Lemma resize_spec (v : list R) (n : nat) :
  length (resize v n) = n
  /\ forall k, (k < n)%nat ->
       resize v n !! k = Some (if decide (k < length v)%nat then at_idx v k else 0).
Proof.
  unfold resize. split.
  - rewrite length_app, length_take, length_replicate. lia.
  - intros k Hk. destruct (decide (k < length v)%nat) as [Hv|Hv].
    + rewrite lookup_app_l by (rewrite length_take; lia).
      rewrite lookup_take_lt by done. unfold at_idx.
      by destruct (lookup_lt_is_Some_2 v k Hv) as [x ->].
    + rewrite lookup_app_r by (rewrite length_take; lia).
      rewrite length_take. apply lookup_replicate_2. lia.
Qed.

(** One round of the outer loop of [add_zero_channels] on row [i]. *)
Lemma add_zero_channels_row (old i : nat) (w : list R) :
  (old <= 8)%nat -> (i * 8 + 8 <= length w)%nat ->
  let out :=
    for_down old
      (fun d pool_w =>
         let j := (d + 1)%nat in
         <[(i * 8 + j - 1)%nat := at_idx pool_w (i * old + j - 1)]> pool_w)
      (for_down (8 - old)
         (fun d pool_w =>
            let j := (old + d + 1)%nat in
            <[(i * 8 + j - 1)%nat := 0]> pool_w)
         w) in
  length out = length w
  /\ (forall j, (j < 8)%nat ->
        out !! (i * 8 + j)%nat
        = Some (if decide (j < old)%nat then at_idx w (i * old + j) else 0))
  /\ (forall c, (c < i * 8 \/ i * 8 + 8 <= c)%nat -> out !! c = w !! c).
Proof.
  intros Hold Hfit. cbn zeta.
  destruct (for_down_copy_spec (fun d => (i * 8 + (old + d + 1) - 1)%nat)
              (fun _ => 0%nat) (fun _ _ => 0) (8 - old) w)
    as (Hlz & Hzero & Hzrest).
  { intros d Hd. lia. }
  { intros d d' _ _. lia. }
  { intros d d' Hd Hd'. lia. }
  cbn zeta in Hlz, Hzero, Hzrest.
  set (wz := for_down (8 - old) _ w) in *.
  destruct (for_down_copy_spec (fun d => (i * 8 + (d + 1) - 1)%nat)
              (fun d => (i * old + (d + 1) - 1)%nat) (fun _ x => x) old wz)
    as (Hlc & Hcopy & Hcrest).
  { intros d Hd. lia. }
  { intros d d' _ _. lia. }
  { intros d d' Hd Hd'. nia. }
  cbn zeta in Hlc, Hcopy, Hcrest.
  set (wc := for_down old _ wz) in *.
  split; [congruence|]. split.
  - intros j Hj. destruct (decide (j < old)%nat) as [Hlt|Hge].
    + replace (i * 8 + j)%nat with (i * 8 + (j + 1) - 1)%nat by lia.
      rewrite Hcopy by done. f_equal. unfold at_idx.
      replace (i * old + (j + 1) - 1)%nat with (i * old + j)%nat by lia.
      rewrite Hzrest; [done|]. intros d Hd. nia.
    + rewrite Hcrest by (intros d Hd; lia).
      replace (i * 8 + j)%nat with (i * 8 + (old + (j - old) + 1) - 1)%nat by lia.
      apply Hzero. lia.
  - intros c Hc. rewrite Hcrest by (intros d Hd; lia).
    apply Hzrest. intros d Hd. lia.
Qed.

(** The outer loop of [add_zero_channels] over the rows [n-1, ..., 0]. *)
Lemma add_zero_channels_rows (old n : nat) :
  forall w : list R,
  (old <= 8)%nat -> (n * 8 <= length w)%nat ->
  let out :=
    for_down n
      (fun i pool_w =>
         let pool_w :=
           for_down (8 - old)
             (fun d pool_w =>
                let j := (old + d + 1)%nat in
                <[(i * 8 + j - 1)%nat := 0]> pool_w)
             pool_w in
         for_down old
           (fun d pool_w =>
              let j := (d + 1)%nat in
              <[(i * 8 + j - 1)%nat := at_idx pool_w (i * old + j - 1)]> pool_w)
           pool_w)
      w in
  length out = length w
  /\ (forall i j, (i < n)%nat -> (j < 8)%nat ->
        out !! (i * 8 + j)%nat
        = Some (if decide (j < old)%nat then at_idx w (i * old + j) else 0))
  /\ (forall c, (n * 8 <= c)%nat -> out !! c = w !! c).
Proof.
  induction n as [|n IH]; intros w Hold Hfit.
  - cbn. repeat split; intros; lia.
  - cbn zeta. rewrite for_down_S.
    destruct (add_zero_channels_row old n w Hold) as (Hl1 & Hrow & Hrest1); [lia|].
    cbn zeta in Hl1, Hrow, Hrest1.
    set (w1 := for_down old _ (for_down (8 - old) _ w)) in *.
    destruct (IH w1 Hold) as (Hl & Hrows & Hrest); [lia|].
    cbn zeta in Hl, Hrows, Hrest.
    split; [congruence|]. split.
    + intros i j Hi Hj. destruct (decide (i = n)) as [->|Hne].
      * rewrite Hrest by lia. by apply Hrow.
      * rewrite Hrows by (done || lia).
        destruct (decide (j < old)%nat) as [Hlt|Hge]; [|done].
        f_equal. unfold at_idx. rewrite Hrest1; [done|]. left. nia.
    + intros c Hc. rewrite Hrest by lia. apply Hrest1. lia.
Qed.

(** X15. [add_zero_channels] pads the value convolution from [old_channels]
    to 8 filters with zeros: in the pooling weights every row keeps its old
    cells in its first [old_channels] places and has zeros in the others
    (the reshuffle is done in place, back to front), and the convolution
    weights, the biases and the two batch-norm vectors keep their cells and
    get zeros appended. *)
Theorem add_zero_channels_keeps_weights (m_channels m_val_outputs
    m_val_pool_outputs : nat) (w : ForwardPipeWeights) :
  (m_val_outputs < 8)%nat -> (0 < m_val_pool_outputs)%nat ->
  length (m_conv_val_pool_w w) = (m_val_outputs * m_val_pool_outputs)%nat ->
  let w' := snd (add_zero_channels m_channels m_val_outputs m_val_pool_outputs w) in
  fst (add_zero_channels m_channels m_val_outputs m_val_pool_outputs w) = 8%nat
  /\ length (m_conv_val_pool_w w') = (8 * m_val_pool_outputs)%nat
  /\ (forall i j, (i < m_val_pool_outputs)%nat -> (j < 8)%nat ->
        m_conv_val_pool_w w' !! (i * 8 + j)%nat
        = Some (if decide (j < m_val_outputs)%nat
                then at_idx (m_conv_val_pool_w w) (i * m_val_outputs + j)
                else 0))
  /\ (forall k, (k < m_channels * 8)%nat ->
        m_conv_val_w w' !! k
        = Some (if decide (k < length (m_conv_val_w w))%nat
                then at_idx (m_conv_val_w w) k else 0))
  /\ (forall j, (j < 8)%nat ->
        m_conv_val_b w' !! j
        = Some (if decide (j < length (m_conv_val_b w))%nat
                then at_idx (m_conv_val_b w) j else 0)
        /\ m_bn_val_w1 w' !! j
           = Some (if decide (j < length (m_bn_val_w1 w))%nat
                   then at_idx (m_bn_val_w1 w) j else 0)
        /\ m_bn_val_w2 w' !! j
           = Some (if decide (j < length (m_bn_val_w2 w))%nat
                   then at_idx (m_bn_val_w2 w) j else 0)).
Proof.
  intros Hold Hpool Hlen. cbn zeta. unfold add_zero_channels. cbn [fst snd].
  cbn [m_conv_val_pool_w m_conv_val_w m_conv_val_b m_bn_val_w1 m_bn_val_w2].
  split; [done|].
  destruct (resize_spec (m_conv_val_pool_w w) (8 * m_val_pool_outputs))
    as [Hrl Hrcells].
  destruct (add_zero_channels_rows m_val_outputs m_val_pool_outputs
              (resize (m_conv_val_pool_w w) (8 * m_val_pool_outputs)))
    as (Hl & Hrows & _); [lia..|].
  cbn zeta in Hl, Hrows. split; [congruence|]. split.
  - intros i j Hi Hj. rewrite Hrows by done.
    destruct (decide (j < m_val_outputs)%nat) as [Hlt|Hge]; [|done].
    f_equal. unfold at_idx at 1. rewrite Hrcells by nia.
    cbn. destruct (decide _) as [|Hout]; [done|]. exfalso. apply Hout. nia.
  - split.
    + intros k Hk. by apply resize_spec.
    + intros j Hj. repeat split; by apply resize_spec.
Qed.

(** X16. [identify_layer] only moves forward through the weights file: it
    records the section it leaves in [previous], never goes back to an
    earlier section, never stays in [NONE], and stays in a section only if
    that section is one of the three towers or the last one; line count,
    excess and completion flag are not touched. *)
Theorem identify_layer_moves_forward (E : Env) (m_channels : nat)
    (layer : list (list R)) (id : WeightsFileIndex) :
  let id' := identify_layer E m_channels layer id in
  previous id' = section id
  /\ (section_rank (section id) <= section_rank (section id'))%nat
  /\ section id' <> NONE
  /\ (section id' = section id -> repeatable (section id))
  /\ line id' = line id /\ excess id' = excess id /\ complete id' = complete id.
Proof.
  cbn zeta. unfold identify_layer, repeatable.
  destruct (section id) eqn:Hs; cbn [section previous line excess complete];
    repeat match goal with
           | |- context [if ?b then _ else _] => destruct b
           end;
    cbn; repeat split; try done; try lia; intros; try discriminate; tauto.
Qed.

(** ** The cache protocol, continued *)

Lemma keeps_cache_ret {A : Type} (a : A) : keeps_cache (ret a).
Proof. intros w r w' Hrun. by injection Hrun as <- <-. Qed.

Lemma keeps_cache_bind {A B : Type} (c : M A) (f : A -> M B) :
  keeps_cache c -> (forall a, keeps_cache (f a)) -> keeps_cache (bind c f).
Proof.
  intros Hc Hf w r w' Hrun. unfold bind in Hrun.
  destruct (c w) as [[a|] w1] eqn:Hcw.
  - destruct (Hc w _ w1 Hcw) as (Hcache & Hdrain & _).
    destruct (Hf a w1 r w' Hrun) as (Hcache' & Hdrain' & Hhalt).
    repeat split; [congruence..|]. intros Hr. rewrite <- Hdrain. by apply Hhalt.
  - injection Hrun as <- <-.
    destruct (Hc w Halt w1 Hcw) as (Hcache & Hdrain & Hhalt).
    repeat split; [done..|]. intros _. by apply Hhalt.
Qed.

Lemma keeps_cache_log (e : Event) : keeps_cache (log e).
Proof. intros w r w' Hrun. by injection Hrun as <- <-. Qed.

Lemma keeps_cache_cache_lookup (hash : Z) : keeps_cache (cache_lookup hash).
Proof.
  apply keeps_cache_bind; [apply keeps_cache_log|].
  intros _ w r w' Hrun. by injection Hrun as <- <-.
Qed.

Lemma keeps_cache_randfix (E : Env) : keeps_cache (randfix E).
Proof. intros w r w' Hrun. by injection Hrun as <- <-. Qed.

Lemma keeps_cache_get_output_internal (net : Network) (state : GameState)
    (symmetry : Z) :
  keeps_cache (get_output_internal net state symmetry).
Proof.
  apply keeps_cache_bind; [apply keeps_cache_log|].
  intros _ w r w' Hrun. destruct (draining w) eqn:Hd; by injection Hrun as <- <-.
Qed.

Lemma keeps_cache_probe_symmetries (E : Env) (state : GameState) (syms : list Z)
    (result : Netresult) :
  keeps_cache (probe_symmetries E state syms result).
Proof.
  induction syms as [|sym rest IH]; cbn [probe_symmetries];
    [apply keeps_cache_ret|].
  destruct (sym =? IDENTITY_SYMMETRY)%Z; [done|].
  apply keeps_cache_bind; [apply keeps_cache_cache_lookup|].
  intros [entry|]; [apply keeps_cache_ret | done].
Qed.

Lemma keeps_cache_probe_cache (E : Env) (state : GameState) (result : Netresult) :
  keeps_cache (probe_cache E state result).
Proof.
  unfold probe_cache. apply keeps_cache_bind; [apply keeps_cache_cache_lookup|].
  intros own. apply keeps_cache_bind.
  - destruct (_ && _); [apply keeps_cache_probe_symmetries | apply keeps_cache_ret].
  - intros [hit r]. apply keeps_cache_ret.
Qed.

Lemma keeps_cache_average_loop (E : Env) (net : Network) (state : GameState)
    (syms : list Z) (result : Netresult) :
  keeps_cache (average_loop E net state syms result).
Proof.
  revert result. induction syms as [|sym rest IH]; intros result;
    cbn [average_loop]; [apply keeps_cache_ret|].
  apply keeps_cache_bind; [apply keeps_cache_get_output_internal|].
  intros tmp. apply IH.
Qed.

(** The network's part of [evaluate]. *)
Lemma keeps_cache_network (E : Env) (net : Network) (state : GameState)
    (ensemble : Ensemble) (symmetry : Z) (result : Netresult) :
  keeps_cache
    match ensemble with
    | DIRECT => get_output_internal net state symmetry
    | AVERAGE => average_loop E net state all_symmetries result
    | RANDOM_SYMMETRY =>
        rand_sym <- randfix E ;;
        get_output_internal net state rand_sym
    end.
Proof.
  destruct ensemble.
  - apply keeps_cache_get_output_internal.
  - apply keeps_cache_bind; [apply keeps_cache_randfix|].
    intros s. apply keeps_cache_get_output_internal.
  - apply keeps_cache_average_loop.
Qed.

(** The two ways in which [evaluate] ends. *)
Lemma evaluate_run (E : Env) (net : Network) (state : GameState)
    (ensemble : Ensemble) (symmetry : Z) (write_cache : bool)
    (result : Netresult) (w : World) (r : Result Netresult) (w' : World) :
  evaluate E net state ensemble symmetry write_cache result w = (r, w') ->
  (r = Halt /\ m_nncache w' = m_nncache w /\ draining w = true)
  \/ (exists r0 w0,
        r = Ok (elf_flip net state r0)
        /\ m_nncache w0 = m_nncache w
        /\ draining w0 = draining w
        /\ w' = if write_cache
                then mkWorld (NNCache.insert (get_hash state)
                                (elf_flip net state r0) (m_nncache w0))
                             (draining w0) (rng w0)
                             (trace w0 ++ [EvInsert (get_hash state)
                                             (elf_flip net state r0)])
                else w0).
Proof.
  unfold evaluate. unfold bind at 1.
  pose proof (keeps_cache_network E net state ensemble symmetry result w) as Hnet.
  match type of Hnet with
  | forall r w', ?run = _ -> _ => destruct run as [[r0|] w0] eqn:Hrun
  end; intros Hev.
  - right. destruct (Hnet _ _ eq_refl) as (Hcache & Hdrain & _).
    exists r0, w0. fold (elf_flip net state r0) in Hev.
    destruct write_cache.
    + unfold bind in Hev. rewrite cache_insert_run in Hev.
      unfold ret in Hev. by injection Hev as <- <-.
    + unfold bind, ret in Hev. by injection Hev as <- <-.
  - left. destruct (Hnet _ _ eq_refl) as (Hcache & _ & Hhalt).
    injection Hev as <- <-. by repeat split; [|apply Hhalt].
Qed.

(** [probe_cache] when the state's own hash is in the cache. *)
Lemma probe_cache_own_hit (E : Env) (state : GameState)
    (entry result : Netresult) (w : World) :
  NNCache.lookup (get_hash state) (m_nncache w) = Some entry ->
  probe_cache E state result w
  = (Ok (true, refresh_winrate state entry),
     add_trace w [EvLookup (get_hash state)]).
Proof.
  intros Hown. unfold probe_cache, bind.
  rewrite cache_lookup_run, Hown. cbn [default].
  rewrite bool_decide_eq_true_2 by (by eexists). cbn [negb andb].
  unfold ret, refresh_winrate. reflexivity.
Qed.

(** X17. A [get_output] that is halted has written nothing to the cache, and
    it can only be halted while the backend is drained: every ensemble
    inserts its result after the last request to the backend has returned. *)
Theorem get_output_halt_keeps_cache (E : Env) (net : Network) (state : GameState)
    (ensemble : Ensemble) (symmetry : Z) (read_cache write_cache : bool)
    (w w' : World) :
  get_output E net state ensemble symmetry read_cache write_cache w = (Halt, w') ->
  m_nncache w' = m_nncache w /\ draining w = true.
Proof.
  unfold get_output. destruct (negb _); [done|].
  unfold bind.
  assert (Hprobe : keeps_cache (if read_cache && negb (is_average ensemble)
                                then probe_cache E state (Netresult_default E)
                                else ret (false, Netresult_default E))).
  { destruct (_ && _); [apply keeps_cache_probe_cache | apply keeps_cache_ret]. }
  destruct ((if read_cache && negb (is_average ensemble)
             then probe_cache E state (Netresult_default E)
             else ret (false, Netresult_default E)) w)
    as [[[hit r]|] w1] eqn:Hrun; intros Hout.
  - destruct (Hprobe _ _ _ Hrun) as (Hcache & Hdrain & _).
    destruct hit; [done|].
    apply evaluate_run in Hout as [(_ & Hc & Hd)|(r0 & w0 & Hr & _)]; [|done].
    split; congruence.
  - destruct (Hprobe _ _ _ Hrun) as (Hcache & _ & Hhalt).
    injection Hout as <-. by split; [|apply Hhalt].
Qed.

Lemma get_output_halt_keeps_cache_witness :
  m_nncache refused_world = m_nncache (drained_world empty_cache)
  /\ draining (drained_world empty_cache) = true.
Proof.
  apply (get_output_halt_keeps_cache (env7 false) (lz_network (1 / 2))
           opening_position RANDOM_SYMMETRY (-1) true true).
  reflexivity.
Defined.

(** X18. An evaluation that was written to the cache answers the next call:
    after a [get_output] that did not read the cache and wrote its result
    under a hash that had no entry, any [get_output] for the same state that
    reads the cache returns that result (its winrate recomputed if it is a
    SAI one) after one lookup, without asking the network and without
    inserting anything. *)
Theorem get_output_second_call_hits_cache (E : Env) (net : Network)
    (state : GameState) (ensemble ensemble' : Ensemble) (symmetry symmetry' : Z)
    (write_cache' : bool) (r : Netresult) (w w1 : World) :
  get_boardsize state = BOARD_SIZE E ->
  ensemble' <> AVERAGE ->
  cache_wf (m_nncache w) -> (0 < NNCache.m_size (m_nncache w))%nat ->
  NNCache.lookup (get_hash state) (m_nncache w) = None ->
  get_output E net state ensemble symmetry false true w = (Ok r, w1) ->
  get_output E net state ensemble' symmetry' true write_cache' w1
  = (Ok (refresh_winrate state r), add_trace w1 [EvLookup (get_hash state)]).
Proof.
  intros Hsize Hens Hwf Hpos Hnone Hfirst.
  assert (Hstored : NNCache.lookup (get_hash state) (m_nncache w1) = Some r).
  { unfold get_output in Hfirst.
    apply Z.eqb_eq in Hsize as Hsz. rewrite Hsz in Hfirst. cbn [negb andb] in Hfirst.
    unfold bind at 1 in Hfirst. unfold ret at 1 in Hfirst.
    apply evaluate_run in Hfirst as [(? & _)|(r0 & w0 & Hr & Hcache & _ & ->)];
      [done|].
    injection Hr as ->. cbn [m_nncache]. rewrite Hcache.
    by apply lookup_insert_absent. }
  rewrite (get_output_after_probe E net state ensemble' symmetry' write_cache'
             true (refresh_winrate state r) w1
             (add_trace w1 [EvLookup (get_hash state)]) Hsize Hens); [done|].
  by apply probe_cache_own_hit.
Qed.

Lemma get_output_second_call_hits_cache_witness :
  get_output (env7 false) (lz_network (1 / 2)) opening_position
             RANDOM_SYMMETRY (-1) true true
             (mkWorld (NNCache.insert 100 (flat_result (1 / 2)) empty_cache)
                      false 0 [EvForward 0; EvInsert 100 (flat_result (1 / 2))])
  = (Ok (refresh_winrate opening_position (flat_result (1 / 2))),
     add_trace
       (mkWorld (NNCache.insert 100 (flat_result (1 / 2)) empty_cache)
                false 0 [EvForward 0; EvInsert 100 (flat_result (1 / 2))])
       [EvLookup (get_hash opening_position)]).
Proof.
  apply (get_output_second_call_hits_cache (env7 false) (lz_network (1 / 2))
           opening_position DIRECT RANDOM_SYMMETRY 0 (-1) true
           (flat_result (1 / 2)) (ready_world empty_cache)).
  - reflexivity.
  - discriminate.
  - intros h Hh. cbn in Hh. done.
  - cbn. lia.
  - reflexivity.
  - reflexivity.
Defined.

(** ** Backups, virtual losses and trackers *)

Lemma Rsum_app (l k : list R) : Rsum (l ++ k) = Rsum l + Rsum k.
Proof.
  unfold Rsum. induction l as [|x l IH]; cbn [app foldr]; [lra|].
  rewrite IH. lra.
Qed.

Lemma Rsum_shifted_squares (l : list R) (m : R) :
  Rsum (map (fun e => (e - m) * (e - m)) l)
  = Rsum (map (fun e => e * e) l) - 2 * m * Rsum l + INR (length l) * (m * m).
Proof.
  unfold Rsum. induction l as [|x l IH]; [cbn; lra|].
  cbn [map foldr length]. rewrite IH, S_INR. lra.
Qed.

Lemma squared_deviations_formula (l : list R) :
  l <> [] ->
  squared_deviations l
  = Rsum (map (fun e => e * e) l) - Rsum l * Rsum l / INR (length l).
Proof.
  intros Hne. unfold squared_deviations. rewrite Rsum_shifted_squares.
  unfold mean.
  assert (0 < INR (length l)).
  { apply lt_0_INR. destruct l; [done|cbn; lia]. }
  field. lra.
Qed.

(** Welford's step. *)
Lemma squared_deviations_snoc (l : list R) (x : R) :
  l <> [] ->
  squared_deviations (l ++ [x])
  = squared_deviations l
    + (x - Rsum l / INR (length l))
      * (x - (Rsum l + x) / INR (length l + 1)).
Proof.
  intros Hne. rewrite !squared_deviations_formula by (done || by destruct l).
  rewrite map_app, !Rsum_app, length_app. cbn [map length].
  assert (Hx : forall y, Rsum [y] = y) by (intros; unfold Rsum; cbn; lra).
  rewrite !Hx.
  assert (0 < INR (length l)).
  { apply lt_0_INR. destruct l; [done|cbn; lia]. }
  rewrite plus_INR. cbn [INR]. field. lra.
Qed.

Lemma squared_deviations_single (x : R) : squared_deviations [x] = 0.
Proof. unfold squared_deviations, mean, Rsum. cbn. field. Qed.

Lemma backups_snoc (n : UCTNode) (rs : list (SearchResult * bool))
    (r : SearchResult * bool) :
  backups n (rs ++ [r]) = snd (update (backups n rs) (fst r) (snd r)).
Proof. unfold backups. by rewrite foldl_app. Qed.

(** Backups leave the father's quantiles alone, so every result is
    evaluated as at the first backup. *)
Lemma backups_father (n : UCTNode) (rs : list (SearchResult * bool)) :
  get_father_quantile_lambda (backups n rs) = get_father_quantile_lambda n
  /\ get_father_quantile_mu (backups n rs) = get_father_quantile_mu n.
Proof.
  induction rs as [|r rs IH] using rev_ind; [done|].
  rewrite backups_snoc. exact IH.
Qed.

Lemma backed_eval_backups (n : UCTNode) (rs : list (SearchResult * bool))
    (r : SearchResult * bool) :
  backed_eval (backups n rs) r = backed_eval n r.
Proof.
  destruct (backups_father n rs) as [Hl Hm].
  unfold backed_eval, update. cbn [fst]. by rewrite Hl, Hm.
Qed.

(** [update] in terms of the evaluation it takes. *)
Lemma update_unfold (m : UCTNode) (r : SearchResult * bool) :
  update m (fst r) (snd r)
  = (backed_eval m r,
     set_stats m (m_visits m + 1)%Z
       (if snd r then (m_forced m + 1)%Z else m_forced m)
       (m_blackevals m + backed_eval m r)
       (m_squared_eval_diff m
        + (if (0 <? m_visits m)%Z
           then backed_eval m r - m_blackevals m / IZR (m_visits m) else 0)
          * (backed_eval m r
             - (m_blackevals m + backed_eval m r) / IZR (m_visits m + 1)))
       (m_pi_sum m + eval (fst r))).
Proof. reflexivity. Qed.

(** The statistics after any sequence of backups of a node that starts
    without visits. *)
Lemma backups_statistics (n : UCTNode) (rs : list (SearchResult * bool)) :
  m_visits n = 0%Z -> m_blackevals n = 0 -> m_squared_eval_diff n = 0 ->
  let evs := map (backed_eval n) rs in
  m_visits (backups n rs) = Z.of_nat (length rs)
  /\ m_blackevals (backups n rs) = Rsum evs
  /\ m_squared_eval_diff (backups n rs) = squared_deviations evs
  /\ m_pi_sum (backups n rs) = m_pi_sum n + Rsum (map (fun r => eval (fst r)) rs)
  /\ m_forced (backups n rs)
     = (m_forced n + Z.of_nat (length (List.filter snd rs)))%Z.
Proof.
  intros Hv Hb Hs. cbn zeta.
  induction rs as [|r rs IH] using rev_ind.
  - cbn. rewrite Hv, Hb, Hs. unfold squared_deviations, Rsum. cbn.
    repeat split; try lra; lia.
  - destruct IH as (IHv & IHb & IHs & IHp & IHf).
    rewrite backups_snoc, update_unfold.
    cbn [snd set_stats m_visits m_blackevals m_squared_eval_diff m_pi_sum m_forced].
    rewrite backed_eval_backups.
    rewrite !map_app, !Rsum_app, length_app, List.filter_app, length_app.
    cbn [map length].
    assert (Hx : forall y, Rsum [y] = y) by (intros; unfold Rsum; cbn; lra).
    rewrite !Hx, IHv, IHb, IHs, IHp, IHf.
    set (x := backed_eval n r).
    repeat split; try lra.
    + lia.
    + destruct rs as [|r0 rs].
      * cbn [map app length]. rewrite squared_deviations_single.
        change (0 <? Z.of_nat 0)%Z with false.
        unfold squared_deviations, Rsum. cbn [map foldr]. lra.
      * rewrite squared_deviations_snoc by done.
        rewrite length_map.
        assert (Hpos : (0 <? Z.of_nat (length (r0 :: rs)))%Z = true)
          by (apply Z.ltb_lt; cbn [length]; lia).
        rewrite Hpos.
        rewrite <- !INR_IZR_INZ.
        replace (Z.of_nat (length (r0 :: rs)) + 1)%Z
          with (Z.of_nat (length (r0 :: rs) + 1)) by lia.
        rewrite <- INR_IZR_INZ. lra.
    + cbn [List.filter]. destruct (snd r); cbn [length]; lia.
Qed.

Lemma Rdiv_le_cross (a b c d : R) :
  0 < b -> 0 < d -> a * d <= c * b -> a / b <= c / d.
Proof.
  intros Hb Hd Hcross.
  apply Rmult_le_reg_r with (b * d); [nra|].
  replace (a / b * (b * d)) with (a * d) by (field; lra).
  replace (c / d * (b * d)) with (c * b) by (field; lra).
  done.
Qed.

(** X19. [update] is Welford's algorithm: after any number of backups of a
    node that starts without visits, [m_visits] is the number of backups,
    [m_blackevals] the sum of the evaluations backed up, and
    [m_squared_eval_diff] the sum of their squared deviations from their
    mean, so that [get_eval_variance] is the unbiased sample variance. *)
Theorem update_is_welford (n : UCTNode) (results : list (SearchResult * bool))
    (default_var : R) :
  m_visits n = 0%Z -> m_blackevals n = 0 -> m_squared_eval_diff n = 0 ->
  let evs := map (backed_eval n) results in
  m_visits (backups n results) = Z.of_nat (length results)
  /\ m_blackevals (backups n results) = Rsum evs
  /\ m_squared_eval_diff (backups n results) = squared_deviations evs
  /\ get_eval_variance (backups n results) default_var
     = if (1 <? Z.of_nat (length results))%Z
       then squared_deviations evs / (INR (length results) - 1)
       else default_var.
Proof.
  intros Hv Hb Hs. cbn zeta.
  destruct (backups_statistics n results Hv Hb Hs) as (Hv' & Hb' & Hs' & _).
  cbn zeta in Hb', Hs'. repeat split; try done.
  unfold get_eval_variance. rewrite Hv', Hs'.
  destruct (1 <? Z.of_nat (length results))%Z; [|done].
  by rewrite minus_IZR, <- INR_IZR_INZ.
Qed.

(** X20. A virtual loss never makes a node look better to either colour, and
    [virtual_loss_undo] takes it back. *)
Theorem virtual_loss_lowers_eval (VIRTUAL_LOSS_COUNT : Z) (n : UCTNode)
    (tomove : Color) :
  (0 < VIRTUAL_LOSS_COUNT)%Z -> (0 < m_visits n)%Z -> (0 <= m_virtual_loss n)%Z ->
  0 <= m_blackevals n <= IZR (m_visits n) ->
  get_eval (virtual_loss VIRTUAL_LOSS_COUNT n) tomove <= get_eval n tomove
  /\ virtual_loss_undo VIRTUAL_LOSS_COUNT (virtual_loss VIRTUAL_LOSS_COUNT n) = n.
Proof.
  intros Hc Hv Hvl Hb. split.
  - unfold get_eval, virtual_loss, get_raw_eval.
    cbn [set_virtual_loss m_virtual_loss m_visits m_blackevals].
    set (v := m_visits n) in *. set (vl := m_virtual_loss n) in *.
    set (be := m_blackevals n) in *.
    assert (H1 : 0 < IZR (v + vl)) by (apply IZR_lt; lia).
    assert (H2 : 0 < IZR (v + (vl + VIRTUAL_LOSS_COUNT)))
      by (apply IZR_lt; lia).
    assert (H3 : 0 < IZR VIRTUAL_LOSS_COUNT) by (apply IZR_lt; lia).
    assert (H4 : 0 <= IZR vl) by (apply IZR_le; lia).
    rewrite !plus_IZR in *.
    destruct tomove; cbn [Color_eqb].
    + apply Rdiv_le_cross; [lra..|]. nra.
    + apply Ropp_le_cancel.
      replace (- (1 - (be + (IZR vl + IZR VIRTUAL_LOSS_COUNT))
                     / (IZR v + (IZR vl + IZR VIRTUAL_LOSS_COUNT))))
        with ((be + (IZR vl + IZR VIRTUAL_LOSS_COUNT))
              / (IZR v + (IZR vl + IZR VIRTUAL_LOSS_COUNT)) - 1) by lra.
      replace (- (1 - (be + IZR vl) / (IZR v + IZR vl)))
        with ((be + IZR vl) / (IZR v + IZR vl) - 1) by lra.
      apply Rplus_le_compat_r. apply Rdiv_le_cross; [lra..|]. nra.
  - unfold virtual_loss_undo, virtual_loss, set_virtual_loss. destruct n. cbn.
    f_equal. lia.
Qed.

(** X21. The tracker with parameter 1 starts at minus the network's [alpkt]:
    while it still holds 0 and the node has had fewer than 8 quantile
    updates, [update_all_quantiles] sets [m_quantile_one] to [- new_alpkt],
    whatever the betas and the evaluations backed up so far. *)
Theorem update_all_quantiles_starts_one (n : UCTNode)
    (new_alpkt new_beta new_beta2 : R) :
  (0 <= m_quantile_updates n < 8)%Z ->
  m_quantile (tracker_one n) = 0 ->
  m_quantile (tracker_one (update_all_quantiles n new_alpkt new_beta new_beta2))
  = - new_alpkt.
Proof.
  intros Hupd Hq0. unfold update_all_quantiles.
  cbn [set_trackers tracker_one]. unfold update_tracker.
  cbn [m_quantile update_gxx_sums]. rewrite Hq0.
  unfold update_quantile.
  assert (Hpar : Rltb (Rabs 1) (1 / 100000) = false).
  { apply Rltb_false. rewrite Rabs_R1. lra. }
  rewrite Hpar.
  assert (Hpos : (m_quantile_updates n + 1 <=? 0)%Z = false) by lia.
  assert (Hboot : (m_quantile_updates n + 1 <=? 8)%Z = true) by lia.
  assert (Hzero : Reqb 0 0 = true) by (by apply Reqb_true).
  rewrite Hpos, Hboot, Hzero. cbn [andb].
  replace (1 / 2 * 1 + (1 - 1) * get_avg_pi n BLACK) with (1 / 2) by lra.
  replace (1 + - (1 / 2)) with (1 / 2) by lra.
  match goal with |- (?a - ?a) / ?d - _ = _ =>
    replace ((a - a) / d) with 0 by (unfold Rdiv; lra) end.
  lra.
Qed.

(** X22. [low_visits_child] encodes the table of its comment for a child with
    at least one visit: with 1 to 3 father visits every child is low; with
    4 to 6 a child of up to 3 visits is; with 7 to 12, up to 4; with 13 to
    20, up to 5; with 21 to 30, up to 6. *)
Theorem low_visits_child_table (n child : UCTNode) :
  (1 <= m_visits child <= m_visits n)%Z ->
  ((1 <= m_visits n <= 3)%Z -> low_visits_child n child = true)
  /\ ((4 <= m_visits n <= 6)%Z ->
      (low_visits_child n child = true <-> (m_visits child <= 3)%Z))
  /\ ((7 <= m_visits n <= 12)%Z ->
      (low_visits_child n child = true <-> (m_visits child <= 4)%Z))
  /\ ((13 <= m_visits n <= 20)%Z ->
      (low_visits_child n child = true <-> (m_visits child <= 5)%Z))
  /\ ((21 <= m_visits n <= 30)%Z ->
      (low_visits_child n child = true <-> (m_visits child <= 6)%Z)).
Proof.
  intros Hc. unfold low_visits_child. cbn zeta.
  set (f := m_visits n) in *. set (c := m_visits child) in *.
  rewrite Z.ltb_lt.
  repeat split; intros; nia.
Qed.

Lemma low_visits_child_table_witness :
  ((1 <= m_visits visited_node <= 3)%Z ->
   low_visits_child visited_node visited_node = true)
  /\ ((4 <= m_visits visited_node <= 6)%Z ->
      (low_visits_child visited_node visited_node = true
       <-> (m_visits visited_node <= 3)%Z))
  /\ ((7 <= m_visits visited_node <= 12)%Z ->
      (low_visits_child visited_node visited_node = true
       <-> (m_visits visited_node <= 4)%Z))
  /\ ((13 <= m_visits visited_node <= 20)%Z ->
      (low_visits_child visited_node visited_node = true
       <-> (m_visits visited_node <= 5)%Z))
  /\ ((21 <= m_visits visited_node <= 30)%Z ->
      (low_visits_child visited_node visited_node = true
       <-> (m_visits visited_node <= 6)%Z)).
Proof. apply low_visits_child_table. cbn. lia. Defined.

(** ** The move list and the outcome of an expansion *)

(** *** Sorting the move list *)

Lemma pair_le_spec (a b : PolicyVertexPair) :
  pair_le a b <-> fst a < fst b \/ (fst a = fst b /\ (snd a <= snd b)%Z).
Proof.
  unfold pair_le, pair_lt.
  decide_R (fst b) (fst a); decide_R (fst a) (fst b); cbn [orb negb andb];
    destruct (Z.ltb_spec (snd b) (snd a)) as [Hz|Hz];
    (split; [intros Hle|intros [Hlt|[Heq Hle]]]);
    try discriminate; try reflexivity; try lra; try lia;
    try (left; lra); try (right; split; [lra|lia]).
Qed.

Lemma pair_le_trans (a b c : PolicyVertexPair) :
  pair_le a b -> pair_le b c -> pair_le a c.
Proof. rewrite !pair_le_spec. intros [?|[? ?]] [?|[? ?]]; [left; lra..|right; split; [lra|lia]]. Qed.

Lemma pair_le_total (a b : PolicyVertexPair) : pair_le a b \/ pair_le b a.
Proof.
  rewrite !pair_le_spec.
  destruct (Rtotal_order (fst a) (fst b)) as [?|[?|?]]; [by left; left| |by right; left].
  destruct (Z.le_ge_cases (snd a) (snd b)); [left|right]; right; split; (done || lia).
Qed.

Lemma pair_lt_le (a b : PolicyVertexPair) : pair_lt a b = true -> pair_le a b.
Proof.
  intros Hlt. destruct (pair_le_total a b) as [|Hba]; [done|].
  unfold pair_le in Hba. congruence.
Qed.

Lemma insert_sorted_Permutation (x : PolicyVertexPair) (l : list PolicyVertexPair) :
  Permutation (insert_sorted x l) (x :: l).
Proof.
  induction l as [|y l IH]; cbn [insert_sorted]; [done|].
  destruct (pair_lt y x); [|done].
  rewrite IH. apply perm_swap.
Qed.

Lemma insert_sorted_sorted (x : PolicyVertexPair) (l : list PolicyVertexPair) :
  StronglySorted pair_le l -> StronglySorted pair_le (insert_sorted x l).
Proof.
  induction 1 as [|y l Hsorted IH Hall]; cbn [insert_sorted].
  - repeat constructor.
  - destruct (pair_lt y x) eqn:Hyx.
    + constructor; [done|].
      rewrite Forall_forall. intros z Hz. apply list_elem_of_In in Hz.
      apply (Permutation_in _ (insert_sorted_Permutation x l)) in Hz.
      destruct Hz as [<-|Hz]; [by apply pair_lt_le|].
      rewrite Forall_forall in Hall. apply Hall. by apply list_elem_of_In.
    + constructor; [by constructor|].
      constructor; [exact Hyx|].
      eapply Forall_impl; [exact Hall|]. intros z Hz. cbn beta.
      by apply (pair_le_trans x y z).
Qed.

Lemma stable_sort_spec (l : list PolicyVertexPair) :
  Permutation (stable_sort l) l /\ StronglySorted pair_le (stable_sort l).
Proof.
  unfold stable_sort. induction l as [|x l [IHp IHs]]; cbn [foldr].
  - split; [done|constructor].
  - split; [|by apply insert_sorted_sorted].
    rewrite insert_sorted_Permutation. by constructor.
Qed.

Lemma StronglySorted_rev {A : Type} (R : A -> A -> Prop) (l : list A) :
  StronglySorted R l -> StronglySorted (fun a b => R b a) (rev l).
Proof.
  induction 1 as [|x l Hsorted IH Hall]; cbn [rev]; [constructor|].
  assert (Hsnoc : forall k : list A,
             StronglySorted (fun a b => R b a) k -> Forall (R x) k ->
             StronglySorted (fun a b => R b a) (k ++ [x])).
  { induction 1 as [|y k Hk IHk Hy]; intros Hx; cbn [app].
    - repeat constructor.
    - apply Forall_cons_1 in Hx as [Hxy Hx].
      constructor; [by apply IHk|].
      apply Forall_app. split; [done|]. by repeat constructor. }
  apply Hsnoc; [done|]. rewrite Forall_forall in *. intros y Hy.
  apply Hall. apply list_elem_of_In. apply in_rev. by apply list_elem_of_In.
Qed.

Lemma sort_best_first_spec (nodelist : list PolicyVertexPair) :
  Permutation (sort_best_first nodelist) nodelist
  /\ StronglySorted (fun a b => pair_le b a) (sort_best_first nodelist).
Proof.
  unfold sort_best_first.
  destruct (stable_sort_spec (rev nodelist)) as [Hp Hs]. split.
  - rewrite <- Permutation_rev, Hp. symmetry. apply Permutation_rev.
  - by apply StronglySorted_rev.
Qed.

(** *** The priors of the move list *)

Lemma powf_nonneg (x y : R) : 0 <= powf x y.
Proof.
  unfold powf. destruct (Rltb 0 x); [|lra].
  unfold Rpower. left. apply exp_pos.
Qed.

Lemma Rsum_const (l : list PolicyVertexPair) (c : R) :
  Rsum (map fst (map (fun node => (c, snd node)) l)) = INR (length l) * c.
Proof.
  unfold Rsum. induction l as [|x l IH]; [cbn; lra|].
  cbn [map foldr length fst]. rewrite IH, S_INR. lra.
Qed.

Lemma Rsum_divided (l : list PolicyVertexPair) (d : R) :
  Rsum (map fst (map (fun node => (fst node / d, snd node)) l))
  = Rsum (map fst l) / d.
Proof.
  unfold Rsum. induction l as [|x l IH]; [cbn; lra|].
  cbn [map foldr fst]. rewrite IH. lra.
Qed.

Lemma FLT_MIN_pos : 0 < FLT_MIN.
Proof. unfold FLT_MIN. apply Rinv_0_lt_compat. apply pow_lt. lra. Qed.

(** After renormalisation the priors add up to one. *)
Lemma normalise_sum (nodelist : list PolicyVertexPair) :
  nodelist <> [] ->
  Rsum (map fst (normalise nodelist (Rsum (map fst nodelist)))) = 1.
Proof.
  intros Hne. unfold normalise.
  pose proof FLT_MIN_pos.
  decide_R FLT_MIN (Rsum (map fst nodelist)).
  - rewrite Rsum_divided. field. lra.
  - rewrite Rsum_const.
    assert (0 < INR (length nodelist)).
    { apply lt_0_INR. destruct nodelist; [done|cbn; lia]. }
    field. lra.
Qed.

Lemma normalise_moves (nodelist : list PolicyVertexPair) (legal_sum : R) :
  map snd (normalise nodelist legal_sum) = map snd nodelist.
Proof.
  unfold normalise. destruct (Rltb _ _); rewrite map_map; by apply map_ext.
Qed.

Lemma normalise_nonneg (nodelist : list PolicyVertexPair) (legal_sum : R) :
  Forall (fun node => 0 <= fst node) nodelist ->
  Forall (fun node => 0 <= fst node) (normalise nodelist legal_sum).
Proof.
  intros Hall. unfold normalise. pose proof FLT_MIN_pos.
  decide_R FLT_MIN legal_sum.
  - induction Hall as [|x l Hx _ IH]; cbn [map]; constructor; [|done].
    cbn [fst]. apply Rmult_le_pos; [done|]. left. apply Rinv_0_lt_compat. lra.
  - set (u := 1 / INR (length nodelist)).
    assert (0 <= u).
    { subst u. destruct nodelist as [|x l]; [cbn; rewrite Rdiv_0_r; lra|].
      left. apply Rdiv_lt_0_compat; [lra|]. apply lt_0_INR. cbn. lia. }
    clearbody u. clear Hall.
    induction nodelist as [|x l IH]; cbn [map]; by constructor.
Qed.

Lemma board_move_nonneg (E : Env) (state : GameState) (raw : Netresult)
    (l : list PolicyVertexPair) :
  Forall (board_move E state raw) l -> Forall (fun node => 0 <= fst node) l.
Proof.
  intros Hall. eapply Forall_impl; [exact Hall|].
  intros node (i & syms & _ & _ & Hprior & _). cbn beta. rewrite Hprior.
  apply powf_nonneg.
Qed.

(** X23. [std::stable_sort(rbegin, rend)] in [link_nodelist] reorders the
    move list best first: the result is a permutation of the list in which
    no entry is smaller ([operator<] of the pairs) than a later one. *)
Theorem sort_best_first_sorted (nodelist : list PolicyVertexPair) :
  Permutation (sort_best_first nodelist) nodelist
  /\ StronglySorted (fun a b => pair_lt a b = false) (sort_best_first nodelist).
Proof. exact (sort_best_first_spec nodelist). Qed.

(** X24. The move list that [create_children] hands to [link_nodelist] is
    never empty and its priors form a distribution: the loop over the
    intersections cannot be halted, [legal_sum] is the sum of the priors
    collected, and after the renormalisation the priors are not negative
    and add up to 1 (the moves themselves are not touched). *)
Theorem create_children_priors_sum_to_one (E : Env) (state : GameState)
    (raw_netlist : Netresult) (w : World) :
  match collect_moves E state raw_netlist w with
  | (Ok (nodelist, legal_sum), _) =>
      nodelist <> []
      /\ legal_sum = Rsum (map fst nodelist)
      /\ map snd (normalise nodelist legal_sum) = map snd nodelist
      /\ Forall (fun node => 0 <= fst node) (normalise nodelist legal_sum)
      /\ Rsum (map fst (normalise nodelist legal_sum)) = 1
  | (Halt, _) => False
  end.
Proof.
  destruct (returns_board_moves E state raw_netlist (seq 0 (NUM_INTERSECTIONS E))
              (replicate (NUM_INTERSECTIONS E) false, [], 0) w)
    as ([[taken_already board] legal_sum] & w1 & Hrun & _).
  rewrite (collect_moves_run E state raw_netlist taken_already board legal_sum
             w w1 Hrun).
  pose proof (board_moves_sum E state raw_netlist _ _ _ _ _ Hrun eq_refl)
    as Hsum.
  assert (Hwarm : Forall (board_move E state raw_netlist) board).
  { apply (board_moves_board_move _ _ _ _ _ _ _ _ Hrun); [|constructor].
    intros i Hi. apply in_seq in Hi. lia. }
  cbn [fst snd] in Hsum. apply board_move_nonneg in Hwarm.
  destruct (allow_pass E state (value raw_netlist) board) eqn:Hpass.
  - set (pass := (powf (policy_pass raw_netlist) (1 / cfg_policy_temp E), PASS E)).
    assert (Hne : board ++ [pass] <> []) by (by destruct board).
    assert (Hlegal : legal_sum + powf (policy_pass raw_netlist) (1 / cfg_policy_temp E)
                     = Rsum (map fst (board ++ [pass]))).
    { rewrite List.map_app, Rsum_app, Hsum. unfold Rsum. cbn [map foldr].
      by rewrite Rplus_0_r. }
    split; [done|]. split; [done|]. split; [apply normalise_moves|].
    split.
    + apply normalise_nonneg. apply Forall_app. split; [done|].
      constructor; [apply powf_nonneg|constructor].
    + rewrite Hlegal. by apply normalise_sum.
  - assert (Hne : board <> []).
    { intros ->. assert (allow_pass E state (value raw_netlist) [] = true);
        [|congruence].
      apply allow_pass_spec. right. left. cbn. lia. }
    split; [done|]. split; [done|]. split; [apply normalise_moves|].
    split; [by apply normalise_nonneg|].
    rewrite Hsum. by apply normalise_sum.
Qed.

(** X25. With a backend that answers, [create_children] returns (it raises
    nothing), it returns true exactly when fewer than two passes have been
    played, the node was [INITIAL] and it was expandable at the ratio asked
    for, and it never leaves the node in [EXPANDING]: the node ends
    [EXPANDED] whenever the lock was acquired.  When it returns false, node
    count, out-parameters, cache, random state and call log are untouched. *)
Theorem create_children_outcome (E : Env) (net : Network) (state : GameState)
    (min_psa_ratio : R) (n : UCTNode) (nodecount : Z) (outs : Evals) (w : World) :
  draining w = false ->
  exists n' nodecount' outs' w',
    create_children E net state min_psa_ratio n nodecount outs w
    = (Ok (negb (2 <=? get_passes state)%Z
           && ExpandState_eqb (m_expand_state n) INITIAL
           && expandable n min_psa_ratio),
       (n', nodecount', outs'), w')
    /\ m_expand_state n'
       = (if negb (2 <=? get_passes state)%Z
             && ExpandState_eqb (m_expand_state n) INITIAL
          then EXPANDED else m_expand_state n)
    /\ (negb (2 <=? get_passes state)%Z
        && ExpandState_eqb (m_expand_state n) INITIAL
        && expandable n min_psa_ratio = false ->
        nodecount' = nodecount /\ outs' = outs /\ w' = w
        /\ m_children n' = m_children n /\ m_visits n' = m_visits n).
Proof.
  intros Hready. unfold create_children.
  destruct (2 <=? get_passes state)%Z; cbn [negb andb].
  { by exists n, nodecount, outs, w. }
  unfold acquire_expanding.
  destruct (ExpandState_eqb (m_expand_state n) INITIAL) eqn:Hinit; cbn [negb andb].
  2: { by exists n, nodecount, outs, w. }
  change (expandable (set_expand_state n EXPANDING) min_psa_ratio)
    with (expandable n min_psa_ratio).
  destruct (expandable n min_psa_ratio); cbn [negb].
  2: { by exists (expand_done (set_expand_state n EXPANDING)), nodecount, outs, w. }
  destruct (get_output_random_ready E net state (cfg_use_nncache E)
              (cfg_use_nncache E) w Hready) as (raw & w1 & ->).
  destruct (store_evaluation net state raw (set_expand_state n EXPANDING))
    as [n1 outs1].
  destruct (returns_collect_moves E state raw w1)
    as ([nodelist legal_sum] & w2 & -> & _).
  pose proof (finish_expansion_expanded E net state min_psa_ratio n1
                nodecount outs1 nodelist legal_sum) as Hdone.
  destruct (finish_expansion _ _ _ _ _ _ _ _ _) as [n2 nodecount2].
  by exists n2, nodecount2, outs1, w2.
Qed.

(** ** The sums of the trackers and the stored evaluation *)

(** X26. With a positive [beta], [update_gxx_sums] never lowers the
    tracker's [m_gp_sum] and raises it by at most a quarter of the larger of
    the two betas: the term added is [right_beta * g * (1 - g)] for a
    winrate [g] between 0 and 1.  The tracker's quantile is not touched. *)
Theorem update_gxx_sums_gp_term_bounded (t : Tracker)
    (old_quantile new_alpkt new_beta new_beta2 : R) :
  0 < new_beta ->
  let t' := update_gxx_sums t old_quantile new_alpkt new_beta new_beta2 in
  m_quantile t' = m_quantile t
  /\ m_gp_sum t <= m_gp_sum t'
  /\ m_gp_sum t' <= m_gp_sum t + Rmax new_beta new_beta2 / 4.
Proof.
  intros Hbeta. cbn zeta. unfold update_gxx_sums.
  cbn [m_quantile m_gp_sum].
  destruct (sigmoid_is_probability_core new_alpkt new_beta old_quantile new_beta2)
    as [Hg _].
  pose proof (sigmoid_pair_sum new_alpkt new_beta old_quantile new_beta2) as Hsum.
  set (g := sigmoid new_alpkt new_beta old_quantile new_beta2) in *.
  set (right_beta := if Rltb 0 new_beta2 && Rltb 0 (new_alpkt + old_quantile)
                     then new_beta2 else new_beta).
  assert (Hright : 0 < right_beta <= Rmax new_beta new_beta2).
  { subst right_beta. pose proof (Rmax_l new_beta new_beta2).
    pose proof (Rmax_r new_beta new_beta2).
    decide_R 0 new_beta2; cbn [andb]; [|lra].
    destruct (Rltb 0 (new_alpkt + old_quantile)); lra. }
  replace (snd g) with (1 - fst g) by lra.
  assert (Hprod : 0 <= fst g * (1 - fst g) <= 1 / 4).
  { split; [apply Rmult_le_pos; lra|].
    pose proof (Rle_0_sqr (fst g - 1 / 2)) as Hsq. unfold Rsqr in Hsq. lra. }
  split; [done|].
  assert (Hterm : 0 <= right_beta * fst g * (1 - fst g)
                  <= Rmax new_beta new_beta2 / 4).
  { rewrite Rmult_assoc. split; [apply Rmult_le_pos; lra|].
    unfold Rdiv. apply Rmult_le_compat; lra. }
  lra.
Qed.

Lemma update_gxx_sums_gp_term_bounded_witness :
  m_quantile (update_gxx_sums (mkTracker 0 0 0) 0 3 1 (-1)) = 0
  /\ 0 <= m_gp_sum (update_gxx_sums (mkTracker 0 0 0) 0 3 1 (-1))
  /\ m_gp_sum (update_gxx_sums (mkTracker 0 0 0) 0 3 1 (-1))
     <= 0 + Rmax 1 (-1) / 4.
Proof.
  apply (update_gxx_sums_gp_term_bounded (mkTracker 0 0 0) 0 3 1 (-1)); lra.
Defined.

(** The negated logit gives the complementary winrate. *)
Lemma sigmoid3_negated (alpha : R) :
  fst (sigmoid3 (- alpha) 1 0) = 1 - fst (sigmoid3 alpha 1 0).
Proof. pose proof (sigmoid_symmetry_exact alpha 1). lra. Qed.

(** X27. For a network with a single value head, the [alpkt] that
    [create_children] stores in the node and hands out is the logit of the
    winrate it stores, both from black's point of view: whoever is to move,
    [sigmoid(alpkt, 1, 0).first] is the stored value, and both betas are the
    conventional 1. *)
Theorem store_evaluation_alpkt_is_logit (net : Network) (state : GameState)
    (raw_netlist : Netresult) (n : UCTNode) :
  m_value_head_sai net = false ->
  value raw_netlist = fst (sigmoid3 (alpha raw_netlist) 1 0) ->
  let n' := fst (store_evaluation net state raw_netlist n) in
  let outs := snd (store_evaluation net state raw_netlist n) in
  out_value outs = fst (sigmoid3 (out_alpkt outs) 1 0)
  /\ out_value outs = (if Color_eqb (get_to_move state) BLACK
                       then value raw_netlist else 1 - value raw_netlist)
  /\ out_beta outs = 1 /\ out_beta2 outs = 1
  /\ m_net_pi n' = out_value outs /\ m_net_alpkt n' = out_alpkt outs
  /\ m_net_beta n' = 1 /\ m_net_beta2 n' = 1.
Proof.
  intros Hlz Hvalue. cbn zeta. unfold store_evaluation. rewrite Hlz.
  cbn [fst snd out_value out_alpkt out_beta out_beta2 set_net_eval
       m_net_pi m_net_alpkt m_net_beta m_net_beta2].
  repeat split.
  destruct (Color_eqb (get_to_move state) BLACK); [done|].
  by rewrite sigmoid3_negated, Hvalue.
Qed.

Lemma store_evaluation_alpkt_is_logit_witness :
  out_value (snd (store_evaluation (lz_network (1 / 2)) white_position
                    (flat_result (1 / 2)) fresh_node))
  = fst (sigmoid3 (out_alpkt (snd (store_evaluation (lz_network (1 / 2))
                                     white_position (flat_result (1 / 2))
                                     fresh_node))) 1 0).
Proof.
  apply (store_evaluation_alpkt_is_logit (lz_network (1 / 2)) white_position
           (flat_result (1 / 2)) fresh_node); [reflexivity|].
  cbn [value flat_result alpha]. rewrite sigmoid3_unfold. cbn zeta.
  replace (1 * (0 + 0)) with 0 by lra. rewrite Rabs_R0.
  assert (H30 : Rltb 30 0 = false) by (apply Rltb_false; lra).
  assert (H0 : Rltb 0 0 = false) by (apply Rltb_false; lra).
  rewrite H30, H0, exp_0. cbn [fst]. lra.
Defined.

(** ** The further theorems at concrete inputs *)

Lemma get_output_internal_fills_policy_witness :
  length (rotate_outputs (env7 false) 5 (replicate 50 (1 / 50)) (replicate 49 0))
  = NUM_INTERSECTIONS (env7 false)
  /\ rotate_outputs (env7 false) 5 (replicate 50 (1 / 50)) (replicate 49 0) !! 3%nat
     = Some (at_idx (replicate 50 (1 / 50))
               (Z.to_nat (symmetry_nn_idx_table (env7 false) (inverse_symmetry 5)
                                                (Z.of_nat 3)))).
Proof.
  apply get_output_internal_fills_policy.
  - cbn. lia.
  - unfold NUM_SYMMETRIES. lia.
  - reflexivity.
  - unfold NUM_INTERSECTIONS. cbn. lia.
Defined.

Lemma corrected_policy_undoes_rotation_witness :
  corrected_policy (env7 false) 5
    (rotate_outputs (env7 false) 5 (replicate 50 (1 / 50)) (replicate 49 0))
    !! 3%nat
  = Some (at_idx (replicate 50 (1 / 50)) 3).
Proof.
  apply corrected_policy_undoes_rotation.
  - cbn. lia.
  - unfold NUM_SYMMETRIES. lia.
  - reflexivity.
  - unfold NUM_INTERSECTIONS. cbn. lia.
Defined.

Lemma corrected_policy_preserves_mass_witness :
  Permutation (corrected_policy (env7 false) 5 (replicate 49 (1 / 50)))
              (replicate 49 (1 / 50))
  /\ Rsum (corrected_policy (env7 false) 5 (replicate 49 (1 / 50)))
     = Rsum (replicate 49 (1 / 50))
  /\ (5%Z = IDENTITY_SYMMETRY ->
      corrected_policy (env7 false) 5 (replicate 49 (1 / 50))
      = replicate 49 (1 / 50)).
Proof.
  apply corrected_policy_preserves_mass.
  - cbn. lia.
  - unfold NUM_SYMMETRIES. lia.
  - reflexivity.
Defined.

Lemma sigmoid_favours_the_side_ahead_witness :
  1 / 2 <= fst (sigmoid 3 1 (-1) (-1)) <-> 0 <= 3 + -1.
Proof. apply sigmoid_favours_the_side_ahead. lra. Defined.

Lemma add_zero_channels_keeps_weights_witness :
  fst (add_zero_channels 1 2 2 pooled_weights) = 8%nat
  /\ length (m_conv_val_pool_w (snd (add_zero_channels 1 2 2 pooled_weights)))
     = (8 * 2)%nat
  /\ (forall i j, (i < 2)%nat -> (j < 8)%nat ->
        m_conv_val_pool_w (snd (add_zero_channels 1 2 2 pooled_weights))
          !! (i * 8 + j)%nat
        = Some (if decide (j < 2)%nat
                then at_idx (m_conv_val_pool_w pooled_weights) (i * 2 + j)
                else 0))
  /\ (forall k, (k < 1 * 8)%nat ->
        m_conv_val_w (snd (add_zero_channels 1 2 2 pooled_weights)) !! k
        = Some (if decide (k < length (m_conv_val_w pooled_weights))%nat
                then at_idx (m_conv_val_w pooled_weights) k else 0))
  /\ (forall j, (j < 8)%nat ->
        m_conv_val_b (snd (add_zero_channels 1 2 2 pooled_weights)) !! j
        = Some (if decide (j < length (m_conv_val_b pooled_weights))%nat
                then at_idx (m_conv_val_b pooled_weights) j else 0)
        /\ m_bn_val_w1 (snd (add_zero_channels 1 2 2 pooled_weights)) !! j
           = Some (if decide (j < length (m_bn_val_w1 pooled_weights))%nat
                   then at_idx (m_bn_val_w1 pooled_weights) j else 0)
        /\ m_bn_val_w2 (snd (add_zero_channels 1 2 2 pooled_weights)) !! j
           = Some (if decide (j < length (m_bn_val_w2 pooled_weights))%nat
                   then at_idx (m_bn_val_w2 pooled_weights) j else 0)).
Proof.
  apply (add_zero_channels_keeps_weights 1 2 2 pooled_weights); [lia|lia|].
  reflexivity.
Defined.

Lemma update_is_welford_witness :
  m_visits (backups fresh_node
              [(mkSearchResult false 1 (fun _ _ => 1), false);
               (mkSearchResult false 0 (fun _ _ => 0), true)])
  = Z.of_nat 2
  /\ m_blackevals (backups fresh_node
                     [(mkSearchResult false 1 (fun _ _ => 1), false);
                      (mkSearchResult false 0 (fun _ _ => 0), true)])
     = Rsum (map (backed_eval fresh_node)
                 [(mkSearchResult false 1 (fun _ _ => 1), false);
                  (mkSearchResult false 0 (fun _ _ => 0), true)])
  /\ m_squared_eval_diff (backups fresh_node
                            [(mkSearchResult false 1 (fun _ _ => 1), false);
                             (mkSearchResult false 0 (fun _ _ => 0), true)])
     = squared_deviations
         (map (backed_eval fresh_node)
              [(mkSearchResult false 1 (fun _ _ => 1), false);
               (mkSearchResult false 0 (fun _ _ => 0), true)])
  /\ get_eval_variance
       (backups fresh_node
          [(mkSearchResult false 1 (fun _ _ => 1), false);
           (mkSearchResult false 0 (fun _ _ => 0), true)]) 1
     = if (1 <? Z.of_nat 2)%Z
       then squared_deviations
              (map (backed_eval fresh_node)
                   [(mkSearchResult false 1 (fun _ _ => 1), false);
                    (mkSearchResult false 0 (fun _ _ => 0), true)])
            / (INR 2 - 1)
       else 1.
Proof.
  apply (update_is_welford fresh_node
           [(mkSearchResult false 1 (fun _ _ => 1), false);
            (mkSearchResult false 0 (fun _ _ => 0), true)] 1);
    reflexivity.
Defined.

Lemma virtual_loss_lowers_eval_witness :
  get_eval (virtual_loss 3 visited_node) WHITE <= get_eval visited_node WHITE
  /\ virtual_loss_undo 3 (virtual_loss 3 visited_node) = visited_node.
Proof.
  apply virtual_loss_lowers_eval; cbn; try lia. lra.
Defined.

Lemma update_all_quantiles_starts_one_witness :
  m_quantile (tracker_one (update_all_quantiles fresh_node 3 1 (-1))) = - 3.
Proof.
  apply update_all_quantiles_starts_one; [cbn; lia | reflexivity].
Defined.

Lemma create_children_outcome_witness :
  exists n' nodecount' outs' w',
    create_children (env7 false) (lz_network (1 / 2)) opening_position 0
                    fresh_node 0 (mkEvals 0 0 0 0) (ready_world empty_cache)
    = (Ok (negb (2 <=? get_passes opening_position)%Z
           && ExpandState_eqb (m_expand_state fresh_node) INITIAL
           && expandable fresh_node 0),
       (n', nodecount', outs'), w')
    /\ m_expand_state n'
       = (if negb (2 <=? get_passes opening_position)%Z
             && ExpandState_eqb (m_expand_state fresh_node) INITIAL
          then EXPANDED else m_expand_state fresh_node)
    /\ (negb (2 <=? get_passes opening_position)%Z
        && ExpandState_eqb (m_expand_state fresh_node) INITIAL
        && expandable fresh_node 0 = false ->
        nodecount' = 0%Z /\ outs' = mkEvals 0 0 0 0
        /\ w' = ready_world empty_cache
        /\ m_children n' = m_children fresh_node
        /\ m_visits n' = m_visits fresh_node).
Proof.
  apply (create_children_outcome (env7 false) (lz_network (1 / 2))
           opening_position 0 fresh_node 0 (mkEvals 0 0 0 0)
           (ready_world empty_cache)).
  reflexivity.
Defined.

Lemma value_heads_single_is_logistic_witness :
  is_sai (value_heads (env7 false) (lz_network (1 / 2)) lz_heads 0
            opening_position [] [] [1] (Netresult_default (env7 false))) = false
  /\ alpha (value_heads (env7 false) (lz_network (1 / 2)) lz_heads 0
              opening_position [] [] [1] (Netresult_default (env7 false)))
     = 2 * at_idx [1] 0
  /\ beta (value_heads (env7 false) (lz_network (1 / 2)) lz_heads 0
             opening_position [] [] [1] (Netresult_default (env7 false))) = 1
  /\ value (value_heads (env7 false) (lz_network (1 / 2)) lz_heads 0
              opening_position [] [] [1] (Netresult_default (env7 false)))
     = 1 / (1 + exp (- (2 * at_idx [1] 0))).
Proof.
  apply (value_heads_single_is_logistic (env7 false) (lz_network (1 / 2))
           lz_heads 0 opening_position [] [] [1]
           (Netresult_default (env7 false))); [reflexivity|].
  unfold at_idx. cbn. rewrite Rabs_right; lra.
Defined.

Lemma value_heads_sai_beta_positive_witness :
  0 < beta (value_heads (env7 false) (lz_network (1 / 2)) sai_heads 0
              opening_position [] [] [1; 2] (Netresult_default (env7 false))).
Proof.
  apply (value_heads_sai_beta_positive (env7 false) (lz_network (1 / 2))
           sai_heads 0 opening_position [] [] [1; 2]
           (Netresult_default (env7 false))); [discriminate | cbn; lia].
Defined.
